(** * BrowserClaw: task router, gravitational memory, retrieval and key store

    A shallow embedding of the parts of the repository that the
    specification's testable properties talk about:

    - [src/workers/task-router.js] (complexity scoring, routing decision,
      the priority queue, and the worker's message handler together with
      the continuations of [processTask] that run between two messages),
    - [src/memory/gravitational-bit.js] (orbital-state encoding of the
      128-bit fingerprint, chunking, [GravitationalMemory.store]/[verify]),
    - [src/memory/rag-booster.js] ([RAGBooster.search] scoring),
    - [src/core/soul.js] ([getApiKeys], [setApiKeys] and the AES-GCM
      envelope).

    JavaScript numbers that are integers in the code are [Z]; retrieval
    scores are real numbers or [NaN]; [undefined] is [None]; arrays are
    lists; the worker's [self.postMessage] calls are the list of events a
    function returns next to the new state. *)

From Stdlib Require Import ZArith List String Ascii Bool Lia Arith.
From Stdlib Require Import Sorted Permutation.
From Stdlib Require Import Strings.Byte.
From Stdlib Require QArith DecimalString DecimalNat.
From Stdlib Require Import Reals Lra.
Import ListNotations.

(* ------------------------------------------------------------------ *)
(** ** JavaScript strings and arrays

    A JS string is a sequence of UTF-16 code units.  The model covers the
    strings whose code units are all below 256 (Latin-1), which is what a
    Rocq [string] holds.  On that range [toLowerCase], [\s], [\d], [\w]
    and [includes] are as defined here. *)

Module Js.

Definition code (c : ascii) : N := N_of_ascii c.

Definition in_range (lo hi : N) (c : ascii) : bool :=
  ((lo <=? code c) && (code c <=? hi))%N.

(** [String.prototype.toLowerCase] on one Latin-1 code unit: A-Z and
    U+00C0..U+00DE (except the multiplication sign U+00D7) move up by 32. *)
Definition toLowerCase_char (c : ascii) : ascii :=
  if in_range 65 90 c || (in_range 192 222 c && negb (code c =? 215)%N)
  then ascii_of_N (code c + 32)
  else c.

Fixpoint toLowerCase (s : string) : string :=
  match s with
  | EmptyString => EmptyString
  | String c r => String (toLowerCase_char c) (toLowerCase r)
  end.

(** [s.includes(kw)]: [kw] occurs in [s] as a contiguous substring. *)
Fixpoint includes (s kw : string) : bool :=
  prefix kw s ||
  match s with
  | EmptyString => false
  | String _ r => includes r kw
  end.

(** Regular-expression character classes (no [u] flag). *)
Definition is_digit (c : ascii) : bool := in_range 48 57 c.

Definition is_word (c : ascii) : bool :=
  in_range 97 122 c || in_range 65 90 c || in_range 48 57 c || (code c =? 95)%N.

Definition is_space (c : ascii) : bool :=
  in_range 9 13 c || (code c =? 32)%N || (code c =? 160)%N.

Fixpoint skip (p : ascii -> bool) (s : string) : string :=
  match s with
  | String c r => if p c then skip p r else s
  | EmptyString => s
  end.

(** [Array.prototype.findIndex]; [None] is the [-1] of JavaScript. *)
Fixpoint findIndex {A : Type} (f : A -> bool) (l : list A) : option nat :=
  match l with
  | [] => None
  | x :: r => if f x then Some 0%nat else option_map S (findIndex f r)
  end.

(** [arr.splice(i, 1)]: the array without its element at index [i]. *)
Definition splice_remove {A : Type} (i : nat) (l : list A) : list A :=
  firstn i l ++ skipn (S i) l.

(** [arr.splice(i, 0, x)]: [x] inserted so that it sits at index [i]. *)
Definition splice_insert {A : Type} (i : nat) (x : A) (l : list A) : list A :=
  firstn i l ++ x :: skipn i l.

(** [Math.ceil(n / d)] for an integer [n] and a positive integer [d]. *)
Definition ceil_div (n d : Z) : Z := (- ((- n) / d))%Z.

Fixpoint repeat_string (c : ascii) (k : nat) : string :=
  match k with
  | O => EmptyString
  | S k' => String c (repeat_string c k')
  end.

End Js.

(* ------------------------------------------------------------------ *)
(** ** The task router ([src/workers/task-router.js]) *)

Module Router.
Import Js.
Local Open Scope string_scope.
Local Open Scope list_scope.
Local Open Scope Z_scope.

Inductive Route : Type := LOCAL | CLOUD.

(** [const PRIORITY = { URGENT: 3, NORMAL: 2, BACKGROUND: 1 }] *)
Definition URGENT : Z := 3.
Definition NORMAL : Z := 2.
Definition BACKGROUND : Z := 1.

Definition MAX_QUEUE_DEPTH : nat := 50.

(** [state.config]. [mode] is whatever string the CONFIG message carried;
    the code treats every string other than 'local' and 'cloud' as auto. *)
Record Config : Type := mkConfig {
  mode : string;
  threshold : Z;
  privacyMode : bool
}.

(** A task object.  The fields the worker adds while scoring are [None]
    (or [false] for the two flags, which the code only tests for
    truthiness) until [processTask] has run; a TASK payload may carry any
    of them already. *)
Record Task : Type := mkTask {
  id : string;
  message : option string;
  receivedAt : Z;
  complexity : option Z;
  priority : option Z;
  route : option Route;
  realtime : bool;
  privacyFlag : bool
}.

(** What [state.ragBooster] is once an INIT_RAG message has put a truthy
    payload there, as far as the worker can tell: a call of its
    [assembleContext] throws before it returns (so does the call on a
    payload that has no such method, and a payload that came through
    [postMessage] has none), or it returns a value, which [processTask]
    then awaits. *)
Inductive RagBooster : Type := Throwing | Returning.

(** The worker's [state] object; [ragBooster] is [None] for [null]. *)
Record State : Type := mkState {
  queue : list Task;
  currentTask : option Task;
  config : Config;
  localModelLoaded : bool;
  cloudAvailable : bool;
  ragBooster : option RagBooster
}.

(** The object [getQueueStatus()] returns. *)
Record QueueStatus : Type := mkQueueStatus {
  queueLength : nat;
  currentTaskInfo : option (string * option Z * option Route);
  urgent : nat;
  normal : nat;
  background : nat
}.

(** The messages the worker posts to the main thread.  The EXECUTE
    messages also carry the context string; it is not represented. *)
Inductive Event : Type :=
| DROPPED (taskId : string) (reason : string)
| QUEUED (taskId : string) (queuePosition : nat)
| PREEMPTED (taskId : string)
| ROUTED (taskId : string) (r : Route) (c p : Z) (rt pf : bool)
| EXECUTE_LOCAL (taskId : string)
| EXECUTE_CLOUD (taskId : string)
| CANCELLED (taskId : string)
| QUEUE_CLEARED
| STREAM (taskId : string) (token : string)
| COMPLETE (taskId : string) (response : string)
| ERROR (taskId : string) (error : string)
| STATUS (status : QueueStatus).

Definition set_queue (st : State) (q : list Task) : State :=
  mkState q (currentTask st) (config st) (localModelLoaded st) (cloudAvailable st)
          (ragBooster st).

Definition set_currentTask (st : State) (c : option Task) : State :=
  mkState (queue st) c (config st) (localModelLoaded st) (cloudAvailable st)
          (ragBooster st).

Definition set_config (st : State) (c : Config) : State :=
  mkState (queue st) (currentTask st) c (localModelLoaded st) (cloudAvailable st)
          (ragBooster st).

(** [a < b] and [a === b] on priorities that may be [undefined]: every
    comparison with [undefined] is false. *)
Definition js_lt (a b : option Z) : bool :=
  match a, b with
  | Some x, Some y => x <? y
  | _, _ => false
  end.

Definition js_eq (a : option Z) (b : Z) : bool :=
  match a with
  | Some x => x =? b
  | None => false
  end.

(** *** Scoring *)

Definition countTokens (text : string) : Z :=
  ceil_div (Z.of_nat (String.length text)) 4.

Definition multiStepKeywords : list string :=
  ["then"; "after"; "next"; "first"; "second"; "third"; "finally"; "step"].

Definition domainKeywords : list (string * list string) :=
  [ ("code", ["code"; "function"; "programming"; "javascript"; "python"; "debug"; "error"]);
    ("math", ["calculate"; "solve"; "equation"; "math"; "formula"; "compute"]);
    ("law", ["legal"; "law"; "contract"; "regulation"; "compliance"]) ].

Definition realtimeKeywords : list string :=
  ["now"; "immediately"; "quick"; "fast"; "urgent"].

Definition privacyKeywords : list string :=
  ["private"; "confidential"; "secret"; "personal"].

(** The regular expression [/\b\d+\s*[.)]\s+\w+/] tried at the start of
    [s].  Digits, white space, the two punctuation marks and word
    characters after white space are pairwise disjoint classes, so the
    greedy run of each quantifier is the only one that can succeed. *)
Definition numbered_here (s : string) : bool :=
  match s with
  | String c r =>
      if is_digit c then
        match skip is_space (skip is_digit r) with
        | String d r2 =>
            if ((code d =? 46) || (code d =? 41))%N then
              match r2 with
              | String e r3 =>
                  if is_space e then
                    match skip is_space r3 with
                    | String w _ => is_word w
                    | EmptyString => false
                    end
                  else false
              | EmptyString => false
              end
            else false
        | EmptyString => false
        end
      else false
  | EmptyString => false
  end.

(** [regex.test(message)]: a match may start at every position where [\b]
    holds, that is (the next character being a digit) where the previous
    character is missing or not a word character. *)
Fixpoint numbered_from (prev_word : bool) (s : string) : bool :=
  match s with
  | EmptyString => false
  | String c r => (negb prev_word && numbered_here s) || numbered_from (is_word c) r
  end.

Definition hasNumberedSteps (message : string) : bool := numbered_from false message.

(** The [for ... of Object.entries(domainKeywords)] loop with its [break]. *)
Fixpoint domainLoop (entries : list (string * list string)) (lowerMessage : string)
  (score : Z) : Z :=
  match entries with
  | [] => score
  | (_, keywords) :: rest =>
      if existsb (includes lowerMessage) keywords then score + 2
      else domainLoop rest lowerMessage score
  end.

(** [task.message || ''] *)
Definition message_text (task : Task) : string :=
  match message task with
  | Some m => m
  | None => ""
  end.

(** [calculateComplexity(task)]: the score, and the task with the two
    flags the function writes into it. *)
Definition calculateComplexity (st : State) (task : Task) : Z * Task :=
  let message := message_text task in
  let lowerMessage := toLowerCase message in
  let tokenCount := countTokens message in
  let score := 0 in
  let score := if 1000 <? tokenCount then score + 2 else score in
  let score := if 4000 <? tokenCount then score + 2 else score in
  let hasMultiStep := existsb (includes lowerMessage) multiStepKeywords in
  let score := if hasMultiStep || hasNumberedSteps message then score + 3 else score in
  let score := domainLoop domainKeywords lowerMessage score in
  let rt := existsb (includes lowerMessage) realtimeKeywords in
  let pf := existsb (includes lowerMessage) privacyKeywords || privacyMode (config st) in
  (Z.min score 10,
   mkTask (id task) (Router.message task) (receivedAt task) (complexity task)
          (priority task) (route task) rt pf).

Definition determinePriority (task : Task) (complexity : Z) : Z :=
  if (8 <=? complexity) || realtime task then URGENT
  else if 4 <=? complexity then NORMAL
  else BACKGROUND.

Definition makeRoutingDecision (st : State) (task : Task) (complexity : Z) : Route :=
  if privacyFlag task then LOCAL
  else if realtime task && localModelLoaded st then LOCAL
  else if String.eqb (mode (config st)) "local" then
    (if localModelLoaded st then LOCAL else CLOUD)
  else if String.eqb (mode (config st)) "cloud" then
    (if cloudAvailable st then CLOUD else LOCAL)
  else if threshold (config st) <=? complexity then
    (if cloudAvailable st then CLOUD else LOCAL)
  else
    (if localModelLoaded st then LOCAL else CLOUD).

(** *** The queue *)

(** [enqueueTask(task)]: at [MAX_QUEUE_DEPTH] or more, the first queued
    BACKGROUND task (if any) is spliced out and reported as DROPPED; then
    the task is spliced in before the first queued task of strictly lower
    priority, or pushed at the end when there is none. *)
Definition enqueueTask (st : State) (task : Task) : State * list Event :=
  let '(q, events) :=
    if (MAX_QUEUE_DEPTH <=? List.length (queue st))%nat then
      match findIndex (fun t => js_eq (priority t) BACKGROUND) (queue st) with
      | Some backgroundIndex =>
          match nth_error (queue st) backgroundIndex with
          | Some removed =>
              (splice_remove backgroundIndex (queue st),
               [DROPPED (id removed) "Queue overflow"])
          | None => (queue st, [])
          end
      | None => (queue st, [])
      end
    else (queue st, []) in
  let q' :=
    match findIndex (fun t => js_lt (priority t) (priority task)) q with
    | None => q ++ [task]
    | Some insertIndex => splice_insert insertIndex task q
    end in
  (set_queue st q', events).

(** [dequeueTask()]: the task to run next (or [None] for [null]), the new
    state and the events posted. *)
Definition dequeueTask (st : State) : option Task * State * list Event :=
  let plain := (hd_error (queue st), set_queue st (tl (queue st)), []) in
  match currentTask st with
  | Some cur =>
      if js_lt (priority cur) (Some URGENT) then
        match find (fun t => js_eq (priority t) URGENT) (queue st) with
        | Some urgentTask =>
            (Some urgentTask,
             set_queue st
               (filter (fun t => negb (String.eqb (id t) (id urgentTask)))
                       (cur :: queue st)),
             [PREEMPTED (id cur)])
        | None => plain
        end
      else plain
  | None => plain
  end.

(** [executeTask(task)]: the task becomes the current one and is handed to
    the executor of its route. *)
Definition executeTask (st : State) (task : Task) : State * list Event :=
  (set_currentTask st (Some task),
   match route task with
   | Some LOCAL => [EXECUTE_LOCAL (id task)]
   | _ => [EXECUTE_CLOUD (id task)]
   end).

(** *** Configuration, model status and queue status *)

(** The payload of a CONFIG message: each property is present ([Some]) or
    absent. *)
Record ConfigUpdate : Type := mkConfigUpdate {
  u_mode : option string;
  u_threshold : option Z;
  u_privacyMode : option bool
}.

Definition spread {A : Type} (old : A) (new : option A) : A :=
  match new with
  | Some v => v
  | None => old
  end.

(** [updateConfig(config)]: [state.config = { ...state.config, ...config }] *)
Definition updateConfig (st : State) (u : ConfigUpdate) : State :=
  set_config st
    (mkConfig (spread (mode (config st)) (u_mode u))
              (spread (threshold (config st)) (u_threshold u))
              (spread (privacyMode (config st)) (u_privacyMode u))).

(** [updateModelStatus(status)] *)
Definition updateModelStatus (st : State) (l c : option bool) : State :=
  mkState (queue st) (currentTask st) (config st)
          (spread (localModelLoaded st) l) (spread (cloudAvailable st) c)
          (ragBooster st).

(** [initRAG(ragBooster)]; [None] stands for a falsy payload. *)
Definition initRAG (st : State) (payload : option RagBooster) : State :=
  mkState (queue st) (currentTask st) (config st)
          (localModelLoaded st) (cloudAvailable st) payload.

(** [getQueueStatus()] *)
Definition getQueueStatus (st : State) : QueueStatus :=
  mkQueueStatus
    (List.length (queue st))
    (match currentTask st with
     | Some t => Some (id t, priority t, route t)
     | None => None
     end)
    (List.length (filter (fun t => js_eq (priority t) URGENT) (queue st)))
    (List.length (filter (fun t => js_eq (priority t) NORMAL) (queue st)))
    (List.length (filter (fun t => js_eq (priority t) BACKGROUND) (queue st))).

(** *** The worker and its event loop

    [processTask] is an async function.  Called from the message handler
    or from [processNextTask] it runs up to its first [await] and
    returns; what follows the [await] runs later, as a microtask, once
    the awaited promise is settled.  There are two such points:

    - [await state.ragBooster.assembleContext(...)], reached only when
      [state.ragBooster] is set and the call returns.  The promise is
      settled by the memory engine at a time of its choosing.  Whether it
      is fulfilled or rejected only decides the context string (the
      inner [catch] lets the call go on), which is not represented.
    - [await executeTask(task)].  [executeTask] has no [await] of its
      own, so its promise is fulfilled when it returns and the
      continuation, the [finally] block, is queued as a microtask at
      once.

    The browser takes the next message from the queue only when no
    microtask is left.  With a message that is a string or absent, as
    [Task] has it, nothing in the [try] block throws (the one call that
    can, [assembleContext], has a [try] of its own), so the outer [catch]
    clause posts nothing. *)

(** A call of [processTask] suspended at the first [await]: the task
    with the fields written so far, and what the ROUTED message will be
    built from ([route], [complexity] and [task.priority]). *)
Record Suspended : Type := mkSuspended {
  s_task : Task;
  s_route : Route;
  s_complexity : Z;
  s_priority : Z
}.

(** A continuation that is ready to run. *)
Inductive Microtask : Type :=
| Resume (call : Suspended)
| Finally.

(** The worker: its [state], the calls of [processTask] that wait for
    the memory engine, and the microtask queue, oldest first. *)
Record Worker : Type := mkWorker {
  state : State;
  suspended : list Suspended;
  microtasks : list Microtask
}.

Definition set_state (w : Worker) (st : State) : Worker :=
  mkWorker st (suspended w) (microtasks w).

(** The [try] block of [processTask] from [task.context = context] on:
    the ROUTED message, then [executeTask]; the [finally] block is left
    as a microtask. *)
Definition dispatch (w : Worker) (call : Suspended) : Worker * list Event :=
  let task := s_task call in
  let '(st', ev) := executeTask (state w) task in
  (mkWorker st' (suspended w) (microtasks w ++ [Finally]),
   ROUTED (id task) (s_route call) (s_complexity call) (s_priority call)
          (realtime task) (privacyFlag task) :: ev).

(** The head of [processTask]: complexity, priority and route are
    computed and written into the task. *)
Definition score_and_route (st : State) (task : Task) : Suspended :=
  let '(c, task1) := calculateComplexity st task in
  let p := determinePriority task1 c in
  let task2 := mkTask (id task1) (message task1) (receivedAt task1) (Some c)
                      (Some p) (route task1) (realtime task1) (privacyFlag task1) in
  let r := makeRoutingDecision st task2 c in
  let task3 := mkTask (id task2) (message task2) (receivedAt task2) (complexity task2)
                      (priority task2) (Some r) (realtime task2) (privacyFlag task2) in
  mkSuspended task3 r c p.

(** [processTask(task)], up to the point where the call is suspended. *)
Definition processTask (w : Worker) (task : Task) : Worker * list Event :=
  let call := score_and_route (state w) task in
  match ragBooster (state w) with
  | Some Returning =>
      (mkWorker (state w) (suspended w ++ [call]) (microtasks w), [])
  | Some Throwing => dispatch w call
  | None => dispatch w call
  end.

(** [processNextTask()] *)
Definition processNextTask (w : Worker) : Worker * list Event :=
  match dequeueTask (state w) with
  | (Some nextTask, st1, ev1) =>
      let '(w2, ev2) := processTask (set_state w st1) nextTask in (w2, ev1 ++ ev2)
  | (None, st1, ev1) => (set_state w st1, ev1)
  end.

(** [finally { state.currentTask = null; processNextTask(); }] *)
Definition finally_block (w : Worker) : Worker * list Event :=
  processNextTask (set_state w (set_currentTask (state w) None)).

Definition run_microtask (w : Worker) (m : Microtask) : Worker * list Event :=
  match m with
  | Resume call => dispatch w call
  | Finally => finally_block w
  end.

(** The messages the main thread sends; [UNKNOWN] is any other type. *)
Inductive Message : Type :=
| TASK (payload : Task) (now : Z)
| CONFIG (payload : ConfigUpdate)
| MODEL_STATUS (l c : option bool)
| INIT_RAG (payload : option RagBooster)
| STREAM_TOKEN (taskId token : string)
| COMPLETE_TASK (taskId response : string)
| ERROR_TASK (taskId error : string)
| GET_STATUS
| CANCEL (taskId : string)
| CLEAR_QUEUE
| UNKNOWN.

(** [{ ...payload, receivedAt: Date.now() }] *)
Definition with_receivedAt (payload : Task) (now : Z) : Task :=
  mkTask (id payload) (message payload) now (complexity payload)
         (priority payload) (route payload) (realtime payload)
         (privacyFlag payload).

(** [self.onmessage]: what the handler does before it returns.  [now] is
    the value [Date.now()] returns while a TASK message is handled.
    ([handleComplete] also asks the memory engine to store the turn when
    there is a current task; that call does not touch the worker.) *)
Definition onmessage (w : Worker) (m : Message) : Worker * list Event :=
  let st := state w in
  match m with
  | TASK payload now =>
      let task := with_receivedAt payload now in
      match currentTask st with
      | Some _ =>
          let '(st', ev) := enqueueTask st task in
          (set_state w st', ev ++ [QUEUED (id task) (List.length (queue st'))])
      | None => processTask w task
      end
  | CONFIG payload => (set_state w (updateConfig st payload), [])
  | MODEL_STATUS l c => (set_state w (updateModelStatus st l c), [])
  | INIT_RAG payload => (set_state w (initRAG st payload), [])
  | STREAM_TOKEN taskId token => (w, [STREAM taskId token])
  | COMPLETE_TASK taskId response => (w, [COMPLETE taskId response])
  | ERROR_TASK taskId error => (w, [ERROR taskId error])
  | GET_STATUS => (w, [STATUS (getQueueStatus st)])
  | CANCEL taskId =>
      match findIndex (fun t => String.eqb (id t) taskId) (queue st) with
      | Some cancelIndex =>
          (set_state w (set_queue st (splice_remove cancelIndex (queue st))),
           [CANCELLED taskId])
      | None => (w, [])
      end
  | CLEAR_QUEUE => (set_state w (set_queue st []), [QUEUE_CLEARED])
  | UNKNOWN => (w, [])
  end.

(** What happens next in the worker: a message is taken from the queue
    and handled (only when no microtask is left), the memory engine
    settles the promise that the [k]-th suspended call awaits, or the
    oldest microtask runs (nothing happens when there is none). *)
Inductive Input : Type :=
| Receive (m : Message)
| Settle (k : nat)
| Tick.

(** One step of the worker; [None] when the event loop does not allow
    the input in this state. *)
Definition step (w : Worker) (i : Input) : option (Worker * list Event) :=
  match i with
  | Receive m =>
      match microtasks w with
      | [] => Some (onmessage w m)
      | _ :: _ => None
      end
  | Settle k =>
      match nth_error (suspended w) k with
      | Some call =>
          Some (mkWorker (state w) (splice_remove k (suspended w))
                         (microtasks w ++ [Resume call]), [])
      | None => None
      end
  | Tick =>
      match microtasks w with
      | [] => Some (w, [])
      | m :: rest => Some (run_microtask (mkWorker (state w) (suspended w) rest) m)
      end
  end.

(** A run of the worker, with all the messages it posts. *)
Fixpoint run (w : Worker) (inputs : list Input) : option (Worker * list Event) :=
  match inputs with
  | [] => Some (w, [])
  | i :: rest =>
      match step w i with
      | Some (w1, ev1) =>
          match run w1 rest with
          | Some (w2, ev2) => Some (w2, ev1 ++ ev2)
          | None => None
          end
      | None => None
      end
  end.

(** The worker's initial [state], and the worker when it starts. *)
Definition initial_state : State :=
  mkState [] None (mkConfig "auto" 6 false) false false None.

Definition initial_worker : Worker := mkWorker initial_state [] [].

(** Every message on its own turn of the event loop, each followed by
    the microtask it may leave. *)
Definition turns (messages : list Message) : list Input :=
  flat_map (fun m => [Receive m; Tick]) messages.

(** *** Facts about [findIndex] and [splice] *)

Section FindIndexFacts.
Context {A : Type} (f : A -> bool).

Lemma findIndex_None (l : list A) :
  findIndex f l = None -> Forall (fun x => f x = false) l.
Proof.
  induction l as [|x r IH]; simpl; intros H; [constructor|].
  destruct (f x) eqn:E; [discriminate|].
  destruct (findIndex f r); [discriminate|].
  constructor; auto.
Qed.

Lemma findIndex_Some (l : list A) (i : nat) :
  findIndex f l = Some i ->
  exists l1 x l2,
    l = l1 ++ x :: l2 /\ List.length l1 = i /\ f x = true /\
    Forall (fun y => f y = false) l1.
Proof.
  revert i; induction l as [|x r IH]; simpl; intros i H; [discriminate|].
  destruct (f x) eqn:E.
  - inversion H; subst. exists [], x, r. repeat split; auto.
  - destruct (findIndex f r) as [j|] eqn:Ej; [|discriminate].
    inversion H; subst.
    destruct (IH j eq_refl) as (l1 & y & l2 & -> & Hl & Hy & Hall).
    exists (x :: l1), y, l2. repeat split; simpl; auto.
Qed.

Lemma findIndex_exists (l : list A) (x : A) :
  In x l -> f x = true -> exists i, findIndex f l = Some i.
Proof.
  induction l as [|y r IH]; simpl; intros Hin Hx; [contradiction|].
  destruct (f y) eqn:E; [eauto|].
  destruct Hin as [->|Hin]; [congruence|].
  destruct (IH Hin Hx) as [i ->]. simpl. eauto.
Qed.

Lemma splice_remove_app (l1 l2 : list A) (x : A) :
  splice_remove (List.length l1) (l1 ++ x :: l2) = l1 ++ l2.
Proof.
  unfold splice_remove.
  induction l1 as [|y r IH]; simpl; [reflexivity|].
  simpl in IH. rewrite IH. reflexivity.
Qed.

Lemma splice_insert_app (l1 l2 : list A) (x : A) :
  splice_insert (List.length l1) x (l1 ++ l2) = l1 ++ x :: l2.
Proof.
  unfold splice_insert.
  induction l1 as [|y r IH]; simpl.
  - destruct l2; reflexivity.
  - rewrite IH. reflexivity.
Qed.

Lemma nth_error_middle (l1 l2 : list A) (x : A) :
  nth_error (l1 ++ x :: l2) (List.length l1) = Some x.
Proof.
  rewrite nth_error_app2 by lia. rewrite Nat.sub_diag. reflexivity.
Qed.

End FindIndexFacts.

(** *** The two halves of [enqueueTask] *)

Definition is_background (t : Task) : bool := js_eq (priority t) BACKGROUND.

Definition lower_than (task t : Task) : bool := js_lt (priority t) (priority task).

(** The splice that makes room: lines 562-572 of the worker. *)
Definition evict (q : list Task) : list Task * list Event :=
  if (MAX_QUEUE_DEPTH <=? List.length q)%nat then
    match findIndex is_background q with
    | Some backgroundIndex =>
        match nth_error q backgroundIndex with
        | Some removed =>
            (splice_remove backgroundIndex q, [DROPPED (id removed) "Queue overflow"])
        | None => (q, [])
        end
    | None => (q, [])
    end
  else (q, []).

(** The insertion in priority order: lines 575-580 of the worker. *)
Definition insert_by_priority (task : Task) (q : list Task) : list Task :=
  match findIndex (lower_than task) q with
  | None => q ++ [task]
  | Some insertIndex => splice_insert insertIndex task q
  end.

Lemma enqueueTask_eq (st : State) (task : Task) :
  enqueueTask st task =
  (set_queue st (insert_by_priority task (fst (evict (queue st)))),
   snd (evict (queue st))).
Proof.
  unfold enqueueTask, evict, insert_by_priority, is_background, lower_than.
  destruct (MAX_QUEUE_DEPTH <=? List.length (queue st))%nat; [|reflexivity].
  destruct (findIndex _ (queue st)) as [i|]; [|reflexivity].
  destruct (nth_error (queue st) i); reflexivity.
Qed.

Lemma insert_by_priority_split (task : Task) (q : list Task) :
  exists l1 l2,
    q = l1 ++ l2 /\
    insert_by_priority task q = l1 ++ task :: l2 /\
    Forall (fun t => lower_than task t = false) l1 /\
    match l2 with
    | [] => True
    | x :: _ => lower_than task x = true
    end.
Proof.
  unfold insert_by_priority.
  destruct (findIndex (lower_than task) q) as [i|] eqn:E.
  - destruct (findIndex_Some _ _ _ E) as (l1 & x & l2 & -> & Hi & Hx & Hall).
    exists l1, (x :: l2). subst i. rewrite splice_insert_app. auto.
  - exists q, []. rewrite app_nil_r. repeat split; auto.
    apply findIndex_None; assumption.
Qed.

Lemma insert_by_priority_length (task : Task) (q : list Task) :
  List.length (insert_by_priority task q) = S (List.length q).
Proof.
  destruct (insert_by_priority_split task q) as (l1 & l2 & -> & -> & _).
  rewrite !length_app. simpl. lia.
Qed.

Lemma evict_split (q : list Task) (b : Task) :
  (MAX_QUEUE_DEPTH <= List.length q)%nat ->
  In b q -> is_background b = true ->
  exists before victim after,
    q = before ++ victim :: after /\
    is_background victim = true /\
    Forall (fun t => is_background t = false) before /\
    evict q = (before ++ after, [DROPPED (id victim) "Queue overflow"]).
Proof.
  intros Hlen Hin Hb. unfold evict.
  apply Nat.leb_le in Hlen. rewrite Hlen.
  destruct (findIndex_exists is_background q b Hin Hb) as [i Hi].
  rewrite Hi.
  destruct (findIndex_Some _ _ _ Hi) as (l1 & x & l2 & -> & Hl & Hx & Hall).
  subst i. rewrite nth_error_middle, splice_remove_app.
  exists l1, x, l2. auto.
Qed.

Lemma evict_no_victim (q : list Task) :
  Forall (fun t => is_background t = false) q -> evict q = (q, []).
Proof.
  intros Hall. unfold evict.
  destruct (MAX_QUEUE_DEPTH <=? List.length q)%nat; [|reflexivity].
  destruct (findIndex is_background q) as [i|] eqn:E; [|reflexivity].
  destruct (findIndex_Some _ _ _ E) as (l1 & x & l2 & -> & _ & Hx & _).
  apply Forall_app in Hall. destruct Hall as [_ Hall].
  inversion Hall; subst. congruence.
Qed.

Lemma evict_below (q : list Task) :
  (List.length q < MAX_QUEUE_DEPTH)%nat -> evict q = (q, []).
Proof.
  intros H. unfold evict.
  apply Nat.leb_gt in H. rewrite H. reflexivity.
Qed.

(** *** Concrete states used by the examples below *)

Definition digit_id (i : nat) : string := String (ascii_of_nat (48 + i)) "".

Definition running_task : Task :=
  mkTask "running" (Some "first write the code") 0 (Some 5) (Some NORMAL)
         (Some LOCAL) false false.

Definition running_state : State :=
  mkState [] (Some running_task) (mkConfig "auto" 6 false) true true None.

Definition queued_normal (i : nat) : Task :=
  mkTask (digit_id i) (Some "first write the code") (Z.of_nat i) (Some 5)
         (Some NORMAL) (Some LOCAL) false false.

(** A payload as the user interface sends it: no scoring fields. *)
Definition plain_payload (i : nat) : Task :=
  mkTask (digit_id i) (Some "hello") 0 None None None false false.

(** *** Routing *)

Lemma calculateComplexity_privacyFlag (st : State) (task : Task) :
  privacyFlag (snd (calculateComplexity st task)) =
  existsb (includes (toLowerCase (message_text task))) privacyKeywords
  || privacyMode (config st).
Proof. reflexivity. Qed.

(** C1.  A task whose privacy flag is set is routed LOCAL by
    [makeRoutingDecision], whatever the mode, the threshold and the two
    executor flags of the state are, and whatever its complexity is; and
    [calculateComplexity] sets the flag as soon as the message holds a
    privacy keyword or [privacyMode] is on in the configuration. *)
Theorem privacy_implies_local :
  forall (st : State) (task : Task) (c : Z),
    (privacyFlag task = true -> makeRoutingDecision st task c = LOCAL) /\
    (forall st0 raw,
       task = snd (calculateComplexity st0 raw) ->
       existsb (includes (toLowerCase (message_text raw))) privacyKeywords = true
       \/ privacyMode (config st0) = true ->
       makeRoutingDecision st task c = LOCAL).
Proof.
  intros st task c.
  assert (H : privacyFlag task = true -> makeRoutingDecision st task c = LOCAL).
  { intros Hf. unfold makeRoutingDecision. rewrite Hf. reflexivity. }
  split; [exact H|].
  intros st0 raw -> Hsrc. apply H.
  rewrite calculateComplexity_privacyFlag.
  destruct Hsrc as [-> | ->]; [reflexivity|apply orb_true_r].
Qed.

Lemma privacy_implies_local_witness :
  let st := mkState [] None (mkConfig "cloud" 0 true) false true None in
  let task := snd (calculateComplexity st (plain_payload 0)) in
  privacyFlag task = true /\ makeRoutingDecision st task 10 = LOCAL.
Proof.
  split; [reflexivity|].
  apply (proj1 (privacy_implies_local
                  (mkState [] None (mkConfig "cloud" 0 true) false true None)
                  (snd (calculateComplexity
                          (mkState [] None (mkConfig "cloud" 0 true) false true None)
                          (plain_payload 0)))
                  10)).
  reflexivity.
Defined.

(** *** Backpressure *)

Lemma is_background_iff (t : Task) :
  is_background t = true <-> priority t = Some BACKGROUND.
Proof.
  unfold is_background, js_eq. destruct (priority t) as [p|].
  - rewrite Z.eqb_eq. split; congruence.
  - split; discriminate.
Qed.

Lemma not_background_iff (t : Task) :
  is_background t = false <-> priority t <> Some BACKGROUND.
Proof.
  rewrite <- is_background_iff. destruct (is_background t); split; congruence.
Qed.

(** The overflow branch of [enqueueTask]: when the queue holds
    [MAX_QUEUE_DEPTH] tasks or more and a BACKGROUND task is queued, the
    first BACKGROUND task in queue order is removed and reported as
    DROPPED with the reason 'Queue overflow', and the new task is then
    inserted before the first task of strictly lower priority. *)
Lemma enqueueTask_evicts_first_background (st : State) (task b : Task) :
  (MAX_QUEUE_DEPTH <= List.length (queue st))%nat ->
  In b (queue st) -> priority b = Some BACKGROUND ->
  exists before victim after l1 l2,
    queue st = before ++ victim :: after /\
    priority victim = Some BACKGROUND /\
    Forall (fun t => priority t <> Some BACKGROUND) before /\
    before ++ after = l1 ++ l2 /\
    Forall (fun t => js_lt (priority t) (priority task) = false) l1 /\
    match l2 with
    | [] => True
    | x :: _ => js_lt (priority x) (priority task) = true
    end /\
    enqueueTask st task =
      (set_queue st (l1 ++ task :: l2), [DROPPED (id victim) "Queue overflow"]).
Proof.
  intros Hlen Hin Hb.
  apply is_background_iff in Hb.
  destruct (evict_split _ _ Hlen Hin Hb)
    as (before & victim & after & Hq & Hv & Hbefore & Hev).
  destruct (insert_by_priority_split task (before ++ after))
    as (l1 & l2 & Hsplit & Hins & Hl1 & Hl2).
  exists before, victim, after, l1, l2.
  repeat split; auto.
  - apply is_background_iff; assumption.
  - eapply Forall_impl; [|exact Hbefore].
    intros t Ht. apply not_background_iff; assumption.
  - rewrite enqueueTask_eq, Hev. simpl. rewrite Hins. reflexivity.
Qed.

(** *** Complexity scoring against the specification's table *)

Definition delta (b : bool) (d : Z) : Z := if b then d else 0.

Definition multi_step_signal (text : string) : bool :=
  existsb (includes (toLowerCase text)) multiStepKeywords || hasNumberedSteps text.

Definition domain_signal (text : string) : bool :=
  existsb (fun family => existsb (includes (toLowerCase text)) (snd family))
          domainKeywords.

Definition approx_tokens (text : string) : Z :=
  ceil_div (Z.of_nat (String.length text)) 4.

(** The table in the words of the specification: the two length signals
    fire when the approximate token count is at least 1000 and at least
    4000. *)
Definition spec_score (text : string) : Z :=
  Z.min (delta (1000 <=? approx_tokens text) 2
         + delta (4000 <=? approx_tokens text) 2
         + delta (multi_step_signal text) 3
         + delta (domain_signal text) 2) 10.

(** The same table with the thresholds of the code and of the README:
    strictly more than 1000 and strictly more than 4000 tokens. *)
Definition strict_score (text : string) : Z :=
  Z.min (delta (1000 <? approx_tokens text) 2
         + delta (4000 <? approx_tokens text) 2
         + delta (multi_step_signal text) 3
         + delta (domain_signal text) 2) 10.

Lemma domainLoop_delta (entries : list (string * list string)) (lower : string) (score : Z) :
  domainLoop entries lower score =
  score + delta (existsb (fun family => existsb (includes lower) (snd family)) entries) 2.
Proof.
  induction entries as [|[name kws] rest IH]; simpl.
  - unfold delta. lia.
  - destruct (existsb (includes lower) kws); simpl.
    + reflexivity.
    + exact IH.
Qed.

Lemma calculateComplexity_score (st : State) (task : Task) :
  fst (calculateComplexity st task) = strict_score (message_text task).
Proof.
  unfold calculateComplexity, strict_score, message_text, multi_step_signal,
    domain_signal, approx_tokens, countTokens.
  cbn [fst]. rewrite domainLoop_delta.
  set (text := match message task with Some m => m | None => "" end).
  destruct (1000 <? _); destruct (4000 <? _);
    destruct (existsb (includes (toLowerCase text)) multiStepKeywords || _);
    unfold delta; f_equal; lia.
Qed.

(** C4, as the code has it.  The score is a function of the message text
    alone (it ignores the router state), it equals the table with the
    length signals firing strictly above 1000 and 4000 approximate
    tokens, and it is an integer between 0 and 10. *)
Theorem calculateComplexity_is_strict_table :
  forall (st st' : State) (task task' : Task),
    fst (calculateComplexity st task) = strict_score (message_text task) /\
    0 <= fst (calculateComplexity st task) <= 10 /\
    (message_text task = message_text task' ->
     fst (calculateComplexity st task) = fst (calculateComplexity st' task')).
Proof.
  intros st st' task task'. rewrite !calculateComplexity_score.
  split; [reflexivity|]. split.
  - unfold strict_score, delta.
    destruct (1000 <? _); destruct (4000 <? _);
      destruct (multi_step_signal _); destruct (domain_signal _); lia.
  - intros ->. reflexivity.
Qed.

Lemma calculateComplexity_is_strict_table_witness :
  message_text (plain_payload 0) = message_text (plain_payload 1) /\
  fst (calculateComplexity initial_state (plain_payload 0)) =
  fst (calculateComplexity running_state (plain_payload 1)).
Proof.
  split; [reflexivity|].
  exact (proj2 (proj2 (calculateComplexity_is_strict_table
                         initial_state running_state
                         (plain_payload 0) (plain_payload 1))) eq_refl).
Defined.

(** A message of exactly 4000 characters has exactly 1000 approximate
    tokens: the specification's table gives it 2, the code gives it 0. *)
Lemma score_at_exactly_1000_tokens :
  let text := repeat_string "x"%char (40 * 100) in
  approx_tokens text = 1000 /\
  spec_score text = 2 /\
  fst (calculateComplexity initial_state
         (mkTask "t" (Some text) 0 None None None false false)) = 0.
Proof.
  vm_compute. repeat split; reflexivity.
Qed.

(** *** Configuration updates *)

(** C10.  [updateConfig] (and the CONFIG message, which only calls it)
    keeps every field of the router configuration that the update does
    not carry, takes the others from the update, touches nothing else in
    the state, and the next scoring and routing read the merged record. *)
Theorem updateConfig_shallow_merge :
  forall (st : State) (u : ConfigUpdate),
    let st' := updateConfig st u in
    (forall w, state w = st -> onmessage w (CONFIG u) = (set_state w st', [])) /\
    (u_mode u = None -> mode (config st') = mode (config st)) /\
    (u_threshold u = None -> threshold (config st') = threshold (config st)) /\
    (u_privacyMode u = None -> privacyMode (config st') = privacyMode (config st)) /\
    (forall v, u_mode u = Some v -> mode (config st') = v) /\
    (forall v, u_threshold u = Some v -> threshold (config st') = v) /\
    (forall v, u_privacyMode u = Some v -> privacyMode (config st') = v) /\
    queue st' = queue st /\ currentTask st' = currentTask st /\
    localModelLoaded st' = localModelLoaded st /\
    cloudAvailable st' = cloudAvailable st /\
    ragBooster st' = ragBooster st /\
    (forall task,
       privacyFlag (snd (calculateComplexity st' task)) =
       existsb (includes (toLowerCase (message_text task))) privacyKeywords
       || spread (privacyMode (config st)) (u_privacyMode u)) /\
    (forall task c,
       makeRoutingDecision st' task c =
       makeRoutingDecision
         (set_config st (mkConfig (spread (mode (config st)) (u_mode u))
                                  (spread (threshold (config st)) (u_threshold u))
                                  (spread (privacyMode (config st)) (u_privacyMode u))))
         task c).
Proof.
  intros st u st'. subst st'. unfold updateConfig.
  repeat split; simpl; try reflexivity.
  - intros w <-. reflexivity.
  - intros H; rewrite H; reflexivity.
  - intros H; rewrite H; reflexivity.
  - intros H; rewrite H; reflexivity.
  - intros v H; rewrite H; reflexivity.
  - intros v H; rewrite H; reflexivity.
  - intros v H; rewrite H; reflexivity.
Qed.

Lemma updateConfig_shallow_merge_witness :
  let u := mkConfigUpdate None (Some 3) None in
  u_mode u = None /\
  mode (config (updateConfig running_state u)) = mode (config running_state).
Proof.
  split; [reflexivity|].
  exact (proj1 (proj2 (updateConfig_shallow_merge running_state
                         (mkConfigUpdate None (Some 3) None))) eq_refl).
Defined.

(** *** Preemption *)

Definition is_urgent (t : Task) : bool := js_eq (priority t) URGENT.

Definition not_preempted (e : Event) : Prop :=
  match e with
  | PREEMPTED _ => False
  | _ => True
  end.

Definition urgent_task (i : nat) : Task :=
  mkTask (digit_id i) (Some "urgent request") (Z.of_nat i) (Some 0)
         (Some URGENT) (Some LOCAL) true false.

Definition two_urgent_state : State :=
  set_queue running_state [urgent_task 1; urgent_task 2].

(** *** Priority order of the queue *)

Definition pz (t : Task) : Z :=
  match priority t with
  | Some p => p
  | None => 0
  end.

Definition valid_priority (t : Task) : Prop :=
  priority t = Some URGENT \/ priority t = Some NORMAL \/ priority t = Some BACKGROUND.

(** [by_priority a b]: [a] may stand before [b] in the queue. *)
Definition by_priority (a b : Task) : Prop := pz b <= pz a.

Definition in_class (p : Z) (t : Task) : bool := js_eq (priority t) p.

Definition ordered (q : list Task) : Prop :=
  StronglySorted by_priority q /\ Forall valid_priority q.

Definition enqueue_all (st : State) (ts : list Task) : State :=
  fold_left (fun s t => fst (enqueueTask s t)) ts st.

Lemma valid_priority_pz (t : Task) :
  valid_priority t -> priority t = Some (pz t) /\ 1 <= pz t <= 3.
Proof.
  unfold valid_priority, pz, URGENT, NORMAL, BACKGROUND.
  intros [H|[H|H]]; rewrite H; split; (reflexivity || lia).
Qed.

Lemma lower_than_pz (task t : Task) :
  valid_priority task -> valid_priority t ->
  lower_than task t = (pz t <? pz task).
Proof.
  intros Ht Hv. unfold lower_than.
  destruct (valid_priority_pz _ Ht) as [-> _].
  destruct (valid_priority_pz _ Hv) as [-> _]. reflexivity.
Qed.

Lemma StronglySorted_app_inv {A : Type} (R : A -> A -> Prop) (l1 l2 : list A) :
  StronglySorted R (l1 ++ l2) ->
  StronglySorted R l1 /\ StronglySorted R l2 /\
  (forall a b, In a l1 -> In b l2 -> R a b).
Proof.
  induction l1 as [|x r IH]; simpl; intros H.
  - repeat split; [constructor|assumption|contradiction].
  - inversion H as [|? ? Hs Hall]; subst.
    destruct (IH Hs) as (H1 & H2 & H3).
    apply Forall_app in Hall. destruct Hall as [Ha1 Ha2].
    repeat split; auto.
    + constructor; assumption.
    + intros a b [<-|Ha] Hb; [|auto].
      rewrite Forall_forall in Ha2. auto.
Qed.

Lemma StronglySorted_app_intro {A : Type} (R : A -> A -> Prop) (l1 l2 : list A) :
  StronglySorted R l1 -> StronglySorted R l2 ->
  (forall a b, In a l1 -> In b l2 -> R a b) ->
  StronglySorted R (l1 ++ l2).
Proof.
  induction l1 as [|x r IH]; simpl; intros H1 H2 H3; [assumption|].
  inversion H1 as [|? ? Hs Hall]; subst.
  constructor.
  - apply IH; auto.
  - apply Forall_app. split; [assumption|].
    apply Forall_forall. intros b Hb. apply H3; auto.
Qed.

(** What the insertion point means in an ordered queue: everything before
    it is at least as urgent as the new task, everything after it is
    strictly less urgent. *)
Lemma insert_point_ordered (task : Task) (l1 l2 : list Task) :
  valid_priority task -> ordered (l1 ++ l2) ->
  Forall (fun t => lower_than task t = false) l1 ->
  match l2 with [] => True | x :: _ => lower_than task x = true end ->
  Forall (fun t => pz task <= pz t) l1 /\ Forall (fun t => pz t < pz task) l2.
Proof.
  intros Ht [Hs Hv] H1 H2.
  apply Forall_app in Hv. destruct Hv as [Hv1 Hv2].
  split.
  - rewrite Forall_forall in *. intros t Hin.
    specialize (H1 t Hin). rewrite lower_than_pz in H1 by auto.
    apply Z.ltb_ge in H1. exact H1.
  - destruct l2 as [|x r]; [constructor|].
    inversion Hv2 as [|? ? Hvx Hvr]; subst.
    rewrite lower_than_pz in H2 by auto. apply Z.ltb_lt in H2.
    destruct (StronglySorted_app_inv _ _ _ Hs) as (_ & Hs2 & _).
    inversion Hs2 as [|? ? _ Hall]; subst.
    constructor; [assumption|].
    eapply Forall_impl; [|exact Hall].
    intros t Hle. unfold by_priority in Hle. cbv beta in Hle. lia.
Qed.

Lemma insert_by_priority_ordered (task : Task) (q : list Task) :
  valid_priority task -> ordered q -> ordered (insert_by_priority task q).
Proof.
  intros Ht Ho.
  destruct (insert_by_priority_split task q) as (l1 & l2 & -> & -> & H1 & H2).
  destruct (insert_point_ordered task l1 l2 Ht Ho H1 H2) as [Hge Hlt].
  destruct Ho as [Hs Hv].
  destruct (StronglySorted_app_inv _ _ _ Hs) as (Hs1 & Hs2 & Hcross).
  apply Forall_app in Hv. destruct Hv as [Hv1 Hv2].
  split.
  - apply StronglySorted_app_intro; auto.
    + constructor; [assumption|].
      eapply Forall_impl; [|exact Hlt]. intros t Hl. unfold by_priority. cbv beta in Hl. lia.
    + intros a b Ha [<-|Hb]; [|auto].
      rewrite Forall_forall in Hge. apply Hge; assumption.
  - apply Forall_app. split; [assumption|]. constructor; assumption.
Qed.

Lemma filter_class_below (p : Z) (l : list Task) :
  Forall valid_priority l -> Forall (fun t => pz t < p) l ->
  filter (in_class p) l = [].
Proof.
  induction l as [|x r IH]; intros Hv Hlt; [reflexivity|].
  inversion Hv; subst. inversion Hlt; subst. simpl.
  unfold in_class at 1, js_eq.
  destruct (valid_priority_pz x) as [Hx _]; [assumption|]. rewrite Hx.
  destruct (pz x =? p) eqn:Ex; [apply Z.eqb_eq in Ex; lia|].
  apply IH; assumption.
Qed.

Lemma insert_by_priority_class (task : Task) (q : list Task) (p : Z) :
  valid_priority task -> ordered q ->
  filter (in_class p) (insert_by_priority task q) =
  filter (in_class p) q ++ filter (in_class p) [task].
Proof.
  intros Ht Ho.
  destruct (insert_by_priority_split task q) as (l1 & l2 & -> & -> & H1 & H2).
  destruct (insert_point_ordered task l1 l2 Ht Ho H1 H2) as [_ Hlt].
  destruct Ho as [_ Hv]. apply Forall_app in Hv. destruct Hv as [_ Hv2].
  rewrite !filter_app. simpl.
  destruct (in_class p task) eqn:E; [|rewrite app_nil_r; reflexivity].
  assert (Hnil : filter (in_class p) l2 = []).
  { apply filter_class_below; [assumption|].
    unfold in_class, js_eq in E.
    destruct (valid_priority_pz _ Ht) as [Hp _]. rewrite Hp in E.
    apply Z.eqb_eq in E. rewrite <- E. exact Hlt. }
  rewrite Hnil, app_nil_r. reflexivity.
Qed.

Lemma evict_ordered (q : list Task) : ordered q -> ordered (fst (evict q)).
Proof.
  intros Ho. unfold evict.
  destruct (MAX_QUEUE_DEPTH <=? List.length q)%nat; [|assumption].
  destruct (findIndex is_background q) as [i|] eqn:E; [|assumption].
  destruct (findIndex_Some _ _ _ E) as (l1 & x & l2 & -> & <- & _ & _).
  rewrite nth_error_middle, splice_remove_app. simpl.
  destruct Ho as [Hs Hv].
  destruct (StronglySorted_app_inv _ _ _ Hs) as (Hs1 & Hs2 & Hcross).
  apply Forall_app in Hv. destruct Hv as [Hv1 Hv2].
  inversion Hs2; subst. inversion Hv2; subst.
  split.
  - apply StronglySorted_app_intro; auto.
    intros a b Ha Hb. apply Hcross; simpl; auto.
  - apply Forall_app; auto.
Qed.

Lemma enqueueTask_ordered (st : State) (task : Task) :
  valid_priority task -> ordered (queue st) ->
  ordered (queue (fst (enqueueTask st task))).
Proof.
  intros Ht Ho. rewrite enqueueTask_eq. simpl.
  apply insert_by_priority_ordered; [assumption|].
  apply evict_ordered; assumption.
Qed.

Lemma enqueue_all_ordered (ts : list Task) :
  forall st, Forall valid_priority ts -> ordered (queue st) ->
             ordered (queue (enqueue_all st ts)).
Proof.
  induction ts as [|t r IH]; intros st Hv Ho; simpl; [assumption|].
  inversion Hv; subst.
  apply IH; [assumption|]. apply enqueueTask_ordered; assumption.
Qed.

Lemma enqueue_all_classes (ts : list Task) :
  forall st,
    Forall valid_priority ts -> ordered (queue st) ->
    (List.length (queue st) + List.length ts <= MAX_QUEUE_DEPTH)%nat ->
    forall p,
      filter (in_class p) (queue (enqueue_all st ts)) =
      filter (in_class p) (queue st) ++ filter (in_class p) ts.
Proof.
  induction ts as [|t r IH]; intros st Hv Ho Hlen p; simpl.
  - rewrite app_nil_r. reflexivity.
  - inversion Hv; subst. simpl in Hlen.
    assert (Hq : queue (fst (enqueueTask st t)) = insert_by_priority t (queue st)).
    { rewrite enqueueTask_eq. simpl. rewrite evict_below by lia. reflexivity. }
    rewrite IH; try assumption.
    + rewrite Hq, insert_by_priority_class by assumption.
      rewrite <- app_assoc. f_equal. simpl.
      destruct (in_class p t); reflexivity.
    + apply enqueueTask_ordered; assumption.
    + rewrite Hq, insert_by_priority_length. lia.
Qed.

Lemma skipn_app_within {A : Type} (j : nat) (xs ys : list A) :
  (j <= List.length xs)%nat -> skipn j xs ++ ys = skipn j (xs ++ ys).
Proof.
  intros H. rewrite skipn_app.
  replace (j - List.length xs)%nat with 0%nat by lia. reflexivity.
Qed.

(** What the eviction does to one priority class: nothing, or (for the
    BACKGROUND class only) it takes the oldest member away. *)
Lemma evict_class (q : list Task) (p : Z) :
  exists j, (j <= List.length (filter (in_class p) q))%nat /\
            filter (in_class p) (fst (evict q)) = skipn j (filter (in_class p) q).
Proof.
  unfold evict.
  destruct (MAX_QUEUE_DEPTH <=? List.length q)%nat;
    [|exists 0%nat; split; [lia|reflexivity]].
  destruct (findIndex is_background q) as [i|] eqn:E;
    [|exists 0%nat; split; [lia|reflexivity]].
  destruct (findIndex_Some _ _ _ E) as (l1 & x & l2 & -> & <- & Hx & Hall).
  rewrite nth_error_middle, splice_remove_app. cbn [fst].
  rewrite !filter_app. cbn [filter].
  destruct (in_class p x) eqn:Ec.
  - assert (Hp : p = BACKGROUND).
    { unfold in_class, is_background, js_eq in *.
      destruct (priority x); [|discriminate].
      apply Z.eqb_eq in Ec. apply Z.eqb_eq in Hx. congruence. }
    assert (Hnil : filter (in_class p) l1 = []).
    { subst p. clear -Hall. induction Hall as [|y r Hy Hr IH]; [reflexivity|].
      simpl. unfold in_class at 1. fold (is_background y). rewrite Hy. exact IH. }
    rewrite Hnil. exists 1%nat. split; [simpl; lia|reflexivity].
  - exists 0%nat. split; [lia|reflexivity].
Qed.

Lemma enqueue_all_classes_any (ts : list Task) :
  forall st,
    Forall valid_priority ts -> ordered (queue st) ->
    forall p,
      exists k,
        (k <= List.length (filter (in_class p) (queue st) ++ filter (in_class p) ts))%nat /\
        filter (in_class p) (queue (enqueue_all st ts)) =
        skipn k (filter (in_class p) (queue st) ++ filter (in_class p) ts).
Proof.
  induction ts as [|t r IH]; intros st Hv Ho p.
  - exists 0%nat. split; [lia|]. simpl. rewrite app_nil_r. reflexivity.
  - inversion Hv as [|? ? Ht Hr]; subst. cbn [enqueue_all fold_left].
    fold (enqueue_all (fst (enqueueTask st t)) r).
    destruct (IH (fst (enqueueTask st t)) Hr (enqueueTask_ordered _ _ Ht Ho) p)
      as (k & Hk & Hrest).
    destruct (evict_class (queue st) p) as (j & Hj & Hev).
    assert (Hq : filter (in_class p) (queue (fst (enqueueTask st t))) =
                 skipn j (filter (in_class p) (queue st) ++ filter (in_class p) [t])).
    { rewrite enqueueTask_eq. cbn [fst queue set_queue].
      rewrite insert_by_priority_class by (try assumption; apply evict_ordered; assumption).
      rewrite Hev. apply skipn_app_within. assumption. }
    rewrite Hrest, Hq in *.
    assert (Hj' : (j <= List.length (filter (in_class p) (queue st)
                                     ++ filter (in_class p) [t]))%nat).
    { rewrite length_app. lia. }
    rewrite skipn_app_within in * by assumption.
    rewrite skipn_skipn, <- app_assoc in *.
    replace (filter (in_class p) [t] ++ filter (in_class p) r)
      with (filter (in_class p) (t :: r)) in *
      by (simpl; destruct (in_class p t); reflexivity).
    exists (k + j)%nat. split; [|reflexivity].
    rewrite length_skipn in Hk. rewrite length_app in *. lia.
Qed.

Lemma dequeueTask_head (st : State) :
  ordered (queue st) -> fst (fst (dequeueTask st)) = hd_error (queue st).
Proof.
  intros [Hs Hv]. unfold dequeueTask.
  destruct (currentTask st) as [cur|]; [|reflexivity].
  destruct (js_lt (priority cur) (Some URGENT)); [|reflexivity].
  destruct (queue st) as [|h r] eqn:Eq; [reflexivity|].
  simpl find.
  destruct (js_eq (priority h) URGENT) eqn:Eh; [reflexivity|].
  destruct (find _ r) as [u|] eqn:Ef; [|reflexivity].
  exfalso. apply find_some in Ef. destruct Ef as [Hin Hu].
  inversion Hs as [|? ? _ Hall]; subst. inversion Hv as [|? ? Hvh Hvr]; subst.
  rewrite Forall_forall in Hall, Hvr.
  specialize (Hall u Hin). specialize (Hvr u Hin). unfold by_priority in Hall.
  destruct (valid_priority_pz _ Hvh) as [Hph Hrh].
  destruct (valid_priority_pz _ Hvr) as [Hpu _].
  unfold js_eq in Eh, Hu. rewrite Hph in Eh. rewrite Hpu in Hu.
  apply Z.eqb_eq in Hu. apply Z.eqb_neq in Eh. unfold URGENT in *. lia.
Qed.

(** What [enqueueTask] does to a queue when it is called with tasks that
    carry one of the three priorities: starting from an empty queue the
    queue stays in descending priority order, each priority class holds
    its arrivals in their order (without those an overflow evicted), and
    [dequeueTask] returns the head. *)
Lemma enqueue_all_keeps_priority_order :
  forall (st : State) (ts : list Task),
    queue st = [] ->
    Forall valid_priority ts ->
    let st' := enqueue_all st ts in
    StronglySorted by_priority (queue st') /\
    (forall p, exists k,
        filter (in_class p) (queue st') = skipn k (filter (in_class p) ts)) /\
    ((List.length ts <= MAX_QUEUE_DEPTH)%nat ->
     forall p, filter (in_class p) (queue st') = filter (in_class p) ts) /\
    fst (fst (dequeueTask st')) = hd_error (queue st') /\
    (forall h, hd_error (queue st') = Some h ->
               Forall (fun t => pz t <= pz h) (queue st') /\
               hd_error (filter (in_class (pz h)) (queue st')) = Some h).
Proof.
  intros st ts Hempty Hv st'.
  assert (Ho0 : ordered (queue st)).
  { rewrite Hempty. split; constructor. }
  assert (Ho : ordered (queue st')) by (apply enqueue_all_ordered; assumption).
  split; [exact (proj1 Ho)|]. split; [|split; [|split]].
  - intros p. subst st'.
    destruct (enqueue_all_classes_any ts st Hv Ho0 p) as (k & _ & Hk).
    rewrite Hempty in Hk. exists k. exact Hk.
  - intros Hlen p. subst st'. rewrite enqueue_all_classes; try assumption.
    + rewrite Hempty. reflexivity.
    + rewrite Hempty. simpl. exact Hlen.
  - apply dequeueTask_head; exact Ho.
  - intros h Hh. destruct (queue st') as [|x r]; [discriminate|].
    inversion Hh; subst. destruct Ho as [Hs Hvq].
    inversion Hs; subst. inversion Hvq; subst. split.
    + constructor; [lia|assumption].
    + simpl. unfold in_class at 1, js_eq.
      destruct (valid_priority_pz h) as [-> _]; [assumption|].
      rewrite Z.eqb_refl. reflexivity.
Qed.

(** *** Every run of the worker *)

Definition execute_message (r : Route) (taskId : string) : Event :=
  match r with
  | LOCAL => EXECUTE_LOCAL taskId
  | CLOUD => EXECUTE_CLOUD taskId
  end.

(** The messages the worker posts only when it uses its queue. *)
Definition queue_event (e : Event) : bool :=
  match e with
  | DROPPED _ _ => true
  | QUEUED _ _ => true
  | PREEMPTED _ => true
  | CANCELLED _ => true
  | _ => false
  end.

(** The queue is empty, and the slot of the current task is occupied
    only while the [finally] block that frees it waits in the microtask
    queue. *)
Definition unqueued (w : Worker) : Prop :=
  queue (state w) = [] /\
  (currentTask (state w) <> None -> In Finally (microtasks w)).

Lemma score_and_route_facts (st : State) (task : Task) :
  let call := score_and_route st task in
  let t' := s_task call in
  id t' = id task /\ message t' = message task /\ receivedAt t' = receivedAt task /\
  complexity t' = Some (s_complexity call) /\
  priority t' = Some (s_priority call) /\
  route t' = Some (s_route call) /\
  s_complexity call = fst (calculateComplexity st task) /\
  s_priority call = determinePriority t' (s_complexity call) /\
  s_route call = makeRoutingDecision st t' (s_complexity call).
Proof.
  unfold score_and_route.
  destruct (calculateComplexity st task) as [c t1] eqn:E.
  assert (Ht1 : t1 = snd (calculateComplexity st task)) by (rewrite E; reflexivity).
  cbn [s_task s_route s_complexity s_priority id message receivedAt complexity
       priority route realtime privacyFlag fst].
  rewrite Ht1. unfold calculateComplexity.
  cbn [snd id message receivedAt realtime privacyFlag].
  repeat split; reflexivity.
Qed.

Lemma dispatch_eq (w : Worker) (call : Suspended) :
  route (s_task call) = Some (s_route call) ->
  dispatch w call =
  (mkWorker (set_currentTask (state w) (Some (s_task call))) (suspended w)
            (microtasks w ++ [Finally]),
   [ROUTED (id (s_task call)) (s_route call) (s_complexity call) (s_priority call)
           (realtime (s_task call)) (privacyFlag (s_task call));
    execute_message (s_route call) (id (s_task call))]).
Proof.
  intros Hr. unfold dispatch, executeTask. rewrite Hr.
  destruct (s_route call); reflexivity.
Qed.

(** What the handler of a TASK message does when no task is current. *)
Lemma processTask_eq (w : Worker) (task : Task) :
  let call := score_and_route (state w) task in
  processTask w task =
  match ragBooster (state w) with
  | Some Returning =>
      (mkWorker (state w) (suspended w ++ [call]) (microtasks w), [])
  | _ =>
      (mkWorker (set_currentTask (state w) (Some (s_task call))) (suspended w)
                (microtasks w ++ [Finally]),
       [ROUTED (id task) (s_route call) (s_complexity call) (s_priority call)
               (realtime (s_task call)) (privacyFlag (s_task call));
        execute_message (s_route call) (id task)])
  end.
Proof.
  intros call. unfold processTask. fold call.
  destruct (score_and_route_facts (state w) task) as (Hid & _ & _ & _ & _ & Hr & _).
  fold call in Hid, Hr.
  destruct (ragBooster (state w)) as [[|]|];
    try reflexivity; rewrite dispatch_eq by exact Hr; rewrite Hid; reflexivity.
Qed.

Lemma finally_block_empty (w : Worker) :
  queue (state w) = [] ->
  finally_block w = (set_state w (set_currentTask (state w) None), []).
Proof.
  intros Hq. unfold finally_block, processNextTask, dequeueTask.
  cbn [state set_state currentTask set_currentTask queue].
  rewrite Hq. cbn [hd_error tl]. unfold set_state, set_queue, set_currentTask.
  cbn [state suspended microtasks queue currentTask config localModelLoaded
       cloudAvailable ragBooster].
  rewrite Hq. reflexivity.
Qed.

Lemma unqueued_idle (w : Worker) :
  unqueued w -> microtasks w = [] -> currentTask (state w) = None.
Proof.
  intros [_ Hc] Hm. destruct (currentTask (state w)) as [t|]; [|reflexivity].
  exfalso. rewrite Hm in Hc. apply Hc. discriminate.
Qed.

Lemma processTask_unqueued (w : Worker) (task : Task) :
  queue (state w) = [] -> currentTask (state w) = None ->
  unqueued (fst (processTask w task)) /\
  Forall (fun e => queue_event e = false) (snd (processTask w task)) /\
  suspended w = firstn (List.length (suspended w)) (suspended (fst (processTask w task))).
Proof.
  intros Hq Hc. rewrite processTask_eq. unfold unqueued.
  destruct (ragBooster (state w)) as [[|]|]; cbn [fst snd state microtasks suspended
    queue currentTask set_currentTask];
    (split; [split; [exact Hq|]|split]);
    try (intros _; apply in_or_app; right; left; reflexivity);
    try (rewrite Hc; congruence);
    try (repeat constructor; destruct (s_route _); reflexivity);
    try (rewrite firstn_all; reflexivity).
  rewrite firstn_app, firstn_all, Nat.sub_diag. cbn [firstn]. rewrite app_nil_r. reflexivity.
Qed.

Lemma onmessage_unqueued (w : Worker) (m : Message) :
  unqueued w -> microtasks w = [] ->
  unqueued (fst (onmessage w m)) /\
  Forall (fun e => queue_event e = false) (snd (onmessage w m)) /\
  (microtasks (fst (onmessage w m)) = [] \/ microtasks (fst (onmessage w m)) = [Finally]).
Proof.
  intros Hu Hm. pose proof (unqueued_idle w Hu Hm) as Hc. destruct Hu as [Hq _].
  assert (Hsame : forall st', queue st' = [] -> currentTask st' = None ->
                    unqueued (set_state w st') /\
                    (microtasks (set_state w st') = []
                     \/ microtasks (set_state w st') = [Finally])).
  { intros st' Hq' Hc'. unfold unqueued. cbn [set_state state microtasks].
    rewrite Hq', Hc'. split; [split; [reflexivity|congruence]|left; exact Hm]. }
  assert (Hw : unqueued w /\ (microtasks w = [] \/ microtasks w = [Finally])).
  { unfold unqueued. rewrite Hq, Hc. split; [split; [reflexivity|congruence]|left; exact Hm]. }
  destruct m; cbn [onmessage]; rewrite ?Hc, ?Hq; cbn [findIndex fst snd].
  - destruct (processTask_unqueued w (with_receivedAt payload now) Hq Hc) as (H1 & H2 & _).
    split; [exact H1|]. split; [exact H2|].
    rewrite processTask_eq.
    destruct (ragBooster (state w)) as [[|]|]; cbn [fst microtasks]; rewrite Hm; auto.
  - destruct (Hsame (updateConfig (state w) payload) Hq Hc) as [H1 H2].
    split; [exact H1|]. split; [constructor|exact H2].
  - destruct (Hsame (updateModelStatus (state w) l c) Hq Hc) as [H1 H2].
    split; [exact H1|]. split; [constructor|exact H2].
  - destruct (Hsame (initRAG (state w) payload) Hq Hc) as [H1 H2].
    split; [exact H1|]. split; [constructor|exact H2].
  - destruct Hw as [H1 H2]. split; [exact H1|]. split; [repeat constructor|exact H2].
  - destruct Hw as [H1 H2]. split; [exact H1|]. split; [repeat constructor|exact H2].
  - destruct Hw as [H1 H2]. split; [exact H1|]. split; [repeat constructor|exact H2].
  - destruct Hw as [H1 H2]. split; [exact H1|]. split; [repeat constructor|exact H2].
  - destruct Hw as [H1 H2]. split; [exact H1|]. split; [constructor|exact H2].
  - destruct (Hsame (set_queue (state w) []) eq_refl Hc) as [H1 H2].
    split; [exact H1|]. split; [repeat constructor|exact H2].
  - destruct Hw as [H1 H2]. split; [exact H1|]. split; [constructor|exact H2].
Qed.

Lemma step_unqueued (w w' : Worker) (i : Input) (ev : list Event) :
  unqueued w -> step w i = Some (w', ev) ->
  unqueued w' /\ Forall (fun e => queue_event e = false) ev.
Proof.
  intros Hu Hs. destruct i as [m|k|]; cbn [step] in Hs.
  - destruct (microtasks w) eqn:Hm; [|discriminate].
    injection Hs as Hs.
    destruct (onmessage_unqueued w m Hu Hm) as (H1 & H2 & _).
    rewrite Hs in H1, H2. auto.
  - destruct (nth_error (suspended w) k) as [call|]; [|discriminate].
    injection Hs as <- <-. split; [|constructor].
    destruct Hu as [Hq Hc]. split; [exact Hq|].
    cbn [state microtasks]. intros H. apply in_or_app. left. apply Hc. exact H.
  - destruct (microtasks w) as [|m rest] eqn:Hm.
    + injection Hs as <- <-. split; [exact Hu|constructor].
    + destruct Hu as [Hq Hc]. destruct m as [call|]; cbn [run_microtask] in Hs.
      * unfold dispatch, executeTask in Hs. cbn [state suspended microtasks] in Hs.
        injection Hs as <- <-. split.
        -- split; [exact Hq|]. intros _. cbn [microtasks].
           apply in_or_app. right. left. reflexivity.
        -- destruct (route (s_task call)) as [[|]|]; repeat constructor.
      * rewrite finally_block_empty in Hs by exact Hq.
        injection Hs as <- <-. split; [|constructor].
        split; [exact Hq|]. cbn [state set_state currentTask set_currentTask]. congruence.
Qed.

Lemma run_unqueued (inputs : list Input) :
  forall w w' posted,
    unqueued w -> run w inputs = Some (w', posted) ->
    unqueued w' /\ Forall (fun e => queue_event e = false) posted.
Proof.
  induction inputs as [|i rest IH]; intros w w' posted Hu Hr; cbn [run] in Hr.
  - injection Hr as <- <-. split; [exact Hu|constructor].
  - destruct (step w i) as [[w1 ev1]|] eqn:Hs; [|discriminate].
    destruct (run w1 rest) as [[w2 ev2]|] eqn:Hr'; [|discriminate].
    injection Hr as <- <-.
    destruct (step_unqueued _ _ _ _ Hu Hs) as [Hu1 He1].
    destruct (IH _ _ _ Hu1 Hr') as [Hu2 He2].
    split; [exact Hu2|]. apply Forall_app. split; assumption.
Qed.

Lemma initial_worker_unqueued : unqueued initial_worker.
Proof. split; [reflexivity|]. intros H. exfalso. apply H. reflexivity. Qed.

Lemma run_app (a b : list Input) :
  forall w, run w (a ++ b) =
            match run w a with
            | Some (w1, ev1) =>
                match run w1 b with
                | Some (w2, ev2) => Some (w2, ev1 ++ ev2)
                | None => None
                end
            | None => None
            end.
Proof.
  induction a as [|i r IH]; intros w; cbn [app run].
  - destruct (run w b) as [[w2 ev2]|]; reflexivity.
  - destruct (step w i) as [[w1 ev1]|]; [|reflexivity].
    rewrite IH. destruct (run w1 r) as [[w2 ev2]|]; [|reflexivity].
    destruct (run w2 b) as [[w3 ev3]|]; [|reflexivity].
    rewrite app_assoc. reflexivity.
Qed.

(** A message can always be handled on its own turn. *)
Lemma turn_runs (w : Worker) (m : Message) :
  unqueued w -> microtasks w = [] ->
  exists w' posted,
    run w [Receive m; Tick] = Some (w', posted) /\ unqueued w' /\ microtasks w' = [].
Proof.
  intros Hu Hm. cbn [run step]. rewrite Hm.
  destruct (onmessage w m) as [w1 ev1] eqn:E.
  destruct (onmessage_unqueued w m Hu Hm) as (Hu1 & _ & Hm1).
  rewrite E in Hu1, Hm1. cbn [fst] in Hu1, Hm1.
  destruct Hm1 as [Hm1|Hm1]; rewrite Hm1.
  - exists w1, (ev1 ++ [] ++ []). auto.
  - cbn [run_microtask].
    rewrite finally_block_empty by (cbn [state]; exact (proj1 Hu1)).
    eexists _, _. split; [reflexivity|].
    cbn [set_state state suspended microtasks].
    split; [|reflexivity]. split; [exact (proj1 Hu1)|].
    simpl. congruence.
Qed.

Lemma turns_run (messages : list Message) :
  forall w, unqueued w -> microtasks w = [] ->
    exists w' posted,
      run w (turns messages) = Some (w', posted) /\ unqueued w' /\ microtasks w' = [].
Proof.
  induction messages as [|m r IH]; intros w Hu Hm.
  - exists w, []. auto.
  - change (turns (m :: r)) with ([Receive m; Tick] ++ turns r). rewrite run_app.
    destruct (turn_runs w m Hu Hm) as (w1 & ev1 & Hr1 & Hu1 & Hm1). rewrite Hr1.
    destruct (IH w1 Hu1 Hm1) as (w2 & ev2 & Hr2 & Hu2 & Hm2). rewrite Hr2.
    eexists _, _. split; [reflexivity|]. auto.
Qed.

(** *** Backpressure, the queue bound, preemption and the order of the
    queue in the running worker *)

(** One task is handed to the executor and never reported complete;
    then fifty BACKGROUND tasks are submitted, then a NORMAL one. *)
Definition coding_payload (i : nat) : Task :=
  mkTask (digit_id i) (Some "first write the code") 0 None None None false false.

Definition overflow_scenario : list Input :=
  Receive (MODEL_STATUS (Some true) (Some true))
  :: turns (TASK (coding_payload 0) 0
            :: map (fun i => TASK (plain_payload i) (Z.of_nat i)) (seq 1 50)
            ++ [TASK (coding_payload 51) 51]).

(** What the worker posts for a task it hands to the local executor. *)
Definition handed_to_local (taskId : string) (c p : Z) : list Event :=
  [ROUTED taskId LOCAL c p false false; EXECUTE_LOCAL taskId].

(** C2 is not what the worker does: its backpressure code never runs.
    In every run of the worker the queue is empty whenever a message is
    handled: the [finally] block of [processTask] frees the slot of the
    current task before the next message is taken, so the TASK handler
    never takes its enqueue branch.
    The queue never fills, the worker never posts DROPPED or QUEUED, and
    every submission is handed to an executor in the handler that
    receives it (or waits for the memory engine).  With one task at the
    executor, fifty BACKGROUND submissions and then a NORMAL one, the
    worker posts ROUTED and EXECUTE_LOCAL for each of the fifty-two tasks
    and nothing else; the queue is empty at the end. *)
Theorem no_submission_meets_a_full_queue :
  (forall (inputs : list Input) (w : Worker) (posted : list Event),
     run initial_worker inputs = Some (w, posted) ->
     (List.length (queue (state w)) < MAX_QUEUE_DEPTH)%nat /\
     Forall (fun e => queue_event e = false) posted /\
     (forall payload now,
        microtasks w = [] ->
        exists w' ev call,
          step w (Receive (TASK payload now)) = Some (w', ev) /\
          queue (state w') = [] /\
          Forall (fun e => queue_event e = false) ev /\
          id (s_task call) = id payload /\
          ((ev = [ROUTED (id payload) (s_route call) (s_complexity call)
                         (s_priority call)
                         (realtime (s_task call)) (privacyFlag (s_task call));
                  execute_message (s_route call) (id payload)] /\
            currentTask (state w') = Some (s_task call)) \/
           (ev = [] /\ ragBooster (state w) = Some Returning /\
            suspended w' = suspended w ++ [call])))) /\
  (exists w,
     run initial_worker overflow_scenario
     = Some (w, handed_to_local (digit_id 0) 5 NORMAL
                ++ flat_map (fun i => handed_to_local (digit_id i) 0 BACKGROUND) (seq 1 50)
                ++ handed_to_local (digit_id 51) 5 NORMAL) /\
     queue (state w) = [] /\ currentTask (state w) = None /\ microtasks w = []).
Proof.
  split.
  - intros inputs w posted Hrun.
    destruct (run_unqueued inputs _ _ _ initial_worker_unqueued Hrun) as [Hu Hev].
    split; [rewrite (proj1 Hu); unfold MAX_QUEUE_DEPTH; simpl; lia|].
    split; [exact Hev|].
    intros payload now Hm. cbn [step]. rewrite Hm. cbn [onmessage].
    rewrite (unqueued_idle w Hu Hm).
    destruct (processTask_unqueued w (with_receivedAt payload now) (proj1 Hu)
                (unqueued_idle w Hu Hm)) as (Hu' & Hev' & _).
    destruct (score_and_route_facts (state w) (with_receivedAt payload now))
      as (Hid & _).
    exists (fst (processTask w (with_receivedAt payload now))),
           (snd (processTask w (with_receivedAt payload now))),
           (score_and_route (state w) (with_receivedAt payload now)).
    split; [destruct (processTask w (with_receivedAt payload now)); reflexivity|].
    split; [exact (proj1 Hu')|]. split; [exact Hev'|]. split; [exact Hid|].
    rewrite processTask_eq.
    destruct (ragBooster (state w)) as [[|]|]; cbn [fst snd state suspended currentTask
      set_currentTask with_receivedAt id]; auto.
  - eexists. split; [vm_compute; reflexivity|].
    repeat split; vm_compute; reflexivity.
Qed.

(** C3.  After every run of the worker, whatever messages (TASK, CANCEL,
    CLEAR_QUEUE and the others) it was sent and however the memory engine
    answered, the queue holds at most [MAX_QUEUE_DEPTH] tasks; it is in
    fact empty.  And every sequence of messages can be run, each message
    on a turn of its own. *)
Theorem queue_stays_within_MAX_QUEUE_DEPTH :
  (forall (inputs : list Input) (w : Worker) (posted : list Event),
     run initial_worker inputs = Some (w, posted) ->
     (List.length (queue (state w)) <= MAX_QUEUE_DEPTH)%nat /\
     queue (state w) = []) /\
  (forall messages : list Message,
     exists w posted,
       run initial_worker (turns messages) = Some (w, posted) /\
       (List.length (queue (state w)) <= MAX_QUEUE_DEPTH)%nat).
Proof.
  assert (H : forall inputs w posted,
             run initial_worker inputs = Some (w, posted) ->
             (List.length (queue (state w)) <= MAX_QUEUE_DEPTH)%nat /\
             queue (state w) = []).
  { intros inputs w posted Hrun.
    destruct (run_unqueued inputs _ _ _ initial_worker_unqueued Hrun) as [[Hq _] _].
    rewrite Hq. split; [simpl; lia|reflexivity]. }
  split; [exact H|].
  intros messages.
  destruct (turns_run messages initial_worker initial_worker_unqueued eq_refl)
    as (w & posted & Hrun & _).
  exists w, posted. split; [exact Hrun|]. exact (proj1 (H _ _ _ Hrun)).
Qed.

Lemma queue_stays_within_MAX_QUEUE_DEPTH_witness :
  exists w posted,
    run initial_worker
        (turns (map (fun i => TASK (plain_payload i) (Z.of_nat i)) (seq 0 60)
                ++ [CANCEL (digit_id 3); CLEAR_QUEUE]))
    = Some (w, posted) /\
    (List.length (queue (state w)) <= MAX_QUEUE_DEPTH)%nat.
Proof.
  exact (proj2 queue_stays_within_MAX_QUEUE_DEPTH
           (map (fun i => TASK (plain_payload i) (Z.of_nat i)) (seq 0 60)
            ++ [CANCEL (digit_id 3); CLEAR_QUEUE])).
Defined.

(** *** Preemption *)

Definition normal_payload : Task :=
  mkTask "a" (Some "first write the code") 0 None None None false false.

Definition urgent_payload : Task :=
  mkTask "b" (Some "urgent: stop it now") 0 None None None false false.

(** A NORMAL task is submitted and handed to the local executor; before
    any COMPLETE_TASK for it, an URGENT task is submitted. *)
Definition urgent_after_normal : list Input :=
  [Receive (MODEL_STATUS (Some true) (Some true));
   Receive (TASK normal_payload 1); Tick;
   Receive (TASK urgent_payload 2); Tick].

(** C5 is not what the worker does: its preemption code never runs.
    No run of the worker ever posts PREEMPTED or finds a current task
    when a message arrives.  With a NORMAL task at
    the executor, the submission of an URGENT task only adds ROUTED and
    EXECUTE_LOCAL for the URGENT task: the NORMAL task is not preempted
    and not queued again. *)
Theorem urgent_submission_preempts_nothing :
  (forall (inputs : list Input) (w : Worker) (posted : list Event),
     run initial_worker inputs = Some (w, posted) ->
     Forall not_preempted posted /\
     queue (state w) = [] /\
     (microtasks w = [] -> currentTask (state w) = None)) /\
  (exists w,
     run initial_worker (firstn 3 urgent_after_normal)
     = Some (w, [ROUTED "a" LOCAL 5 NORMAL false false; EXECUTE_LOCAL "a"]) /\
     currentTask (state w) = None /\ queue (state w) = [] /\ microtasks w = [] /\
     run w (skipn 3 urgent_after_normal)
     = Some (w, [ROUTED "b" LOCAL 0 URGENT true false; EXECUTE_LOCAL "b"])).
Proof.
  split.
  - intros inputs w posted Hrun.
    destruct (run_unqueued inputs _ _ _ initial_worker_unqueued Hrun) as [Hu Hev].
    split; [|split; [exact (proj1 Hu)|apply unqueued_idle; exact Hu]].
    eapply Forall_impl; [|exact Hev].
    intros e He. destruct e; try exact I. discriminate.
  - eexists. split; [vm_compute; reflexivity|].
    repeat split; vm_compute; reflexivity.
Qed.

(** *** The order of the queue *)




End Router.

(* ------------------------------------------------------------------ *)
(** ** Splitting text ([String.prototype.split] with a regular expression) *)

Module JsText.
Import Js.

Definition string_of_rev (piece : list ascii) : string :=
  string_of_list_ascii (rev piece).

(** [s.split(/\s+/)]: the pieces between the maximal runs of white space;
    a run at either end of [s] leaves an empty piece there, and the empty
    string splits into one empty piece.  [piece] is the current piece,
    last character first; [in_sep] says that the scan is inside a run. *)
Fixpoint split_ws_go (s : string) (piece : list ascii) (in_sep : bool) : list string :=
  match s with
  | EmptyString => [string_of_rev piece]
  | String c r =>
      if is_space c then
        if in_sep then split_ws_go r piece true
        else string_of_rev piece :: split_ws_go r [] true
      else split_ws_go r (c :: piece) false
  end.

Definition split_ws (s : string) : list string := split_ws_go s [] false.

Definition is_sentence_end (c : ascii) : bool :=
  ((code c =? 46) || (code c =? 33) || (code c =? 63))%N.

(** [text.split(/(?<=[.!?])\s+/)]: a separator is a maximal run of white
    space that starts right after one of the three marks. *)
Fixpoint split_sentences_go (s : string) (piece : list ascii)
  (after_mark in_sep : bool) : list string :=
  match s with
  | EmptyString => [string_of_rev piece]
  | String c r =>
      if in_sep && is_space c then split_sentences_go r piece false true
      else if after_mark && is_space c then
        string_of_rev piece :: split_sentences_go r [] false true
      else split_sentences_go r (c :: piece) (is_sentence_end c) false
  end.

Definition split_sentences (s : string) : list string :=
  split_sentences_go s [] false false.

(** [arr.join(sep)] *)
Definition join (sep : string) (l : list string) : string := String.concat sep l.

End JsText.

(* ------------------------------------------------------------------ *)
(** ** Gravitational bits ([src/memory/gravitational-bit.js]) *)

Module Orbital.

(** [class OrbitalState].  [energy] is a double in the source and an exact
    rational here; [phase], a random number that nothing reads back, is
    left out. *)
Record OrbitalState : Type := mkOrbitalState {
  n : Z;
  l : Z;
  m : Z;
  occupied : bool;
  energy : QArith_base.Q
}.

End Orbital.

Module Gravity.
Import Js JsText.
Local Open Scope string_scope.
Local Open Scope list_scope.
Local Open Scope Z_scope.

Abbreviation OrbitalState := Orbital.OrbitalState.

Definition set_occupied (o : bool) (s : OrbitalState) : OrbitalState :=
  Orbital.mkOrbitalState (Orbital.n s) (Orbital.l s) (Orbital.m s) o (Orbital.energy s).

(** [-1.0 / (n * n) + 0.1 * l] *)
Definition level_energy (n l : Z) : QArith_base.Q :=
  QArith_base.Qplus
    (QArith_base.Qdiv (QArith_base.inject_Z (-1)) (QArith_base.inject_Z (n * n)))
    (QArith_base.Qmult (QArith_base.Qmake 1 10) (QArith_base.inject_Z l)).

(** The three nested loops of [generateStates], before the sort. *)
Definition generated (nMax : nat) : list OrbitalState :=
  flat_map (fun n =>
    flat_map (fun l =>
      map (fun k =>
             Orbital.mkOrbitalState (Z.of_nat n) (Z.of_nat l)
               (Z.of_nat k - Z.of_nat l) false
               (level_energy (Z.of_nat n) (Z.of_nat l)))
          (seq 0 (2 * l + 1)))
      (seq 0 n))
    (seq 1 nMax).

(** [states.sort((a, b) => a.energy - b.energy)]: a stable sort, lowest
    energy first. *)
Fixpoint insert_by_energy (x : OrbitalState) (sorted : list OrbitalState)
  : list OrbitalState :=
  match sorted with
  | [] => [x]
  | y :: r =>
      if QArith_base.Qle_bool (Orbital.energy y) (Orbital.energy x)
      then y :: insert_by_energy x r
      else x :: sorted
  end.

Definition sort_by_energy (states : list OrbitalState) : list OrbitalState :=
  fold_left (fun sorted x => insert_by_energy x sorted) states [].

Definition generateStates (nMax : nat) : list OrbitalState :=
  sort_by_energy (generated nMax).

Record GravitationalBit : Type := mkGravitationalBit {
  nMax : nat;
  states : list OrbitalState;
  encodedValue : Z
}.

(** [new GravitationalBit(nMax)] *)
Definition new (nMax : nat) : GravitationalBit :=
  mkGravitationalBit nMax (generateStates nMax) 0.

Definition capacity (b : GravitationalBit) : nat :=
  Nat.min (List.length (states b)) 128.

Fixpoint update_nth {A : Type} (i : nat) (f : A -> A) (xs : list A) : list A :=
  match xs, i with
  | [], _ => []
  | x :: r, O => f x :: r
  | x :: r, S i' => x :: update_nth i' f r
  end.

(** [encode(value)]: all states are reset, then state [i] is occupied
    when bit [i] of [value] is set, for [i] below the capacity. *)
Definition encode (value : Z) (b : GravitationalBit) : GravitationalBit :=
  let reset := map (set_occupied false) (states b) in
  let capacity := Nat.min (List.length reset) 128 in
  let states' :=
    fold_left
      (fun sts i =>
         let bit := Z.land (Z.shiftr value (Z.of_nat i)) 1 in
         if (bit =? 1) && (i <? List.length sts)%nat
         then update_nth i (set_occupied true) sts
         else sts)
      (seq 0 capacity) reset in
  mkGravitationalBit (nMax b) states' value.

Definition occupied_at (sts : list OrbitalState) (i : nat) : bool :=
  match nth_error sts i with
  | Some s => Orbital.occupied s
  | None => false
  end.

(** [decode()]: bit [i] of the result is set when state [i] is occupied. *)
Definition decode (b : GravitationalBit) : Z :=
  fold_left
    (fun value i =>
       if occupied_at (states b) i then Z.lor value (Z.shiftl 1 (Z.of_nat i))
       else value)
    (seq 0 (List.length (states b))) 0.

(** [verify()] *)
Definition verify (b : GravitationalBit) : bool := decode b =? encodedValue b.

(** The plain object [serialize()] returns.  [encodedValue] travels as a
    decimal string in the source; the model keeps the number. *)
Record Serialized : Type := mkSerialized {
  s_nMax : nat;
  s_encodedValue : Z;
  s_states : list OrbitalState
}.

Definition serialize (b : GravitationalBit) : Serialized :=
  mkSerialized (nMax b) (encodedValue b) (states b).

(** The loop of [deserialize]: occupation and energy are copied index by
    index as far as both arrays reach. *)
Fixpoint copy_states (fresh data : list OrbitalState) : list OrbitalState :=
  match fresh, data with
  | f :: fr, d :: dr =>
      Orbital.mkOrbitalState (Orbital.n f) (Orbital.l f) (Orbital.m f)
        (Orbital.occupied d) (Orbital.energy d)
      :: copy_states fr dr
  | _, _ => fresh
  end.

Definition deserialize (data : Serialized) : GravitationalBit :=
  let bit := new (s_nMax data) in
  mkGravitationalBit (nMax bit) (copy_states (states bit) (s_states data))
                     (s_encodedValue data).

(** [new TextEncoder().encode(text)] on a Latin-1 string: code units
    below 128 are one byte, the others two. *)
Definition utf8_char (c : ascii) : list byte :=
  if (code c <? 128)%N then [byte_of_ascii c]
  else [byte_of_ascii (ascii_of_N (192 + N.shiftr (code c) 6));
        byte_of_ascii (ascii_of_N (128 + N.land (code c) 63))].

Definition utf8_encode (text : string) : list byte :=
  flat_map utf8_char (list_ascii_of_string text).

(** [chunkText(text, targetWordCount)] *)
Fixpoint chunk_loop (sentences : list string) (currentChunk : list string)
  (currentWordCount targetWordCount : nat) : list string :=
  match sentences with
  | [] =>
      match currentChunk with
      | [] => []
      | _ :: _ => [join " " currentChunk]
      end
  | sentence :: rest =>
      let wordCount := List.length (split_ws sentence) in
      let nonempty := match currentChunk with [] => false | _ :: _ => true end in
      if (targetWordCount <? currentWordCount + wordCount)%nat && nonempty
      then join " " currentChunk :: chunk_loop rest [sentence] wordCount targetWordCount
      else chunk_loop rest (currentChunk ++ [sentence]) (currentWordCount + wordCount)%nat
                      targetWordCount
  end.

Definition chunkText (text : string) (targetWordCount : nat) : list string :=
  chunk_loop (split_sentences text) [] 0 targetWordCount.

Section Memory.

(** [crypto.subtle.digest('SHA-256', data)], a primitive of the platform. *)
Variable sha256 : list byte -> list byte.

(** [hashText(text)]: the first sixteen bytes of the digest, shifted in
    one after the other. *)
Definition hashText (text : string) : Z :=
  fold_left (fun hash b => Z.lor (Z.shiftl hash 8) (Z.of_N (Byte.to_N b)))
            (firstn 16 (sha256 (utf8_encode text))) 0.

(** [fromText(text, nMax)] *)
Definition fromText (text : string) (nMax : nat) : GravitationalBit :=
  encode (hashText text) (new nMax).

Record ChunkData : Type := mkChunkData {
  key : string;
  docId : string;
  index : nat;
  bit : Serialized;
  text : string
}.

Definition decimal (i : nat) : string :=
  DecimalString.NilEmpty.string_of_uint (Nat.to_uint i).

(** The body of the loop of [GravitationalMemory.store] for chunk [i]. *)
Definition chunkData (docId : string) (i : nat) (chunk : string) : ChunkData :=
  mkChunkData (docId ++ "_chunk_" ++ decimal i) docId i
              (serialize (fromText chunk 8)) chunk.

Fixpoint store_loop (docId : string) (i : nat) (chunks : list string) : list ChunkData :=
  match chunks with
  | [] => []
  | chunk :: rest => chunkData docId i chunk :: store_loop docId (S i) rest
  end.

(** [cache.set(key, value)] on a [Map]: the value of an existing key is
    replaced where it stands, a new key goes to the end. *)
Fixpoint cache_set (cache : list (string * ChunkData)) (k : string) (v : ChunkData)
  : list (string * ChunkData) :=
  match cache with
  | [] => [(k, v)]
  | (k', v') :: r =>
      if String.eqb k' k then (k, v) :: r else (k', v') :: cache_set r k v
  end.

(** [GravitationalMemory.store(docId, text)]: the chunks written (to the
    store function and to the cache) and the cache afterwards. *)
Definition store (cache : list (string * ChunkData)) (docId text : string)
  : list ChunkData * list (string * ChunkData) :=
  let storedChunks := store_loop docId 0 (chunkText text 300) in
  (storedChunks, fold_left (fun c d => cache_set c (key d) d) storedChunks cache).

(** The comparison [verify(key)] makes once it has found the chunk. *)
Definition verify_chunk (chunk : ChunkData) : bool :=
  decode (deserialize (bit chunk)) =? hashText (text chunk).

(** The fingerprint in the words of the specification: the first sixteen
    bytes of the digest read as a big-endian unsigned integer. *)
Definition big_endian (bytes : list byte) : Z :=
  fold_left (fun acc b => acc * 256 + Z.of_N (Byte.to_N b)) bytes 0.

Definition fingerprint (t : string) : Z :=
  big_endian (firstn 16 (sha256 (utf8_encode t))).

End Memory.

(** *** Bits of [decode] and of [encode] *)

Definition decode_from (sts : list OrbitalState) (idxs : list nat) (acc : Z) : Z :=
  fold_left
    (fun value i =>
       if occupied_at sts i then Z.lor value (Z.shiftl 1 (Z.of_nat i)) else value)
    idxs acc.

Definition encode_from (value : Z) (idxs : list nat) (sts : list OrbitalState)
  : list OrbitalState :=
  fold_left
    (fun sts i =>
       let bit := Z.land (Z.shiftr value (Z.of_nat i)) 1 in
       if (bit =? 1) && (i <? List.length sts)%nat
       then update_nth i (set_occupied true) sts
       else sts)
    idxs sts.

Lemma existsb_eqb_seq (j len : nat) :
  existsb (Nat.eqb j) (seq 0 len) = (j <? len)%nat.
Proof.
  destruct (j <? len)%nat eqn:E.
  - apply Nat.ltb_lt in E. apply existsb_exists. exists j. split.
    + apply in_seq. lia.
    + apply Nat.eqb_refl.
  - apply Nat.ltb_ge in E.
    destruct (existsb (Nat.eqb j) (seq 0 len)) eqn:Ex; [|reflexivity].
    apply existsb_exists in Ex. destruct Ex as (x & Hin & Heq).
    apply in_seq in Hin. apply Nat.eqb_eq in Heq. lia.
Qed.

Lemma occupied_at_beyond (sts : list OrbitalState) (j : nat) :
  (List.length sts <= j)%nat -> occupied_at sts j = false.
Proof.
  intros H. unfold occupied_at.
  apply nth_error_None in H. rewrite H. reflexivity.
Qed.

Lemma decode_from_testbit (sts : list OrbitalState) (idxs : list nat) :
  forall (acc j : Z), 0 <= j ->
    Z.testbit (decode_from sts idxs acc) j =
    Z.testbit acc j
    || (existsb (Nat.eqb (Z.to_nat j)) idxs && occupied_at sts (Z.to_nat j)).
Proof.
  induction idxs as [|i r IH]; intros acc j Hj; simpl.
  - rewrite orb_false_r. reflexivity.
  - unfold decode_from in *. simpl. rewrite IH by assumption.
    destruct (Nat.eqb (Z.to_nat j) i) eqn:E.
    + apply Nat.eqb_eq in E. subst i. rewrite Z2Nat.id by assumption.
      destruct (occupied_at sts (Z.to_nat j)) eqn:Eo.
      * rewrite Z.lor_spec, Z.shiftl_1_l, Z.pow2_bits_eqb, Z.eqb_refl by assumption.
        rewrite !orb_true_r. reflexivity.
      * rewrite !andb_false_r. reflexivity.
    + simpl. destruct (occupied_at sts i) eqn:Eo; [|reflexivity].
      rewrite Z.lor_spec, Z.shiftl_1_l, Z.pow2_bits_eqb by lia.
      apply Nat.eqb_neq in E.
      replace (Z.of_nat i =? j) with false by (symmetry; apply Z.eqb_neq; lia).
      rewrite orb_false_r. reflexivity.
Qed.

Lemma decode_testbit (b : GravitationalBit) (j : Z) :
  0 <= j -> Z.testbit (decode b) j = occupied_at (states b) (Z.to_nat j).
Proof.
  intros Hj. unfold decode. fold (decode_from (states b) (seq 0 (List.length (states b))) 0).
  rewrite decode_from_testbit by assumption.
  rewrite Z.testbit_0_l, existsb_eqb_seq. simpl.
  destruct (Z.to_nat j <? List.length (states b))%nat eqn:E; [reflexivity|].
  apply Nat.ltb_ge in E. rewrite occupied_at_beyond by assumption. reflexivity.
Qed.

Lemma update_nth_length {A : Type} (f : A -> A) (xs : list A) :
  forall i, List.length (update_nth i f xs) = List.length xs.
Proof.
  induction xs as [|x r IH]; intros [|i]; simpl; auto.
Qed.

Lemma update_nth_occupied (sts : list OrbitalState) :
  forall i j, (i < List.length sts)%nat ->
    occupied_at (update_nth i (set_occupied true) sts) j =
    Nat.eqb i j || occupied_at sts j.
Proof.
  induction sts as [|x r IH]; intros i j Hi; simpl in Hi; [lia|].
  destruct i as [|i]; destruct j as [|j]; simpl; try reflexivity.
  unfold occupied_at in *. simpl. apply IH. lia.
Qed.

Lemma bit_test (value : Z) (i : nat) :
  (Z.land (Z.shiftr value (Z.of_nat i)) 1 =? 1) = Z.testbit value (Z.of_nat i).
Proof.
  change 1 with (Z.ones 1) at 1. rewrite Z.land_ones by lia.
  change (2 ^ 1) with 2. rewrite <- Z.bit0_mod.
  rewrite Z.shiftr_spec by lia. simpl.
  destruct (Z.testbit value (Z.of_nat i)); reflexivity.
Qed.

Lemma encode_from_length (value : Z) (idxs : list nat) :
  forall sts, List.length (encode_from value idxs sts) = List.length sts.
Proof.
  induction idxs as [|i r IH]; intros sts; [reflexivity|].
  unfold encode_from in *. simpl. rewrite IH.
  destruct (_ && _); [apply update_nth_length|reflexivity].
Qed.

Lemma encode_from_occupied (value : Z) (idxs : list nat) :
  forall sts j,
    occupied_at (encode_from value idxs sts) j =
    occupied_at sts j
    || (existsb (Nat.eqb j) idxs && Z.testbit value (Z.of_nat j)
        && (j <? List.length sts)%nat).
Proof.
  induction idxs as [|i r IH]; intros sts j.
  - simpl. rewrite orb_false_r. reflexivity.
  - unfold encode_from in *. cbn [fold_left existsb]. rewrite IH.
    rewrite bit_test.
    destruct (Z.testbit value (Z.of_nat i) && (i <? List.length sts)%nat) eqn:E.
    + apply andb_true_iff in E. destruct E as [Eb El]. apply Nat.ltb_lt in El.
      rewrite update_nth_length, update_nth_occupied by assumption.
      destruct (Nat.eqb j i) eqn:Eji.
      * apply Nat.eqb_eq in Eji. subst j. rewrite Nat.eqb_refl, Eb.
        apply Nat.ltb_lt in El. rewrite El. simpl. rewrite orb_true_r. reflexivity.
      * rewrite Nat.eqb_sym, Eji. reflexivity.
    + destruct (Nat.eqb j i) eqn:Eji; [|reflexivity].
      apply Nat.eqb_eq in Eji. subst j. simpl. rewrite E. simpl.
      destruct (existsb (Nat.eqb i) r); simpl; rewrite ?E; reflexivity.
Qed.

Lemma reset_occupied (sts : list OrbitalState) (j : nat) :
  occupied_at (map (set_occupied false) sts) j = false.
Proof.
  unfold occupied_at. rewrite nth_error_map.
  destruct (nth_error sts j); reflexivity.
Qed.

Lemma encode_occupied (value : Z) (b : GravitationalBit) (j : nat) :
  occupied_at (states (encode value b)) j =
  (j <? capacity b)%nat && Z.testbit value (Z.of_nat j).
Proof.
  unfold encode, capacity. cbn [states].
  fold (encode_from value (seq 0 (Nat.min (List.length (map (set_occupied false) (states b))) 128))
                    (map (set_occupied false) (states b))).
  rewrite encode_from_occupied, reset_occupied, existsb_eqb_seq, length_map. simpl.
  destruct (j <? Nat.min (List.length (states b)) 128)%nat eqn:E; simpl.
  - apply Nat.ltb_lt in E.
    replace (j <? List.length (states b))%nat with true
      by (symmetry; apply Nat.ltb_lt; lia).
    rewrite andb_true_r. reflexivity.
  - reflexivity.
Qed.

Lemma encode_length (value : Z) (b : GravitationalBit) :
  List.length (states (encode value b)) = List.length (states b).
Proof.
  unfold encode. cbn [states].
  fold (encode_from value (seq 0 (Nat.min (List.length (map (set_occupied false) (states b))) 128))
                    (map (set_occupied false) (states b))).
  rewrite encode_from_length, length_map. reflexivity.
Qed.

Lemma high_bits_clear (v j : Z) :
  0 <= v < 2 ^ 128 -> 128 <= j -> Z.testbit v j = false.
Proof.
  intros Hv Hj. rewrite <- (Z.mod_small v (2 ^ 128)) by assumption.
  apply Z.mod_pow2_bits_high. lia.
Qed.

(** The round trip for any bit with at least 128 states. *)
Lemma decode_encode (value : Z) (b : GravitationalBit) :
  (128 <= List.length (states b))%nat ->
  0 <= value < 2 ^ 128 ->
  decode (encode value b) = value.
Proof.
  intros Hlen Hv. apply Z.bits_inj'. intros j Hj.
  rewrite decode_testbit, encode_occupied by assumption.
  unfold capacity. rewrite Nat.min_r by assumption.
  destruct (Z.to_nat j <? 128)%nat eqn:E; simpl.
  - rewrite Z2Nat.id by assumption. reflexivity.
  - apply Nat.ltb_ge in E. symmetry. apply high_bits_clear; [assumption|lia].
Qed.

Lemma generateStates_8_length : List.length (generateStates 8) = 204%nat.
Proof. vm_compute. reflexivity. Qed.

Lemma copy_states_occupied (fresh : list OrbitalState) :
  forall data j, List.length fresh = List.length data ->
    occupied_at (copy_states fresh data) j = occupied_at data j.
Proof.
  induction fresh as [|f fr IH]; intros [|d dr] j Hlen; simpl in *; try discriminate.
  - reflexivity.
  - destruct j as [|j]; [reflexivity|].
    unfold occupied_at in *. simpl. apply IH. lia.
Qed.

(** *** The fingerprint *)

Lemma byte_range (b : byte) : 0 <= Z.of_N (Byte.to_N b) < 256.
Proof.
  pose proof (Byte.to_N_bounded b). lia.
Qed.

Lemma shift_in_byte (h v : Z) :
  0 <= h -> 0 <= v < 256 -> Z.lor (Z.shiftl h 8) v = h * 256 + v.
Proof.
  intros Hh Hv.
  assert (Hland : Z.land (Z.shiftl h 8) v = 0).
  { apply Z.bits_inj'. intros j Hj.
    rewrite Z.land_spec, Z.bits_0.
    destruct (Z.ltb_spec j 8) as [Hlt|Hge].
    - rewrite Z.shiftl_spec_low by assumption. reflexivity.
    - rewrite <- (Z.mod_small v (2 ^ 8)) by (change (2 ^ 8) with 256; lia).
      rewrite Z.mod_pow2_bits_high by lia. apply andb_false_r. }
  rewrite <- Z.lxor_lor, <- Z.add_nocarry_lxor by assumption.
  rewrite Z.shiftl_mul_pow2 by lia. reflexivity.
Qed.

Lemma shift_in_bytes (bytes : list byte) :
  forall acc, 0 <= acc ->
    fold_left (fun hash b => Z.lor (Z.shiftl hash 8) (Z.of_N (Byte.to_N b))) bytes acc =
    fold_left (fun a b => a * 256 + Z.of_N (Byte.to_N b)) bytes acc.
Proof.
  induction bytes as [|b r IH]; intros acc Hacc; [reflexivity|].
  cbn [fold_left]. pose proof (byte_range b) as Hb.
  rewrite shift_in_byte by assumption. apply IH. lia.
Qed.

Lemma big_endian_range (bytes : list byte) :
  forall acc, 0 <= acc ->
    0 <= fold_left (fun a b => a * 256 + Z.of_N (Byte.to_N b)) bytes acc
      < (acc + 1) * 256 ^ Z.of_nat (List.length bytes).
Proof.
  induction bytes as [|b r IH]; intros acc Hacc.
  - simpl. lia.
  - cbn [fold_left List.length]. pose proof (byte_range b) as Hb.
    specialize (IH (acc * 256 + Z.of_N (Byte.to_N b))).
    rewrite Nat2Z.inj_succ, Z.pow_succ_r by lia.
    assert (H0 : 0 <= acc * 256 + Z.of_N (Byte.to_N b)) by lia.
    specialize (IH H0).
    assert (Hp : 0 < 256 ^ Z.of_nat (List.length r)) by (apply Z.pow_pos_nonneg; lia).
    split; [lia|]. nia.
Qed.

Lemma hashText_fingerprint (sha256 : list byte -> list byte) (t : string) :
  hashText sha256 t = fingerprint sha256 t.
Proof.
  unfold hashText, fingerprint, big_endian. apply shift_in_bytes. lia.
Qed.

Lemma hashText_range (sha256 : list byte -> list byte) (t : string) :
  0 <= hashText sha256 t < 2 ^ 128.
Proof.
  rewrite hashText_fingerprint. unfold fingerprint, big_endian.
  pose proof (big_endian_range (firstn 16 (sha256 (utf8_encode t))) 0 (Z.le_refl 0)) as H.
  pose proof (firstn_le_length 16 (sha256 (utf8_encode t))) as Hl.
  assert (Hpow : 256 ^ Z.of_nat (List.length (firstn 16 (sha256 (utf8_encode t))))
                 <= 256 ^ 16).
  { apply Z.pow_le_mono_r; lia. }
  change (256 ^ 16) with (2 ^ 128) in Hpow. lia.
Qed.

Lemma store_loop_chunks (sha256 : list byte -> list byte) (docId : string)
      (chunks : list string) :
  forall i c, In c (store_loop sha256 docId i chunks) ->
    exists k, c = chunkData sha256 docId k (text c).
Proof.
  induction chunks as [|chunk rest IH]; intros i c Hin; simpl in Hin; [contradiction|].
  destruct Hin as [<-|Hin].
  - exists i. reflexivity.
  - eapply IH; eassumption.
Qed.

Lemma chunkData_verified (sha256 : list byte -> list byte) (docId : string) (i : nat)
      (chunk : string) :
  decode (deserialize (bit (chunkData sha256 docId i chunk))) = hashText sha256 chunk.
Proof.
  pose proof (hashText_range sha256 chunk) as Hr.
  apply Z.bits_inj'. intros j Hj.
  rewrite decode_testbit by assumption.
  unfold chunkData, deserialize, serialize, fromText. cbn [bit s_states s_nMax states nMax].
  rewrite copy_states_occupied.
  - rewrite <- decode_testbit by assumption.
    rewrite decode_encode; [reflexivity| |assumption].
    unfold new. cbn [states]. rewrite generateStates_8_length. lia.
  - rewrite encode_length. reflexivity.
Qed.

(** C7.  Every chunk that [GravitationalMemory.store] writes carries an
    orbital-state bitmap from which [deserialize] and [decode] recover the
    hash recomputed from the chunk's stored text ([verify] compares
    exactly these two and answers true); that hash is the first sixteen
    bytes of SHA-256 of the UTF-8 text read as a big-endian integer; and a
    bit with [nMax = 8] decodes every 128-bit value it encoded. *)
Theorem stored_fingerprint_roundtrip :
  forall (sha256 : list byte -> list byte),
    (forall cache docId t c,
       In c (fst (store sha256 cache docId t)) ->
       decode (deserialize (bit c)) = hashText sha256 (text c) /\
       verify_chunk sha256 c = true /\
       hashText sha256 (text c) = fingerprint sha256 (text c)) /\
    (forall v, 0 <= v < 2 ^ 128 -> decode (encode v (new 8)) = v).
Proof.
  intros sha256. split.
  - intros cache docId t c Hin. unfold store in Hin. cbn [fst] in Hin.
    destruct (store_loop_chunks _ _ _ _ _ Hin) as [k Hc].
    assert (Hd : decode (deserialize (bit c)) = hashText sha256 (text c)).
    { rewrite Hc at 1. apply chunkData_verified. }
    split; [exact Hd|]. split.
    + unfold verify_chunk. rewrite Hd. apply Z.eqb_refl.
    + apply hashText_fingerprint.
  - intros v Hv. apply decode_encode; [|assumption].
    unfold new. cbn [states]. rewrite generateStates_8_length. lia.
Qed.

Lemma stored_fingerprint_roundtrip_witness :
  0 <= 2 ^ 127 + 5 < 2 ^ 128 /\
  decode (encode (2 ^ 127 + 5) (new 8)) = 2 ^ 127 + 5.
Proof.
  assert (H : 0 <= 2 ^ 127 + 5 < 2 ^ 128).
  { split; [apply Z.leb_le|apply Z.ltb_lt]; vm_compute; reflexivity. }
  split; [exact H|].
  exact (proj2 (stored_fingerprint_roundtrip (fun _ => [])) (2 ^ 127 + 5) H).
Defined.

End Gravity.

(* ------------------------------------------------------------------ *)
(** ** Retrieval scoring ([src/memory/rag-booster.js])

    Scores are doubles in the source.  The model computes them in the real
    numbers ([Math.log] is [ln]), which is the arithmetic the formulas of
    the specification are written in, and keeps [NaN], the score the code
    arrives at for a chunk that has the query word 'constructor'; counts
    are natural numbers. *)

Module Rag.
Import Js JsText.
Local Open Scope string_scope.
Local Open Scope list_scope.
Local Open Scope R_scope.

(** A stored chunk, as far as [search] reads it: [chunk.text] and
    [chunk.metadata?.title]. *)
Record Chunk : Type := mkChunk {
  text : string;
  title : option string
}.

(** [s.split(/\s+/).filter(w => w.length > 2)] *)
Definition long_words (s : string) : list string :=
  filter (fun w => (2 <? String.length w)%nat) (split_ws s).

(** A number as [search] computes with it: a real number or [NaN]. *)
Inductive Num : Type :=
| Finite (r : R)
| NaN.

(** The value of a property of [queryWordFreq]: a count, or the string
    that [+ 1] makes of a value that is not a number. *)
Inductive Freq : Type :=
| Count (n : nat)
| Text.

(** [value + 1] for the value of an own property: the next count, or
    the string with one more ['1'] at its end. *)
Definition plus_one (value : Freq) : Freq :=
  match value with
  | Count n => Count (S n)
  | Text => Text
  end.

(** [(queryWordFreq[w] || 0) + 1] while [w] is no own property of
    [queryWordFreq].  The object is created by [{}] and inherits from
    [Object.prototype]; of the names it inherits only ['constructor'] and
    ['__proto__'] are in lower case.  For ['constructor'] the value read
    is the function [Object], and [Object + 1] is a string. *)
Definition first_value (w : string) : Freq :=
  if String.eqb w "constructor" then Text else Count 1.

Fixpoint bump (freq : list (string * Freq)) (w : string) : list (string * Freq) :=
  match freq with
  | [] => [(w, first_value w)]
  | (k, c) :: r => if String.eqb k w then (k, plus_one c) :: r else (k, c) :: bump r w
  end.

(** [queryWordFreq[w] = (queryWordFreq[w] || 0) + 1].  For ['__proto__']
    the value read is [Object.prototype] and the assignment calls the
    inherited setter, which ignores a string: the object gets no
    property. *)
Definition count_word (freq : list (string * Freq)) (w : string) : list (string * Freq) :=
  if String.eqb w "__proto__" then freq else bump freq w.

(** [Object.entries(queryWordFreq)] after the [forEach], the entries
    kept in the order in which the words first occur.  (JavaScript lists
    the keys that look like array indices first; the score is a sum over
    the entries and does not depend on their order.) *)
Definition queryWordFreq (query : string) : list (string * Freq) :=
  fold_left count_word (long_words (toLowerCase query)) [].

(** [chunkWords.filter(w => w === word).length] *)
Definition chunkFreq (chunkWords : list string) (word : string) : nat :=
  List.length (filter (fun w => String.eqb w word) chunkWords).

(** [allChunks.filter(c => c.text.toLowerCase().includes(word)).length] *)
Definition docFreq (allChunks : list Chunk) (word : string) : nat :=
  List.length (filter (fun c => includes (toLowerCase (text c)) word) allChunks).

(** One round of the loop over [Object.entries(queryWordFreq)].  The
    product [tf * idf * queryFreq] is [NaN] when [queryFreq] is the
    string, and a sum with [NaN] is [NaN]. *)
Definition add_term (allChunks : list Chunk) (chunkWords : list string)
  (score : Num) (entry : string * Freq) : Num :=
  let '(word, queryFreq) := entry in
  if (0 <? chunkFreq chunkWords word)%nat then
    let tf := INR (chunkFreq chunkWords word) / INR (List.length chunkWords) in
    let idf := ln (INR (List.length allChunks) / (1 + INR (docFreq allChunks word))) in
    match score, queryFreq with
    | Finite s, Count n => Finite (s + tf * idf * INR n)
    | _, _ => NaN
    end
  else score.

(** [score *= k] *)
Definition times (score : Num) (k : R) : Num :=
  match score with
  | Finite s => Finite (s * k)
  | NaN => NaN
  end.

(** The score [search] gives to [chunk] when the store holds [allChunks]. *)
Definition score (allChunks : list Chunk) (query : string) (chunk : Chunk) : Num :=
  let chunkText := toLowerCase (text chunk) in
  let chunkWords := long_words chunkText in
  let score := fold_left (add_term allChunks chunkWords) (queryWordFreq query) (Finite 0) in
  let score := if includes chunkText (toLowerCase query) then times score 2 else score in
  let score :=
    match title chunk with
    | Some t => if includes (toLowerCase t) (toLowerCase query) then times score 1.5 else score
    | None => score
    end in
  score.

(** [s.score >= minScore]; no comparison with [NaN] holds. *)
Definition reaches_score (score : Num) (minScore : R) : bool :=
  match score with
  | Finite s => if Rle_dec minScore s then true else false
  | NaN => false
  end.

(** The chunk passes [scored.filter(s => s.score >= minScore)]: it is a
    result of the search. *)
Definition matches (allChunks : list Chunk) (query : string) (minScore : R)
  (chunk : Chunk) : Prop :=
  match score allChunks query chunk with
  | Finite s => minScore <= s
  | NaN => False
  end.

(** [a <= b] and [a < b] on two numbers. *)
Definition le_num (a b : Num) : Prop :=
  match a, b with
  | Finite x, Finite y => x <= y
  | _, _ => False
  end.

Definition lt_num (a b : Num) : Prop :=
  match a, b with
  | Finite x, Finite y => x < y
  | _, _ => False
  end.

(** The score [after] is not lower than the score [before]: both are
    numbers and [before <= after], or both are [NaN]. *)
Definition not_lower (before after : Num) : Prop :=
  match before, after with
  | Finite x, Finite y => x <= y
  | NaN, NaN => True
  | _, _ => False
  end.

(** [allChunks.map(chunk => ({ chunk, score, ... }))] *)
Definition scored (allChunks : list Chunk) (query : string) : list (Chunk * Num) :=
  map (fun chunk => (chunk, score allChunks query chunk)) allChunks.

(** [(b.score - a.score) < 0]: the comparison function puts [a] before
    [b].  A difference that is [NaN] counts as [0]. *)
Definition sorts_before (a b : Num) : bool :=
  match a, b with
  | Finite x, Finite y => if Rlt_dec y x then true else false
  | _, _ => false
  end.

(** [filtered.sort((a, b) => b.score - a.score)]: stable, highest score
    first. *)
Fixpoint insert_by_score (x : Chunk * Num) (sorted : list (Chunk * Num))
  : list (Chunk * Num) :=
  match sorted with
  | [] => [x]
  | y :: r =>
      if sorts_before (snd x) (snd y) then x :: sorted else y :: insert_by_score x r
  end.

(** [search(query, { topK, minScore })] on a non-empty cache: the texts of
    the [topK] best chunks among those that reach [minScore]. *)
Definition search (allChunks : list Chunk) (query : string) (topK : nat) (minScore : R)
  : list string :=
  let filtered :=
    filter (fun s => reaches_score (snd s) minScore) (scored allChunks query) in
  let sorted := fold_left (fun acc x => insert_by_score x acc) filtered [] in
  map (fun s => text (fst s)) (firstn topK sorted).

(** *** The score when the store grows *)

Lemma ln_le_minus_1 (x : R) : 0 < x -> ln x <= x - 1.
Proof.
  intros Hx. pose proof (exp_ineq1_le (ln x)) as H.
  rewrite exp_ln in H by assumption. lra.
Qed.

Lemma ln_monotone (x y : R) : 0 < x -> x <= y -> ln x <= ln y.
Proof.
  intros Hx [Hlt|Heq].
  - left. apply ln_increasing; assumption.
  - subst. right. reflexivity.
Qed.

Lemma docFreq_app (allChunks : list Chunk) (added : Chunk) (word : string) :
  includes (toLowerCase (text added)) word = false ->
  docFreq (allChunks ++ [added]) word = docFreq allChunks word.
Proof.
  intros H. unfold docFreq. rewrite filter_app, length_app. simpl.
  rewrite H. simpl. lia.
Qed.

Lemma term_monotone (allChunks : list Chunk) (added : Chunk)
      (chunkWords : list string) (word : string) (queryFreq : nat) (s s' : R) :
  allChunks <> [] ->
  includes (toLowerCase (text added)) word = false ->
  s <= s' ->
  s + INR (chunkFreq chunkWords word) / INR (List.length chunkWords)
      * ln (INR (List.length allChunks) / (1 + INR (docFreq allChunks word)))
      * INR queryFreq
  <= s' + INR (chunkFreq chunkWords word) / INR (List.length chunkWords)
          * ln (INR (List.length (allChunks ++ [added]))
                / (1 + INR (docFreq (allChunks ++ [added]) word)))
          * INR queryFreq.
Proof.
  intros Hne Hinc Hs.
  rewrite docFreq_app by assumption.
  rewrite length_app. simpl List.length. rewrite Nat.add_1_r, S_INR.
  set (N := INR (List.length allChunks)).
  set (df := INR (docFreq allChunks word)).
  set (cf := INR (chunkFreq chunkWords word)).
  set (len := INR (List.length chunkWords)).
  set (qf := INR queryFreq).
  assert (HN : 1 <= N).
  { unfold N. destruct allChunks as [|c r]; [congruence|].
    simpl List.length. rewrite S_INR. pose proof (pos_INR (List.length r)). lra. }
  assert (Hdf : 0 <= df) by apply pos_INR.
  assert (Hcf : 0 <= cf) by apply pos_INR.
  assert (Hlen : 0 <= len) by apply pos_INR.
  assert (Hqf : 0 <= qf) by apply pos_INR.
  assert (Hinv : 0 < / (1 + df)) by (apply Rinv_0_lt_compat; lra).
  assert (Hidf : ln (N / (1 + df)) <= ln ((N + 1) / (1 + df))).
  { apply ln_monotone; unfold Rdiv.
    - apply Rmult_lt_0_compat; lra.
    - apply Rmult_le_compat_r; lra. }
  assert (Htf : 0 <= cf / len).
  { unfold Rdiv. destruct Hlen as [Hpos|Hz].
    - apply Rmult_le_pos; [assumption|]. left. apply Rinv_0_lt_compat. assumption.
    - rewrite <- Hz, Rinv_0. lra. }
  assert (Hw : 0 <= cf / len * qf) by (apply Rmult_le_pos; assumption).
  replace (cf / len * ln (N / (1 + df)) * qf)
    with (cf / len * qf * ln (N / (1 + df))) by ring.
  replace (cf / len * ln ((N + 1) / (1 + df)) * qf)
    with (cf / len * qf * ln ((N + 1) / (1 + df))) by ring.
  apply Rplus_le_compat; [assumption|].
  apply Rmult_le_compat_l; assumption.
Qed.

Lemma add_term_monotone (allChunks : list Chunk) (added : Chunk)
      (chunkWords : list string) (entry : string * Freq) (s s' : Num) :
  allChunks <> [] ->
  includes (toLowerCase (text added)) (fst entry) = false ->
  not_lower s s' ->
  not_lower (add_term allChunks chunkWords s entry)
            (add_term (allChunks ++ [added]) chunkWords s' entry).
Proof.
  intros Hne Hinc Hs. destruct entry as [word queryFreq]. simpl in Hinc.
  unfold add_term.
  destruct (0 <? chunkFreq chunkWords word)%nat; [|assumption].
  destruct s as [x|], s' as [y|], queryFreq as [n|];
    cbn [not_lower] in *; try contradiction; try exact I.
  apply term_monotone; assumption.
Qed.

Lemma fold_add_term_monotone (allChunks : list Chunk) (added : Chunk)
      (chunkWords : list string) (entries : list (string * Freq)) :
  allChunks <> [] ->
  Forall (fun entry => includes (toLowerCase (text added)) (fst entry) = false) entries ->
  forall s s', not_lower s s' ->
    not_lower (fold_left (add_term allChunks chunkWords) entries s)
              (fold_left (add_term (allChunks ++ [added]) chunkWords) entries s').
Proof.
  intros Hne Hall. induction Hall as [|e r He Hr IH]; intros s s' Hs; simpl.
  - assumption.
  - apply IH. apply add_term_monotone; assumption.
Qed.

Lemma times_not_lower (s s' : Num) (k : R) :
  0 <= k -> not_lower s s' -> not_lower (times s k) (times s' k).
Proof.
  intros Hk. destruct s as [x|], s' as [y|]; cbn [not_lower times]; auto.
  intros H. apply Rmult_le_compat_r; assumption.
Qed.

(** C8, as the code has it.  Adding a chunk whose text contains none of
    the words the query is scored by (case-folded, as the
    document-frequency count looks for them) never lowers the score of a
    chunk of a non-empty store: a score that is a number stays a number
    and does not fall, a score that is [NaN] stays [NaN]; so a chunk that
    was a result of the search still reaches the minimum score. *)
Theorem adding_unrelated_chunk_keeps_score :
  forall (allChunks : list Chunk) (query : string) (chunk added : Chunk),
    allChunks <> [] ->
    Forall (fun entry => includes (toLowerCase (text added)) (fst entry) = false)
           (queryWordFreq query) ->
    not_lower (score allChunks query chunk) (score (allChunks ++ [added]) query chunk) /\
    (forall minScore, matches allChunks query minScore chunk ->
                      matches (allChunks ++ [added]) query minScore chunk).
Proof.
  intros allChunks query chunk added Hne Hall.
  assert (H : not_lower (score allChunks query chunk)
                        (score (allChunks ++ [added]) query chunk)).
  { unfold score.
    pose proof (fold_add_term_monotone allChunks added
                  (long_words (toLowerCase (text chunk))) (queryWordFreq query)
                  Hne Hall (Finite 0) (Finite 0) (Rle_refl 0)) as H.
    set (a := fold_left (add_term allChunks _) _ _) in *.
    set (b := fold_left (add_term (allChunks ++ [added]) _) _ _) in *.
    destruct (includes (toLowerCase (text chunk)) (toLowerCase query));
      destruct (title chunk) as [t|];
      try destruct (includes (toLowerCase t) (toLowerCase query));
      repeat apply times_not_lower; try lra; exact H. }
  split; [exact H|].
  intros minScore. unfold matches.
  destruct (score allChunks query chunk) as [x|],
           (score (allChunks ++ [added]) query chunk) as [y|];
    cbn [not_lower] in H; try contradiction; intros Hm; lra.
Qed.

Definition fruit_store : list Chunk :=
  [mkChunk "apple" None; mkChunk "zzz" None; mkChunk "yyy" None].

Lemma adding_unrelated_chunk_keeps_score_witness :
  fruit_store <> [] /\
  Forall (fun entry => includes (toLowerCase (text (mkChunk "Banana split" None)))
                                (fst entry) = false)
         (queryWordFreq "apple") /\
  not_lower
    (score fruit_store "apple" (mkChunk "apple" None))
    (score (fruit_store ++ [mkChunk "Banana split" None]) "apple" (mkChunk "apple" None)).
Proof.
  assert (Hne : fruit_store <> []) by discriminate.
  assert (Hall : Forall (fun entry =>
                           includes (toLowerCase (text (mkChunk "Banana split" None)))
                                    (fst entry) = false)
                        (queryWordFreq "apple")).
  { apply Forall_cons; [reflexivity|apply Forall_nil]. }
  split; [exact Hne|]. split; [exact Hall|].
  exact (proj1 (adding_unrelated_chunk_keeps_score fruit_store "apple"
                  (mkChunk "apple" None) (mkChunk "Banana split" None) Hne Hall)).
Defined.

(** C8 as the specification states it does not hold: the chunk "apple"
    matches the query "apple" in a store of three chunks with the score
    2 ln(3/2); once the chunk "Apple tart" is added the inverse document
    frequency drops and the score is 2 ln(4/3). *)
Lemma adding_matching_chunk_lowers_score :
  In (mkChunk "apple" None) fruit_store /\
  matches fruit_store "apple" (1 / 10) (mkChunk "apple" None) /\
  score fruit_store "apple" (mkChunk "apple" None)
  = Finite ((0 + 1 / 1 * ln (3 / (1 + 1)) * 1) * 2) /\
  score (fruit_store ++ [mkChunk "Apple tart" None]) "apple" (mkChunk "apple" None)
  = Finite ((0 + 1 / 1 * ln (4 / (1 + 2)) * 1) * 2) /\
  lt_num
    (score (fruit_store ++ [mkChunk "Apple tart" None]) "apple" (mkChunk "apple" None))
    (score fruit_store "apple" (mkChunk "apple" None)).
Proof.
  assert (H1 : score fruit_store "apple" (mkChunk "apple" None)
               = Finite ((0 + 1 / 1 * ln (3 / (1 + 1)) * 1) * 2)).
  { cbv -[Rplus Rmult Rdiv Rinv INR ln IZR]. simpl INR.
    f_equal. f_equal. f_equal. f_equal. f_equal. f_equal. lra. }
  assert (H2 : score (fruit_store ++ [mkChunk "Apple tart" None]) "apple"
                     (mkChunk "apple" None)
               = Finite ((0 + 1 / 1 * ln (4 / (1 + 2)) * 1) * 2)).
  { cbv -[Rplus Rmult Rdiv Rinv INR ln IZR]. simpl INR.
    f_equal. f_equal. f_equal. f_equal. f_equal. f_equal; lra. }
  split; [left; reflexivity|]. split; [|split; [exact H1|split; [exact H2|]]].
  - unfold matches. rewrite H1.
    assert (H : 1 / 3 <= ln (3 / (1 + 1))).
    { replace (3 / (1 + 1)) with (/ (2 / 3)) by field.
      rewrite ln_Rinv by lra.
      pose proof (ln_le_minus_1 (2 / 3)) as Hl. lra. }
    lra.
  - rewrite H1, H2. cbn [lt_num].
    assert (H : ln (4 / (1 + 2)) < ln (3 / (1 + 1))).
    { apply ln_increasing; lra. }
    lra.
Qed.

End Rag.

(* ------------------------------------------------------------------ *)
(** ** API keys at rest ([src/core/soul.js])

    [getApiKeys], [setApiKeys], [encryptApiKeys] and [decryptApiKeys] are
    compositions of platform primitives: [JSON], [TextEncoder] and
    [TextDecoder], and WebCrypto's PBKDF2 key derivation and AES-GCM.
    The primitives are the variables of the section; what is modelled is
    how the four functions wire them together. *)

Module Soul.
Local Open Scope string_scope.
Local Open Scope list_scope.

Section KeyStore.

(** The API-keys object and WebCrypto's [CryptoKey]. *)
Variable Keys : Type.
Variable CryptoKey : Type.

(** [JSON.stringify] and [JSON.parse] ([None]: a SyntaxError is thrown). *)
Variable JSON_stringify : Keys -> string.
Variable JSON_parse : string -> option Keys.

(** [new TextEncoder().encode] and [new TextDecoder().decode]. *)
Variable encode : string -> list byte.
Variable decode : list byte -> string.

(** [importKey('raw', password, 'PBKDF2', ...)] followed by
    [deriveKey({name: 'PBKDF2', salt, iterations, hash: 'SHA-256'}, ...,
    {name: 'AES-GCM', length: 256}, ...)]. *)
Variable deriveKey : list byte -> list byte -> Z -> CryptoKey.

(** [crypto.subtle.encrypt] and [crypto.subtle.decrypt] with AES-GCM
    ([None]: the promise is rejected, the tag did not verify). *)
Variable encrypt : CryptoKey -> list byte -> list byte -> list byte.
Variable decrypt : CryptoKey -> list byte -> list byte -> option (list byte).

(** The value kept under the config key 'api_keys': the keys object
    itself, or the envelope [{ data, salt, iv, _encrypted: true }]. *)
Inductive Stored : Type :=
| Plain (keys : Keys)
| Encrypted (data salt iv : list byte).

(** What a call of [getApiKeys] ends with. *)
Inductive Outcome : Type :=
| Returned (value : Stored)
| Thrown (message : string).

(** A passphrase is used when it is truthy: neither [null] nor ''. *)
Definition truthy (passphrase : option string) : option string :=
  match passphrase with
  | Some EmptyString => None
  | Some pw => Some pw
  | None => None
  end.

(** [encryptApiKeys(keys, passphrase)]; [salt] and [iv] are the values
    [crypto.getRandomValues] hands out. *)
Definition encryptApiKeys (keys : Keys) (passphrase : string) (salt iv : list byte)
  : Stored :=
  let data := encode (JSON_stringify keys) in
  let key := deriveKey (encode passphrase) salt 100000 in
  Encrypted (encrypt key iv data) salt iv.

(** [decryptApiKeys(encryptedKeys, passphrase)]; [None] when one of its
    steps throws. *)
Definition decryptApiKeys (data salt iv : list byte) (passphrase : string)
  : option Keys :=
  let key := deriveKey (encode passphrase) salt 100000 in
  match decrypt key iv data with
  | Some decrypted => JSON_parse (decode decrypted)
  | None => None
  end.

(** [setApiKeys(keys, passphrase)]: the value handed to [setConfig]. *)
Definition setApiKeys (keys : Keys) (passphrase : option string) (salt iv : list byte)
  : Stored :=
  match truthy passphrase with
  | Some pw => encryptApiKeys keys pw salt iv
  | None => Plain keys
  end.

(** [getApiKeys(passphrase)], [stored] being what [getConfig] returns. *)
Definition getApiKeys (stored : Stored) (passphrase : option string) : Outcome :=
  match truthy passphrase, stored with
  | Some pw, Encrypted data salt iv =>
      match decryptApiKeys data salt iv pw with
      | Some keys => Returned (Plain keys)
      | None => Thrown "Invalid passphrase"
      end
  | _, _ => Returned stored
  end.

(** The laws of the primitives: AES-GCM decryption under the key of the
    encryption returns the plain text, and under any other key it is
    rejected (the authentication tag does not verify); decoding undoes
    encoding, and parsing undoes [JSON.stringify]. *)
Hypothesis decrypt_encrypt :
  forall key iv data, decrypt key iv (encrypt key iv data) = Some data.
Hypothesis decrypt_other_key :
  forall key key' iv data,
    key' <> key -> decrypt key' iv (encrypt key iv data) = None.
Hypothesis decode_encode : forall s, decode (encode s) = s.
Hypothesis parse_stringify : forall keys, JSON_parse (JSON_stringify keys) = Some keys.

Lemma truthy_nonempty (pw : string) : pw <> "" -> truthy (Some pw) = Some pw.
Proof. destruct pw; [congruence|reflexivity]. Qed.

Lemma encode_injective (s s' : string) : encode s = encode s' -> s = s'.
Proof.
  intros H. rewrite <- (decode_encode s), <- (decode_encode s'), H. reflexivity.
Qed.

(** C9, as the code has it.  Reading the keys back with the passphrase
    they were stored under returns them.  Keys stored under a non-empty
    passphrase and read with another non-empty passphrase: the call
    throws 'Invalid passphrase' when the two passphrases derive different
    keys, which is the case for every two different passphrases when the
    key derivation has no collisions (this is a premise of that part
    only: PBKDF2 with HMAC pads a short password with zero bytes, so it
    is an idealisation); a passphrase that derives the same key opens
    the envelope.  With a non-empty passphrase [getApiKeys] never hands
    an envelope back.  With no passphrase, or the empty one, it makes no
    decryption attempt and returns the stored value as it is. *)
Theorem api_keys_roundtrip :
  (forall keys passphrase salt iv,
     getApiKeys (setApiKeys keys passphrase salt iv) passphrase = Returned (Plain keys)) /\
  (forall keys pw pw' salt iv,
     pw <> "" -> pw' <> "" ->
     (deriveKey (encode pw') salt 100000 <> deriveKey (encode pw) salt 100000 ->
      getApiKeys (setApiKeys keys (Some pw) salt iv) (Some pw')
      = Thrown "Invalid passphrase") /\
     (deriveKey (encode pw') salt 100000 = deriveKey (encode pw) salt 100000 ->
      getApiKeys (setApiKeys keys (Some pw) salt iv) (Some pw')
      = Returned (Plain keys))) /\
  ((forall password password' salt,
      deriveKey password' salt 100000 = deriveKey password salt 100000 ->
      password' = password) ->
   forall keys pw pw' salt iv,
     pw <> "" -> pw' <> "" -> pw' <> pw ->
     getApiKeys (setApiKeys keys (Some pw) salt iv) (Some pw')
     = Thrown "Invalid passphrase") /\
  (forall data salt iv pw,
     pw <> "" ->
     getApiKeys (Encrypted data salt iv) (Some pw) <> Returned (Encrypted data salt iv)) /\
  (forall stored,
     getApiKeys stored None = Returned stored /\
     getApiKeys stored (Some "") = Returned stored).
Proof.
  assert (Hother : forall keys pw pw' salt iv,
             pw <> "" -> pw' <> "" ->
             deriveKey (encode pw') salt 100000 <> deriveKey (encode pw) salt 100000 ->
             getApiKeys (setApiKeys keys (Some pw) salt iv) (Some pw')
             = Thrown "Invalid passphrase").
  { intros keys pw pw' salt iv Hpw Hpw' Hkey.
    unfold getApiKeys, setApiKeys.
    rewrite (truthy_nonempty pw Hpw), (truthy_nonempty pw' Hpw').
    unfold encryptApiKeys, decryptApiKeys.
    rewrite (decrypt_other_key _ _ _ _ Hkey). reflexivity. }
  split; [|split; [|split; [|split]]].
  - intros keys passphrase salt iv. unfold getApiKeys, setApiKeys.
    destruct (truthy passphrase) as [pw|]; [|reflexivity].
    unfold encryptApiKeys, decryptApiKeys.
    rewrite decrypt_encrypt, decode_encode, parse_stringify. reflexivity.
  - intros keys pw pw' salt iv Hpw Hpw'. split; [apply Hother; assumption|].
    intros Hkey. unfold getApiKeys, setApiKeys.
    rewrite (truthy_nonempty pw Hpw), (truthy_nonempty pw' Hpw').
    unfold encryptApiKeys, decryptApiKeys.
    rewrite Hkey, decrypt_encrypt, decode_encode, parse_stringify. reflexivity.
  - intros Hinj keys pw pw' salt iv Hpw Hpw' Hne.
    apply Hother; try assumption.
    intros Hkey. apply Hne. apply encode_injective. exact (Hinj _ _ _ Hkey).
  - intros data salt iv pw Hpw.
    unfold getApiKeys. rewrite (truthy_nonempty pw Hpw).
    destruct (decryptApiKeys data salt iv pw); discriminate.
  - intros stored. split; reflexivity.
Qed.

End KeyStore.

(** *** A small instance of the primitives

    Keys are their own JSON text, text is its own byte sequence, the
    derived key is the password bytes followed by the salt, and the
    cipher text carries the key in front of the data: each byte of the
    key after a byte 1, then a byte 0.  Decryption checks the key. *)

Definition toy_deriveKey (password salt : list byte) (iterations : Z) : list byte :=
  password ++ salt.

Fixpoint toy_encrypt (key iv data : list byte) : list byte :=
  match key with
  | [] => x00 :: data
  | b :: r => x01 :: b :: toy_encrypt r iv data
  end.

Fixpoint toy_decrypt (key iv data : list byte) : option (list byte) :=
  match key, data with
  | [], mark :: rest => if Byte.eqb mark x00 then Some rest else None
  | b :: r, mark :: b' :: rest =>
      if Byte.eqb mark x01 && Byte.eqb b b' then toy_decrypt r iv rest else None
  | _, _ => None
  end.

Lemma toy_decrypt_encrypt (key iv data : list byte) :
  toy_decrypt key iv (toy_encrypt key iv data) = Some data.
Proof.
  induction key as [|b r IH]; [reflexivity|].
  cbn [toy_encrypt toy_decrypt]. rewrite (Byte.byte_dec_lb (eq_refl b)). exact IH.
Qed.

Lemma toy_decrypt_other_key (key key' iv data : list byte) :
  key' <> key -> toy_decrypt key' iv (toy_encrypt key iv data) = None.
Proof.
  revert key'. induction key as [|b r IH]; intros [|b' r'] Hne;
    cbn [toy_encrypt toy_decrypt]; try reflexivity; try congruence.
  - destruct data; reflexivity.
  - destruct (Byte.eqb b' b) eqn:E; [|reflexivity].
    apply Byte.byte_dec_bl in E. subst b'. cbn [andb].
    apply IH. congruence.
Qed.

Lemma toy_deriveKey_injective (password password' salt : list byte) :
  toy_deriveKey password' salt 100000 = toy_deriveKey password salt 100000 ->
  password' = password.
Proof. unfold toy_deriveKey. apply app_inv_tail. Qed.

Definition toy_set : string -> option string -> list byte -> list byte -> Stored string :=
  setApiKeys string (list byte) (fun k => k) list_byte_of_string toy_deriveKey toy_encrypt.

Definition toy_get : Stored string -> option string -> Outcome string :=
  getApiKeys string (list byte) Some list_byte_of_string string_of_list_byte
             toy_deriveKey toy_decrypt.

Lemma api_keys_roundtrip_witness :
  toy_get (toy_set "{}" (Some "pw") [x01] [x02]) (Some "pw")
  = Returned string (Plain string "{}") /\
  toy_get (toy_set "{}" (Some "pw") [x01] [x02]) (Some "other")
  = Thrown string "Invalid passphrase" /\
  toy_get (toy_set "{}" (Some "pw") [x01] [x02]) (Some "pW")
  = Thrown string "Invalid passphrase".
Proof.
  destruct (api_keys_roundtrip string (list byte) (fun k => k) Some
              list_byte_of_string string_of_list_byte
              toy_deriveKey toy_encrypt toy_decrypt
              toy_decrypt_encrypt toy_decrypt_other_key
              string_of_list_byte_of_string (fun _ => eq_refl))
    as (Hsame & Hkeys & Hother & _).
  split; [exact (Hsame "{}" (Some "pw") [x01] [x02])|]. split.
  - apply (proj1 (Hkeys "{}" "pw" "other" [x01] [x02]
                    ltac:(discriminate) ltac:(discriminate))).
    vm_compute. discriminate.
  - apply (Hother toy_deriveKey_injective "{}" "pw" "pW" [x01] [x02]);
      discriminate.
Defined.

(** C9 as the specification states it does not hold when one of the two
    passphrases is empty: keys stored under "pw" and read with "" come
    back as the encrypted envelope, and keys stored under "" (that is, in
    the clear) and read with "pw" come back in the clear; neither call
    ends in an 'Invalid passphrase' error.  In both cases [getApiKeys]
    returns before it calls any primitive. *)
Lemma empty_passphrase_returns_envelope :
  Some "" <> Some "pw" /\
  (exists data, toy_set "{}" (Some "pw") [x01] [x02] = Encrypted string data [x01] [x02] /\
     toy_get (toy_set "{}" (Some "pw") [x01] [x02]) (Some "")
     = Returned string (Encrypted string data [x01] [x02])) /\
  toy_get (toy_set "{}" (Some "pw") [x01] [x02]) (Some "")
    <> Thrown string "Invalid passphrase" /\
  toy_get (toy_set "{}" (Some "") [x01] [x02]) (Some "pw")
    = Returned string (Plain string "{}") /\
  toy_get (toy_set "{}" (Some "") [x01] [x02]) (Some "pw")
    <> Thrown string "Invalid passphrase".
Proof.
  split; [discriminate|]. split; [eexists; split; reflexivity|].
  split; [discriminate|]. split; [reflexivity|discriminate].
Qed.

End Soul.

(* ------------------------------------------------------------------ *)
(** ** Facts about strings *)

Module JsFacts.
Import Js.
Local Open Scope string_scope.

Lemma length_append (a b : string) :
  String.length (a ++ b) = (String.length a + String.length b)%nat.
Proof.
  induction a as [|c r IH]; simpl; [reflexivity|]. rewrite IH. reflexivity.
Qed.

Lemma append_assoc (a b c : string) : (a ++ b) ++ c = a ++ (b ++ c).
Proof.
  induction a as [|x r IH]; simpl; [reflexivity|]. rewrite IH. reflexivity.
Qed.

Lemma append_empty_r (a : string) : a ++ "" = a.
Proof.
  induction a as [|x r IH]; simpl; [reflexivity|]. rewrite IH. reflexivity.
Qed.

Lemma toLowerCase_append (a b : string) :
  toLowerCase (a ++ b) = toLowerCase a ++ toLowerCase b.
Proof.
  induction a as [|c r IH]; simpl; [reflexivity|]. rewrite IH. reflexivity.
Qed.

Lemma toLowerCase_length (a : string) :
  String.length (toLowerCase a) = String.length a.
Proof.
  induction a as [|c r IH]; simpl; [reflexivity|]. rewrite IH. reflexivity.
Qed.

Lemma prefix_append (kw s t : string) :
  prefix kw s = true -> prefix kw (s ++ t) = true.
Proof.
  revert s. induction kw as [|k kr IH]; intros s H;
    [destruct s; [destruct t|]; reflexivity|].
  destruct s as [|c r]; simpl in *; [discriminate|].
  destruct (ascii_dec k c); [|discriminate]. apply IH. exact H.
Qed.

Lemma includes_append (s t kw : string) :
  includes s kw = true -> includes (s ++ t) kw = true.
Proof.
  induction s as [|c r IH]; intros H.
  - simpl in H. rewrite orb_false_r in H.
    destruct kw; [|discriminate]. destruct t; reflexivity.
  - cbn [includes] in H. apply orb_true_iff in H.
    change (String c r ++ t) with (String c (r ++ t)). cbn [includes].
    apply orb_true_iff. destruct H as [H|H].
    + left. apply (prefix_append kw (String c r) t). exact H.
    + right. apply IH. exact H.
Qed.

Lemma existsb_includes_append (s t : string) (kws : list string) :
  existsb (includes s) kws = true -> existsb (includes (s ++ t)) kws = true.
Proof.
  intros H. apply existsb_exists in H. destruct H as (kw & Hin & Hk).
  apply existsb_exists. exists kw. split; [exact Hin|].
  apply includes_append. exact Hk.
Qed.

Lemma skip_append (p : ascii -> bool) (s t : string) (c : ascii) (r : string) :
  skip p s = String c r -> skip p (s ++ t) = String c (r ++ t).
Proof.
  induction s as [|x xs IH]; simpl; intros H; [discriminate|].
  destruct (p x).
  - apply IH. exact H.
  - inversion H; subst. reflexivity.
Qed.

End JsFacts.

(* ------------------------------------------------------------------ *)
(** ** More of the task router: status, cancellation, dispatch *)

Module RouterMore.
Import Js Router.
Local Open Scope string_scope.
Local Open Scope list_scope.
Local Open Scope Z_scope.

(** Whether the executor behind a route is there. *)
Definition executor_available (st : State) (r : Route) : bool :=
  match r with
  | LOCAL => localModelLoaded st
  | CLOUD => cloudAvailable st
  end.

Definition valid_priorityb (t : Task) : bool :=
  js_eq (priority t) URGENT || js_eq (priority t) NORMAL || js_eq (priority t) BACKGROUND.

Lemma valid_priorityb_iff (t : Task) :
  valid_priorityb t = true <-> valid_priority t.
Proof.
  unfold valid_priorityb, valid_priority, js_eq, URGENT, NORMAL, BACKGROUND.
  destruct (priority t) as [p|].
  - rewrite !orb_true_iff, !Z.eqb_eq. split.
    + intros [[H|H]|H]; subst; auto.
    + intros [H|[H|H]]; inversion H; auto.
  - simpl. split; [discriminate|]. intros [H|[H|H]]; discriminate.
Qed.

Lemma class_counts (q : list Task) :
  (List.length (filter (fun t => js_eq (priority t) URGENT) q)
   + List.length (filter (fun t => js_eq (priority t) NORMAL) q)
   + List.length (filter (fun t => js_eq (priority t) BACKGROUND) q)
   = List.length (filter valid_priorityb q))%nat.
Proof.
  induction q as [|t r IH]; [reflexivity|].
  cbn [filter]. unfold valid_priorityb at 1.
  destruct (js_eq (priority t) URGENT) eqn:Eu;
    destruct (js_eq (priority t) NORMAL) eqn:En;
    destruct (js_eq (priority t) BACKGROUND) eqn:Eb;
    cbn [orb List.length]; try lia;
    unfold js_eq, URGENT, NORMAL, BACKGROUND in *;
    destruct (priority t); try discriminate;
    rewrite ?Z.eqb_eq in *; lia.
Qed.

Lemma filter_length_le {A : Type} (f : A -> bool) (l : list A) :
  (List.length (filter f l) <= List.length l)%nat.
Proof.
  induction l as [|x r IH]; simpl; [lia|]. destruct (f x); simpl; lia.
Qed.

(** X1.  The three class counters of the status never add up to more than the
    queue length, and they add up to it exactly when every queued task
    carries one of the three priorities. *)
Theorem queue_status_counts :
  forall st : State,
    let s := getQueueStatus st in
    (urgent s + normal s + background s <= queueLength s)%nat /\
    ((urgent s + normal s + background s = queueLength s)%nat <->
     Forall valid_priority (queue st)).
Proof.
  intros st. cbn [getQueueStatus urgent normal background queueLength].
  rewrite class_counts. split; [apply filter_length_le|]. split.
  - intros H. apply filter_length_forallb in H.
    rewrite forallb_forall in H. apply Forall_forall.
    intros t Ht. apply valid_priorityb_iff. auto.
  - intros H. f_equal. apply forallb_filter_id.
    apply forallb_forall. intros t Ht. apply valid_priorityb_iff.
    rewrite Forall_forall in H. auto.
Qed.

(** X2.  Without the privacy flag the route falls back: as soon as one of the
    two executors is available, the executor of the chosen route is. *)
Theorem routing_falls_back_to_available_executor :
  forall (st : State) (task : Task) (c : Z),
    privacyFlag task = false ->
    localModelLoaded st = true \/ cloudAvailable st = true ->
    executor_available st (makeRoutingDecision st task c) = true.
Proof.
  intros st task c Hp Hav. unfold makeRoutingDecision. rewrite Hp.
  destruct (localModelLoaded st) eqn:El; destruct (cloudAvailable st) eqn:Ec;
    destruct Hav as [Hav|Hav]; try discriminate;
    destruct (realtime task); simpl;
    destruct (String.eqb (mode (config st)) "local");
    destruct (String.eqb (mode (config st)) "cloud");
    destruct (threshold (config st) <=? c); simpl; rewrite ?El, ?Ec; reflexivity.
Qed.

Lemma routing_falls_back_to_available_executor_witness :
  let st := mkState [] None (mkConfig "local" 6 false) false true None in
  privacyFlag (plain_payload 0) = false /\
  (localModelLoaded st = true \/ cloudAvailable st = true) /\
  executor_available st (makeRoutingDecision st (plain_payload 0) 3) = true.
Proof.
  split; [reflexivity|]. split; [right; reflexivity|].
  exact (routing_falls_back_to_available_executor
           (mkState [] None (mkConfig "local" 6 false) false true None)
           (plain_payload 0) 3 eq_refl (or_intror eq_refl)).
Defined.

(** *** Which scores and priorities scoring can produce *)

Lemma tokens_above_4000 (text : string) :
  (4000 <? approx_tokens text) = true -> (1000 <? approx_tokens text) = true.
Proof.
  rewrite !Z.ltb_lt. lia.
Qed.

Lemma strict_score_range (text : string) : 0 <= strict_score text <= 9.
Proof.
  unfold strict_score, delta. pose proof (tokens_above_4000 text) as H41.
  destruct (4000 <? approx_tokens text);
    [rewrite (H41 eq_refl)|destruct (1000 <? approx_tokens text)];
    destruct (multi_step_signal text); destruct (domain_signal text); simpl; lia.
Qed.

(** X3.  The score is never 1, 8 or 10 (the cap at 10 never applies), and it
    reaches 8 only with all signals at once: more than 4000 approximate
    tokens, a multi-step marker and a domain keyword.  So a task becomes
    URGENT either through a realtime keyword or through all of these. *)
Theorem complexity_scores_and_urgency :
  forall (st : State) (task : Task),
    let c := fst (calculateComplexity st task) in
    let scored := snd (calculateComplexity st task) in
    In c [0; 2; 3; 4; 5; 6; 7; 9] /\
    (8 <= c <->
     (4000 <? approx_tokens (message_text task)) = true /\
     multi_step_signal (message_text task) = true /\
     domain_signal (message_text task) = true) /\
    (determinePriority scored c = URGENT <->
     realtime scored = true \/
     ((4000 <? approx_tokens (message_text task)) = true /\
      multi_step_signal (message_text task) = true /\
      domain_signal (message_text task) = true)).
Proof.
  intros st task c scored. subst c scored.
  rewrite calculateComplexity_score.
  set (text := message_text task).
  pose proof (tokens_above_4000 text) as H41.
  assert (Hcases :
    In (strict_score text) [0; 2; 3; 4; 5; 6; 7; 9] /\
    (8 <= strict_score text <->
     (4000 <? approx_tokens text) = true /\ multi_step_signal text = true /\
     domain_signal text = true)).
  { unfold strict_score, delta.
    destruct (4000 <? approx_tokens text) eqn:E4;
      [rewrite (H41 eq_refl)|destruct (1000 <? approx_tokens text)];
      destruct (multi_step_signal text); destruct (domain_signal text);
      (split; [simpl; tauto|]); split; intros H;
      try (exfalso; revert H; simpl; lia);
      try (destruct H as (H1 & H2 & H3); discriminate);
      try (repeat split; reflexivity); simpl; lia. }
  destruct Hcases as [Hin H8]. split; [exact Hin|]. split; [exact H8|].
  unfold determinePriority, URGENT, NORMAL, BACKGROUND.
  destruct (realtime (snd (calculateComplexity st task))) eqn:Er.
  - rewrite orb_true_r. split; auto.
  - rewrite orb_false_r. destruct (8 <=? strict_score text) eqn:E8.
    + apply Z.leb_le in E8. split; [|reflexivity]. intros _. right. apply H8. exact E8.
    + apply Z.leb_gt in E8. split.
      * destruct (4 <=? strict_score text); discriminate.
      * intros [H|H]; [discriminate|]. apply H8 in H. lia.
Qed.

(** *** [enqueueTask] always admits *)

Lemma evict_cases (q : list Task) :
  evict q = (q, []) \/
  exists before victim after,
    (MAX_QUEUE_DEPTH <= List.length q)%nat /\
    q = before ++ victim :: after /\
    is_background victim = true /\
    evict q = (before ++ after, [DROPPED (id victim) "Queue overflow"]).
Proof.
  unfold evict.
  destruct (MAX_QUEUE_DEPTH <=? List.length q)%nat eqn:El; [|left; reflexivity].
  destruct (findIndex is_background q) as [i|] eqn:E; [|left; reflexivity].
  destruct (findIndex_Some _ _ _ E) as (l1 & x & l2 & -> & <- & Hx & _).
  rewrite nth_error_middle, splice_remove_app. right.
  exists l1, x, l2. apply Nat.leb_le in El. auto.
Qed.

(** X4.  [enqueueTask] never refuses a task and never touches the current
    task; it removes at most one queued task, and only a BACKGROUND one;
    below [MAX_QUEUE_DEPTH] it removes none and posts nothing. *)
Theorem enqueueTask_always_admits :
  forall (st : State) (task : Task),
    let st' := fst (enqueueTask st task) in
    In task (queue st') /\
    currentTask st' = currentTask st /\
    (forall t, In t (queue st) -> In t (queue st') \/ priority t = Some BACKGROUND) /\
    (List.length (queue st) <= List.length (queue st') <= S (List.length (queue st)))%nat /\
    ((List.length (queue st) < MAX_QUEUE_DEPTH)%nat ->
     List.length (queue st') = S (List.length (queue st)) /\
     snd (enqueueTask st task) = []).
Proof.
  intros st task st'. subst st'. rewrite enqueueTask_eq. cbn [fst snd queue set_queue currentTask].
  destruct (insert_by_priority_split task (fst (evict (queue st))))
    as (l1 & l2 & Hsplit & Hins & _).
  split; [rewrite Hins; apply in_or_app; right; left; reflexivity|].
  split; [reflexivity|].
  assert (Hkeep : forall t, In t (fst (evict (queue st))) ->
                            In t (insert_by_priority task (fst (evict (queue st))))).
  { intros t Ht. rewrite Hins. rewrite Hsplit in Ht.
    apply in_app_or in Ht. apply in_or_app. destruct Ht; [left|right; right]; assumption. }
  rewrite insert_by_priority_length.
  destruct (evict_cases (queue st)) as [He|(b & v & a & Hlen & Hq & Hv & He)].
  - rewrite He in *. cbn [fst snd] in *. split; [intros t Ht; left; apply Hkeep; exact Ht|].
    split; [lia|]. intros _. split; reflexivity.
  - rewrite He in *. cbn [fst snd] in *. split.
    + intros t Ht. rewrite Hq in Ht. apply in_app_or in Ht.
      destruct Ht as [Ht|[<-|Ht]].
      * left. apply Hkeep. apply in_or_app. left. exact Ht.
      * right. apply is_background_iff. exact Hv.
      * left. apply Hkeep. apply in_or_app. right. exact Ht.
    + revert Hlen. rewrite Hq. rewrite !length_app. cbn [List.length].
      intros Hlen. split; [lia|]. intros Hlt. lia.
Qed.

Lemma enqueueTask_always_admits_witness :
  (List.length (queue running_state) < MAX_QUEUE_DEPTH)%nat /\
  List.length (queue (fst (enqueueTask running_state (queued_normal 1)))) = 1%nat /\
  snd (enqueueTask running_state (queued_normal 1)) = [].
Proof.
  assert (H : (List.length (queue running_state) < MAX_QUEUE_DEPTH)%nat)
    by (unfold MAX_QUEUE_DEPTH; simpl; lia).
  split; [exact H|].
  exact (proj2 (proj2 (proj2 (proj2
           (enqueueTask_always_admits running_state (queued_normal 1))))) H).
Defined.

(** *** [dequeueTask] *)

Lemma find_split {A : Type} (f : A -> bool) (l : list A) (u : A) :
  find f l = Some u ->
  exists l1 l2, l = l1 ++ u :: l2 /\ f u = true /\ Forall (fun x => f x = false) l1.
Proof.
  induction l as [|x r IH]; simpl; intros H; [discriminate|].
  destruct (f x) eqn:E.
  - inversion H; subst. exists [], r. auto.
  - destruct (IH H) as (l1 & l2 & -> & Hu & Hall).
    exists (x :: l1), l2. auto.
Qed.

Definition other_id (u t : Task) : bool := negb (String.eqb (id t) (id u)).

Lemma dequeueTask_cases (st : State) :
  dequeueTask st = (hd_error (queue st), set_queue st (tl (queue st)), []) \/
  exists cur u,
    currentTask st = Some cur /\
    js_lt (priority cur) (Some URGENT) = true /\
    find is_urgent (queue st) = Some u /\
    dequeueTask st =
      (Some u, set_queue st (filter (other_id u) (cur :: queue st)), [PREEMPTED (id cur)]).
Proof.
  unfold dequeueTask.
  destruct (currentTask st) as [cur|]; [|left; reflexivity].
  destruct (js_lt (priority cur) (Some URGENT)) eqn:El; [|left; reflexivity].
  fold is_urgent.
  destruct (find is_urgent (queue st)) as [u|] eqn:Ef; [|left; reflexivity].
  right. exists cur, u. auto.
Qed.

(** X5.  [dequeueTask] answers [null] exactly when the queue is empty, never
    makes the queue longer, never changes the current task, and posts
    either nothing or one PREEMPTED for the current task; it posts
    PREEMPTED only when the current task's priority is below URGENT and
    the task it returns is URGENT. *)
Theorem dequeueTask_behaviour :
  forall st : State,
    let next := fst (fst (dequeueTask st)) in
    let st' := snd (fst (dequeueTask st)) in
    let posted := snd (dequeueTask st) in
    (next = None <-> queue st = []) /\
    (List.length (queue st') <= List.length (queue st))%nat /\
    currentTask st' = currentTask st /\
    (posted = [] \/
     exists cur u,
       currentTask st = Some cur /\ next = Some u /\
       posted = [PREEMPTED (id cur)] /\
       js_lt (priority cur) (Some URGENT) = true /\
       priority u = Some URGENT).
Proof.
  intros st next st' posted. subst next st' posted.
  destruct (dequeueTask_cases st) as [H|(cur & u & Hcur & Hlt & Hfind & H)]; rewrite H;
    cbn [fst snd queue set_queue currentTask].
  - split; [destruct (queue st); simpl; split; congruence|].
    split; [destruct (queue st); simpl; lia|]. split; [reflexivity|]. left. reflexivity.
  - destruct (find_split _ _ _ Hfind) as (l1 & l2 & Hq & Hu & _).
    split; [split; [discriminate|intros He; rewrite He in Hq; destruct l1; discriminate]|].
    split.
    + rewrite Hq. cbn [filter].
      assert (Hle : (List.length (filter (other_id u) (l1 ++ u :: l2))
                     < List.length (l1 ++ u :: l2))%nat).
      { rewrite filter_app, !length_app. cbn [filter List.length].
        unfold other_id at 2. rewrite String.eqb_refl. cbn [negb].
        pose proof (filter_length_le (other_id u) l1).
        pose proof (filter_length_le (other_id u) l2). lia. }
      destruct (other_id u cur); cbn [List.length]; lia.
    + split; [reflexivity|]. right. exists cur, u. repeat split; auto.
      unfold is_urgent, js_eq in Hu. destruct (priority u); [|discriminate].
      apply Z.eqb_eq in Hu. congruence.
Qed.

(** X6.  With distinct task ids (the current task included) [dequeueTask]
    loses no task: either it hands out the head of the queue, or it hands
    out the first URGENT task and the queue becomes the preempted task
    followed by the other queued tasks in their order. *)
Theorem dequeueTask_loses_no_task :
  forall (st : State) (next : Task),
    NoDup (map id (queue st)) ->
    (forall cur, currentTask st = Some cur -> ~ In (id cur) (map id (queue st))) ->
    fst (fst (dequeueTask st)) = Some next ->
    let st' := snd (fst (dequeueTask st)) in
    queue st = next :: queue st' \/
    exists cur l1 l2,
      currentTask st = Some cur /\
      queue st = l1 ++ next :: l2 /\
      queue st' = cur :: l1 ++ l2 /\
      Permutation (next :: queue st') (cur :: queue st).
Proof.
  intros st next Hnd Hcur Hnext st'. subst st'.
  destruct (dequeueTask_cases st) as [H|(cur & u & Hc & Hlt & Hfind & H)];
    rewrite H in *; cbn [fst snd queue set_queue] in *.
  - left. destruct (queue st); simpl in *; [discriminate|]. congruence.
  - right. inversion Hnext; subst u.
    destruct (find_split _ _ _ Hfind) as (l1 & l2 & Hq & _ & _).
    exists cur, l1, l2. split; [exact Hc|]. split; [exact Hq|].
    assert (Hfilter : filter (other_id next) (cur :: queue st) = cur :: l1 ++ l2).
    { specialize (Hcur cur Hc). rewrite Hq in *.
      rewrite map_app in Hnd, Hcur. cbn [map] in Hnd, Hcur.
      cbn [filter]. unfold other_id at 1.
      destruct (String.eqb_spec (id cur) (id next)) as [E|E].
      - exfalso. apply Hcur. apply in_or_app. right. left. symmetry. exact E.
      - cbn [negb]. f_equal. rewrite filter_app. cbn [filter].
        unfold other_id at 2. rewrite String.eqb_refl. cbn [negb].
        apply NoDup_remove_2 in Hnd.
        assert (Hid : forall l, ~ In (id next) (map id l) -> filter (other_id next) l = l).
        { induction l as [|x r IH]; [reflexivity|]. cbn [map filter]. intros Hn.
          unfold other_id at 1.
          destruct (String.eqb_spec (id x) (id next)) as [Ex|Ex].
          - exfalso. apply Hn. left. exact Ex.
          - cbn [negb]. f_equal. apply IH. intros Hin. apply Hn. right. exact Hin. }
        rewrite !Hid; [reflexivity| |];
          intros Hin; apply Hnd; apply in_or_app; [right|left]; exact Hin. }
    split; [exact Hfilter|]. rewrite Hfilter, Hq.
    apply perm_trans with (cur :: next :: l1 ++ l2); [apply perm_swap|].
    apply perm_skip. apply Permutation_middle.
Qed.

Lemma dequeueTask_loses_no_task_witness :
  NoDup (map id (queue two_urgent_state)) /\
  fst (fst (dequeueTask two_urgent_state)) = Some (urgent_task 1) /\
  (queue two_urgent_state = urgent_task 1 :: queue (snd (fst (dequeueTask two_urgent_state))) \/
   exists cur l1 l2,
     currentTask two_urgent_state = Some cur /\
     queue two_urgent_state = l1 ++ urgent_task 1 :: l2 /\
     queue (snd (fst (dequeueTask two_urgent_state))) = cur :: l1 ++ l2 /\
     Permutation (urgent_task 1 :: queue (snd (fst (dequeueTask two_urgent_state))))
                 (cur :: queue two_urgent_state)).
Proof.
  assert (Hnd : NoDup (map id (queue two_urgent_state))).
  { simpl. repeat constructor; simpl; intuition discriminate. }
  assert (Hcur : forall cur, currentTask two_urgent_state = Some cur ->
                             ~ In (id cur) (map id (queue two_urgent_state))).
  { intros cur H. inversion H; subst. simpl. intuition discriminate. }
  split; [exact Hnd|]. split; [reflexivity|].
  exact (dequeueTask_loses_no_task two_urgent_state (urgent_task 1) Hnd Hcur eq_refl).
Defined.

(** *** The CANCEL and TASK messages *)

(** X7.  CANCEL takes the first queued task with the given id out of the queue
    and posts CANCELLED; when no queued task has the id (also when it is
    the id of the running task) nothing changes and nothing is posted.
    The current task is never touched, and with distinct ids no queued
    task has the id afterwards. *)
Theorem cancel_removes_the_queued_task :
  forall (w : Worker) (taskId : string),
    let st := state w in
    let w' := fst (onmessage w (CANCEL taskId)) in
    let st' := state w' in
    let posted := snd (onmessage w (CANCEL taskId)) in
    currentTask st' = currentTask st /\
    suspended w' = suspended w /\ microtasks w' = microtasks w /\
    ((~ In taskId (map id (queue st)) /\ w' = w /\ posted = []) \/
     (exists l1 t l2,
        queue st = l1 ++ t :: l2 /\ id t = taskId /\
        ~ In taskId (map id l1) /\
        queue st' = l1 ++ l2 /\ posted = [CANCELLED taskId])) /\
    (NoDup (map id (queue st)) -> ~ In taskId (map id (queue st'))).
Proof.
  intros w taskId st w' st' posted. subst st w' st' posted. cbn [onmessage].
  destruct (findIndex (fun t => String.eqb (id t) taskId) (queue (state w)))
    as [i|] eqn:E.
  - destruct (findIndex_Some _ _ _ E) as (l1 & t & l2 & Hq & Hi & Ht & Hall).
    apply String.eqb_eq in Ht. subst i.
    assert (Hl1 : ~ In taskId (map id l1)).
    { intros Hin. apply in_map_iff in Hin. destruct Hin as (x & Hx & Hin).
      rewrite Forall_forall in Hall. specialize (Hall x Hin).
      apply String.eqb_neq in Hall. contradiction. }
    cbn [fst snd state set_state suspended microtasks queue set_queue currentTask].
    rewrite Hq, splice_remove_app.
    split; [reflexivity|]. split; [reflexivity|]. split; [reflexivity|]. split.
    + right. exists l1, t, l2. auto.
    + intros Hnd. rewrite map_app in *. cbn [map] in Hnd.
      apply NoDup_remove_2 in Hnd. rewrite Ht in Hnd. exact Hnd.
  - cbn [fst snd]. apply findIndex_None in E.
    assert (Hno : ~ In taskId (map id (queue (state w)))).
    { intros Hin. apply in_map_iff in Hin. destruct Hin as (x & Hx & Hin).
      rewrite Forall_forall in E. specialize (E x Hin).
      apply String.eqb_neq in E. contradiction. }
    split; [reflexivity|]. split; [reflexivity|]. split; [reflexivity|].
    split; [left; auto|]. intros _. exact Hno.
Qed.

Lemma cancel_removes_the_queued_task_witness :
  let w := mkWorker two_urgent_state [] [] in
  NoDup (map id (queue (state w))) /\
  ~ In (digit_id 1)
       (map id (queue (state (fst (onmessage w (CANCEL (digit_id 1))))))).
Proof.
  assert (Hnd : NoDup (map id (queue two_urgent_state))).
  { simpl. repeat constructor; simpl; intuition discriminate. }
  split; [exact Hnd|].
  exact (proj2 (proj2 (proj2 (proj2
           (cancel_removes_the_queued_task (mkWorker two_urgent_state [] [])
                                           (digit_id 1))))) Hnd).
Defined.

(** Whether [processTask] waits for the memory engine before it hands
    the task on. *)
Definition awaits_memory (st : State) : bool :=
  match ragBooster st with
  | Some Returning => true
  | _ => false
  end.

(** The steps of the worker from the arrival of a TASK message to the
    hand-over of the task: the handler alone, or the handler, the answer
    of the memory engine to the call it has just suspended, and the
    continuation of that call. *)
Definition hand_over (w : Worker) (payload : Task) (now : Z) : list Input :=
  if awaits_memory (state w)
  then [Receive (TASK payload now); Settle (List.length (suspended w)); Tick]
  else [Receive (TASK payload now)].

(** X8.  In every state the worker can reach, a TASK message is handed on
    without being queued: the worker posts ROUTED and then the EXECUTE
    message of the very route ROUTED announces (after the memory engine
    has answered, when there is one), and the task then in the current
    slot carries that route, the score (between 0 and 9) and the priority
    derived from it.  The [finally] block that runs next frees the slot
    and leaves the worker as it was before the message. *)
Theorem idle_submission_is_dispatched :
  forall (inputs : list Input) (w : Worker) (before : list Event)
         (payload : Task) (now : Z),
    run initial_worker inputs = Some (w, before) ->
    microtasks w = [] ->
    exists t' r c p,
      let posted := [ROUTED (id payload) r c p (realtime t') (privacyFlag t');
                     execute_message r (id payload)] in
      run w (hand_over w payload now) =
        Some (mkWorker (set_currentTask (state w) (Some t')) (suspended w) [Finally],
              posted) /\
      run w (hand_over w payload now ++ [Tick]) = Some (w, posted) /\
      id t' = id payload /\ message t' = message payload /\ receivedAt t' = now /\
      complexity t' = Some c /\ priority t' = Some p /\ route t' = Some r /\
      0 <= c <= 9 /\
      c = fst (calculateComplexity (state w) payload) /\
      p = determinePriority t' c /\
      r = makeRoutingDecision (state w) t' c.
Proof.
  intros inputs w before payload now Hrun Hm.
  destruct (run_unqueued inputs _ _ _ initial_worker_unqueued Hrun) as [Hu _].
  pose proof (unqueued_idle w Hu Hm) as Hc. destruct Hu as [Hq _].
  set (task := with_receivedAt payload now).
  set (call := score_and_route (state w) task).
  destruct (score_and_route_facts (state w) task)
    as (Hid & Hmsg & Hrec & Hcx & Hpr & Hro & Hc1 & Hp1 & Hr1).
  fold call in Hid, Hmsg, Hrec, Hcx, Hpr, Hro, Hc1, Hp1, Hr1.
  assert (Hscore : s_complexity call = fst (calculateComplexity (state w) payload)).
  { rewrite Hc1, !calculateComplexity_score. reflexivity. }
  exists (s_task call), (s_route call), (s_complexity call), (s_priority call).
  cbn zeta.
  assert (Hfin : forall susp,
             finally_block (mkWorker (set_currentTask (state w) (Some (s_task call)))
                                     susp [])
             = (mkWorker (state w) susp [], [])).
  { intros susp. rewrite finally_block_empty by exact Hq.
    unfold set_state, set_currentTask. cbn [state suspended microtasks queue config
      localModelLoaded cloudAvailable ragBooster].
    destruct w as [st su mi]. destruct st as [q cur cfg l cl rb].
    cbn in Hc |- *. rewrite Hc. reflexivity. }
  assert (Hw : w = mkWorker (state w) (suspended w) [])
    by (destruct w; cbn in Hm |- *; rewrite Hm; reflexivity).
  assert (Hhand :
    run w (hand_over w payload now) =
    Some (mkWorker (set_currentTask (state w) (Some (s_task call))) (suspended w)
                   [Finally],
          [ROUTED (id payload) (s_route call) (s_complexity call) (s_priority call)
                  (realtime (s_task call)) (privacyFlag (s_task call));
           execute_message (s_route call) (id payload)])).
  { unfold hand_over, awaits_memory.
    destruct (ragBooster (state w)) as [[|]|] eqn:Erb.
    - cbn [run step]. rewrite Hm. cbn [onmessage]. rewrite Hc, processTask_eq, Erb.
      fold task call. rewrite Hm. reflexivity.
    - cbn [run step]. rewrite Hm. cbn [onmessage]. rewrite Hc, processTask_eq, Erb.
      fold task call. cbn [suspended microtasks state].
      replace (nth_error (suspended w ++ [call]) (List.length (suspended w)))
        with (Some call)
        by (rewrite nth_error_app2, Nat.sub_diag by lia; reflexivity).
      rewrite splice_remove_app, app_nil_r, Hm.
      cbn [app microtasks state suspended run_microtask].
      rewrite dispatch_eq by exact Hro. cbn [state suspended microtasks app].
      rewrite Hid. reflexivity.
    - cbn [run step]. rewrite Hm. cbn [onmessage]. rewrite Hc, processTask_eq, Erb.
      fold task call. rewrite Hm. reflexivity. }
  split; [exact Hhand|]. split.
  - rewrite run_app, Hhand. cbn [run step microtasks state suspended run_microtask].
    rewrite Hfin, <- Hw. reflexivity.
  - rewrite Hid, Hmsg, Hrec. repeat split; auto.
    + rewrite Hscore, calculateComplexity_score. apply strict_score_range.
    + rewrite Hscore, calculateComplexity_score. apply strict_score_range.
Qed.

Lemma idle_submission_is_dispatched_witness :
  let w := mkWorker (initRAG initial_state (Some Returning)) [] [] in
  run initial_worker [Receive (INIT_RAG (Some Returning))] = Some (w, []) /\
  microtasks w = [] /\
  hand_over w (plain_payload 0) 5
  = [Receive (TASK (plain_payload 0) 5); Settle 0; Tick] /\
  exists t' r c p,
    run w (hand_over w (plain_payload 0) 5) =
      Some (mkWorker (set_currentTask (state w) (Some t')) (suspended w) [Finally],
            [ROUTED (id (plain_payload 0)) r c p (realtime t') (privacyFlag t');
             execute_message r (id (plain_payload 0))]) /\
    run w (hand_over w (plain_payload 0) 5 ++ [Tick]) =
      Some (w, [ROUTED (id (plain_payload 0)) r c p (realtime t') (privacyFlag t');
                execute_message r (id (plain_payload 0))]) /\
    id t' = id (plain_payload 0) /\ message t' = message (plain_payload 0) /\
    receivedAt t' = 5 /\
    complexity t' = Some c /\ priority t' = Some p /\ route t' = Some r /\
    0 <= c <= 9 /\
    c = fst (calculateComplexity (state w) (plain_payload 0)) /\
    p = determinePriority t' c /\
    r = makeRoutingDecision (state w) t' c.
Proof.
  split; [reflexivity|]. split; [reflexivity|]. split; [reflexivity|].
  exact (idle_submission_is_dispatched
           [Receive (INIT_RAG (Some Returning))]
           (mkWorker (initRAG initial_state (Some Returning)) [] []) []
           (plain_payload 0) 5 eq_refl eq_refl).
Defined.

(** *** The score of a longer message *)

Definition with_message (task : Task) (m : string) : Task :=
  mkTask (id task) (Some m) (receivedAt task) (complexity task) (priority task)
         (route task) (realtime task) (privacyFlag task).

Lemma numbered_here_append (s t : string) :
  numbered_here s = true -> numbered_here (s ++ t) = true.
Proof.
  destruct s as [|c r]; [discriminate|].
  change (String c r ++ t)%string with (String c (r ++ t)%string).
  cbn [numbered_here]. destruct (is_digit c); [|discriminate].
  destruct (skip is_digit r) as [|d1 r1] eqn:E1; [discriminate|].
  rewrite (JsFacts.skip_append _ _ t _ _ E1).
  destruct (skip is_space (String d1 r1)) as [|d r2] eqn:E2; [discriminate|].
  change (String d1 (r1 ++ t)%string) with (String d1 r1 ++ t)%string.
  rewrite (JsFacts.skip_append _ (String d1 r1) t _ _ E2).
  destruct ((code d =? 46)%N || (code d =? 41)%N); [|discriminate].
  destruct r2 as [|e r3]; [discriminate|].
  change (String e r3 ++ t)%string with (String e (r3 ++ t)%string).
  destruct (is_space e) eqn:Ee; [|discriminate].
  destruct (skip is_space r3) as [|w r4] eqn:E3; [discriminate|].
  intros H. cbn [append]. rewrite Ee, (JsFacts.skip_append _ _ t _ _ E3). exact H.
Qed.

Lemma numbered_from_append (s t : string) :
  forall prev, numbered_from prev s = true -> numbered_from prev (s ++ t) = true.
Proof.
  induction s as [|c r IH]; intros prev H; [discriminate|].
  change (String c r ++ t)%string with (String c (r ++ t)%string).
  cbn [numbered_from] in *. apply orb_true_iff in H. apply orb_true_iff.
  destruct H as [H|H].
  - left. apply andb_true_iff in H. destruct H as [Hp Hn].
    rewrite Hp. cbn [andb].
    apply (numbered_here_append (String c r) t). exact Hn.
  - right. apply IH. exact H.
Qed.

Lemma approx_tokens_append (s t : string) :
  approx_tokens s <= approx_tokens (s ++ t).
Proof.
  unfold approx_tokens, ceil_div. rewrite JsFacts.length_append, Nat2Z.inj_add.
  assert (H : - (Z.of_nat (String.length s) + Z.of_nat (String.length t)) / 4
              <= - Z.of_nat (String.length s) / 4).
  { apply Z.div_le_mono; lia. }
  lia.
Qed.

Lemma delta_monotone (a b : bool) (d : Z) :
  0 <= d -> (a = true -> b = true) -> delta a d <= delta b d.
Proof.
  intros Hd H. unfold delta. destruct a; [rewrite (H eq_refl); lia|].
  destruct b; lia.
Qed.

(** X9.  Text appended to a message never lowers its complexity score. *)
Theorem appended_text_never_lowers_the_score :
  forall (st : State) (task : Task) (more : string),
    fst (calculateComplexity st task)
    <= fst (calculateComplexity st
              (with_message task (message_text task ++ more)%string)).
Proof.
  intros st task more. rewrite !calculateComplexity_score.
  unfold with_message, message_text at 2. cbn [message].
  set (text := message_text task).
  pose proof (approx_tokens_append text more) as Htok.
  unfold strict_score. apply Z.min_le_compat_r.
  repeat apply Z.add_le_mono; apply delta_monotone; try lia.
  - unfold multi_step_signal, hasNumberedSteps. rewrite !orb_true_iff.
    rewrite JsFacts.toLowerCase_append. intros [H|H].
    + left. apply JsFacts.existsb_includes_append. exact H.
    + right. apply numbered_from_append. exact H.
  - unfold domain_signal. rewrite JsFacts.toLowerCase_append. intros H.
    apply existsb_exists in H. destruct H as (fam & Hin & Hk).
    apply existsb_exists. exists fam. split; [exact Hin|].
    apply JsFacts.existsb_includes_append. exact Hk.
Qed.

End RouterMore.

(* ------------------------------------------------------------------ *)
(** ** More of the gravitational bit: capacity, overwriting, serialization *)

Module GravityMore.
Import Js JsText Gravity.
Local Open Scope string_scope.
Local Open Scope list_scope.
Local Open Scope Z_scope.

(** *** What [decode] returns for any value and any number of states *)

Lemma decode_encode_low_bits (value : Z) (b : GravitationalBit) :
  decode (encode value b) = value mod 2 ^ Z.of_nat (capacity b).
Proof.
  apply Z.bits_inj'. intros j Hj.
  rewrite decode_testbit, encode_occupied, Z.testbit_mod_pow2 by lia.
  rewrite Z2Nat.id by assumption. f_equal.
  destruct (Nat.ltb_spec (Z.to_nat j) (capacity b));
    destruct (Z.ltb_spec j (Z.of_nat (capacity b))); try reflexivity; lia.
Qed.

(** X10.  Whatever the value (negative values included) and whatever the number
    of states, [decode] after [encode] returns the value reduced modulo 2
    to the capacity; so [verify] holds exactly for the values from 0 to
    2^capacity - 1. *)
Theorem decode_keeps_the_low_capacity_bits :
  forall (value : Z) (b : GravitationalBit),
    decode (encode value b) = value mod 2 ^ Z.of_nat (capacity b) /\
    (verify (encode value b) = true <-> 0 <= value < 2 ^ Z.of_nat (capacity b)).
Proof.
  intros value b.
  pose proof (decode_encode_low_bits value b) as Hd.
  split; [exact Hd|].
  unfold verify. rewrite Hd. cbn [encode encodedValue].
  assert (Hpos : 0 < 2 ^ Z.of_nat (capacity b)) by (apply Z.pow_pos_nonneg; lia).
  rewrite Z.eqb_eq. split.
  - intros H. rewrite <- H. apply Z.mod_pos_bound. exact Hpos.
  - intros H. apply Z.mod_small. exact H.
Qed.

(** *** Encoding twice *)

Definition labels (s : OrbitalState) : Z * Z * Z * QArith_base.Q :=
  (Orbital.n s, Orbital.l s, Orbital.m s, Orbital.energy s).

Lemma update_nth_labels (sts : list OrbitalState) :
  forall i, map labels (update_nth i (set_occupied true) sts) = map labels sts.
Proof.
  induction sts as [|x r IH]; intros [|i]; simpl; try reflexivity.
  rewrite IH. reflexivity.
Qed.

Lemma encode_from_labels (value : Z) (idxs : list nat) :
  forall sts, map labels (encode_from value idxs sts) = map labels sts.
Proof.
  induction idxs as [|i r IH]; intros sts; [reflexivity|].
  unfold encode_from in *. cbn [fold_left]. rewrite IH.
  destruct (_ && _); [apply update_nth_labels|reflexivity].
Qed.

Lemma encode_labels (value : Z) (b : GravitationalBit) :
  map labels (states (encode value b)) = map labels (states b).
Proof.
  unfold encode. cbn [states].
  fold (encode_from value (seq 0 (Nat.min (List.length (map (set_occupied false) (states b))) 128))
                    (map (set_occupied false) (states b))).
  rewrite encode_from_labels, map_map. reflexivity.
Qed.

(** Two state lists with the same labels and the same occupation are the
    same list. *)
Lemma states_ext (xs ys : list OrbitalState) :
  map labels xs = map labels ys ->
  (forall i, occupied_at xs i = occupied_at ys i) ->
  xs = ys.
Proof.
  revert ys. induction xs as [|x r IH]; intros [|y s] Hl Ho; simpl in Hl;
    try discriminate; [reflexivity|].
  inversion Hl as [[Hn Hll Hm He Hr]].
  f_equal.
  - specialize (Ho 0%nat). unfold occupied_at in Ho. simpl in Ho.
    destruct x, y. simpl in *. congruence.
  - apply IH; [exact Hr|]. intros i. exact (Ho (S i)).
Qed.

(** X11.  [encode] starts from a clean slate: the states after encoding a
    second value are those of encoding it alone, and [decode] no longer
    sees anything of the first value. *)
Theorem encode_overwrites_the_previous_value :
  forall (first second : Z) (b : GravitationalBit),
    encode second (encode first b) = encode second b /\
    decode (encode second (encode first b))
      = second mod 2 ^ Z.of_nat (capacity b).
Proof.
  intros first second b.
  assert (Hcap : capacity (encode first b) = capacity b).
  { unfold capacity. rewrite encode_length. reflexivity. }
  assert (Heq : encode second (encode first b) = encode second b).
  { assert (Hs : states (encode second (encode first b)) = states (encode second b)).
    { apply states_ext.
      - rewrite !encode_labels. reflexivity.
      - intros i. rewrite !encode_occupied, Hcap. reflexivity. }
    unfold encode in *. cbn [states nMax encodedValue] in *. rewrite Hs. reflexivity. }
  split; [exact Heq|].
  rewrite Heq. apply decode_encode_low_bits.
Qed.

(** *** Serialization *)

Lemma copy_states_same_labels (fresh : list OrbitalState) :
  forall data, map labels fresh = map labels data -> copy_states fresh data = data.
Proof.
  induction fresh as [|f fr IH]; intros [|d dr] H; simpl in *; try discriminate;
    [reflexivity|].
  inversion H as [[Hn Hl Hm He Hr]]. rewrite (IH dr Hr).
  destruct f, d. simpl in *. congruence.
Qed.

(** X12.  A bit created by the constructor and then encoded (any number of
    times) comes back unchanged from [deserialize(serialize())]: states,
    [nMax] and the encoded value. *)
Theorem deserialize_serialize :
  forall (b : GravitationalBit),
    map labels (states b) = map labels (generateStates (nMax b)) ->
    deserialize (serialize b) = b /\
    (forall value, deserialize (serialize (encode value b)) = encode value b).
Proof.
  assert (H : forall b, map labels (states b) = map labels (generateStates (nMax b)) ->
                        deserialize (serialize b) = b).
  { intros b Hl. unfold deserialize, serialize, new.
    cbn [s_nMax s_states s_encodedValue states nMax].
    rewrite copy_states_same_labels by (symmetry; exact Hl).
    destruct b. reflexivity. }
  intros b Hl. split; [apply H; exact Hl|].
  intros value. apply H. rewrite encode_labels. exact Hl.
Qed.

Lemma deserialize_serialize_witness :
  map labels (states (new 3)) = map labels (generateStates (nMax (new 3))) /\
  deserialize (serialize (encode 5 (new 3))) = encode 5 (new 3).
Proof.
  split; [reflexivity|].
  exact (proj2 (deserialize_serialize (new 3) eq_refl) 5).
Defined.

(** *** How many states a bit has *)

Lemma insert_by_energy_length (x : OrbitalState) (sorted : list OrbitalState) :
  List.length (insert_by_energy x sorted) = S (List.length sorted).
Proof.
  induction sorted as [|y r IH]; simpl; [reflexivity|].
  destruct (QArith_base.Qle_bool _ _); simpl; [rewrite IH|]; reflexivity.
Qed.

Lemma sort_by_energy_length (sts : list OrbitalState) :
  List.length (sort_by_energy sts) = List.length sts.
Proof.
  unfold sort_by_energy.
  assert (H : forall acc, List.length (fold_left (fun sorted x => insert_by_energy x sorted) sts acc)
                          = (List.length sts + List.length acc)%nat).
  { induction sts as [|x r IH]; intros acc; simpl; [reflexivity|].
    rewrite IH, insert_by_energy_length. lia. }
  rewrite H. simpl. lia.
Qed.

(** The states of one shell [n]: [2 l + 1] for each [l] below [n]. *)
Lemma shell_size (n : nat) (f : nat -> nat -> OrbitalState) :
  List.length (flat_map (fun l => map (f l) (seq 0 (2 * l + 1))) (seq 0 n)) = (n * n)%nat.
Proof.
  induction n as [|n IH]; [reflexivity|].
  rewrite seq_S, flat_map_app, length_app, IH. cbn [flat_map Nat.add].
  rewrite app_nil_r, length_map, length_seq. lia.
Qed.

Lemma generated_length (nMax : nat) :
  (6 * List.length (generated nMax) = nMax * (nMax + 1) * (2 * nMax + 1))%nat.
Proof.
  unfold generated. induction nMax as [|k IH]; [reflexivity|].
  rewrite seq_S, flat_map_app, length_app. cbn [flat_map].
  rewrite app_nil_r.
  rewrite (shell_size (1 + k)
             (fun l m => Orbital.mkOrbitalState (Z.of_nat (1 + k)) (Z.of_nat l)
                           (Z.of_nat m - Z.of_nat l) false
                           (level_energy (Z.of_nat (1 + k)) (Z.of_nat l)))).
  nia.
Qed.

(** X13.  A bit with [nMax] shells has nMax (nMax + 1) (2 nMax + 1) / 6 states;
    its capacity reaches the 128 bits of a fingerprint exactly from
    [nMax = 7] on.  From there every 128-bit value survives
    [encode]/[decode]; below, the value 2^127 does not. *)
Theorem number_of_states_and_capacity :
  forall nMax : nat,
    (6 * List.length (states (new nMax)) = nMax * (nMax + 1) * (2 * nMax + 1))%nat /\
    (capacity (new nMax) = 128%nat <-> (7 <= nMax)%nat) /\
    ((7 <= nMax)%nat ->
     forall v, 0 <= v < 2 ^ 128 -> decode (encode v (new nMax)) = v) /\
    ((nMax < 7)%nat -> decode (encode (2 ^ 127) (new nMax)) = 0).
Proof.
  intros nMax.
  assert (Hlen : (6 * List.length (states (new nMax))
                  = nMax * (nMax + 1) * (2 * nMax + 1))%nat).
  { unfold new, generateStates. cbn [states]. rewrite sort_by_energy_length.
    apply generated_length. }
  assert (Hcap : capacity (new nMax) = 128%nat <-> (7 <= nMax)%nat).
  { unfold capacity. split; intros H.
    - destruct (Nat.le_gt_cases 7 nMax) as [Hge|Hlt]; [exact Hge|exfalso].
      assert (Hb : (List.length (states (new nMax)) <= 91)%nat) by nia.
      lia.
    - assert (Hb : (140 <= List.length (states (new nMax)))%nat) by nia.
      lia. }
  split; [exact Hlen|]. split; [exact Hcap|]. split.
  - intros Hge v Hv. rewrite decode_encode_low_bits.
    rewrite (proj2 Hcap Hge). apply Z.mod_small. exact Hv.
  - intros Hlt. rewrite decode_encode_low_bits.
    assert (Hb : (capacity (new nMax) <= 91)%nat).
    { unfold capacity. assert ((List.length (states (new nMax)) <= 91)%nat) by nia. lia. }
    apply Z.bits_inj'. intros j Hj.
    rewrite Z.testbit_mod_pow2, Z.bits_0 by lia.
    rewrite Z.pow2_bits_eqb by lia.
    destruct (Z.ltb_spec j (Z.of_nat (capacity (new nMax)))); [|reflexivity].
    replace (127 =? j) with false by (symmetry; apply Z.eqb_neq; lia). reflexivity.
Qed.

Lemma number_of_states_and_capacity_witness :
  (7 <= 8)%nat /\ 0 <= 12345 < 2 ^ 128 /\ decode (encode 12345 (new 8)) = 12345.
Proof.
  assert (H7 : (7 <= 8)%nat) by lia.
  assert (Hv : 0 <= 12345 < 2 ^ 128).
  { split; [apply Z.leb_le|apply Z.ltb_lt]; vm_compute; reflexivity. }
  split; [exact H7|]. split; [exact Hv|].
  exact (proj1 (proj2 (proj2 (number_of_states_and_capacity 8))) H7 12345 Hv).
Defined.

(** *** Chunking *)

Lemma join_cons (sep x : string) (l : list string) :
  l <> [] -> join sep (x :: l) = (x ++ sep ++ join sep l)%string.
Proof.
  destruct l; [congruence|]. reflexivity.
Qed.

Lemma join_app (sep : string) (l1 l2 : list string) :
  l1 <> [] -> l2 <> [] ->
  join sep (l1 ++ l2) = (join sep l1 ++ sep ++ join sep l2)%string.
Proof.
  induction l1 as [|x r IH]; intros H1 H2; [congruence|].
  destruct r as [|y r'].
  - simpl app. rewrite join_cons by assumption. reflexivity.
  - change ((x :: y :: r') ++ l2) with (x :: ((y :: r') ++ l2)).
    rewrite join_cons by (simpl; discriminate).
    rewrite IH by (assumption || discriminate).
    rewrite (join_cons sep x (y :: r')) by discriminate.
    rewrite !JsFacts.append_assoc. reflexivity.
Qed.

(** The groups of sentences behind the chunks: [chunk_loop] with the
    joins left undone. *)
Fixpoint chunk_groups (sentences : list string) (currentChunk : list string)
  (currentWordCount targetWordCount : nat) : list (list string) :=
  match sentences with
  | [] =>
      match currentChunk with
      | [] => []
      | _ :: _ => [currentChunk]
      end
  | sentence :: rest =>
      let wordCount := List.length (split_ws sentence) in
      let nonempty := match currentChunk with [] => false | _ :: _ => true end in
      if (targetWordCount <? currentWordCount + wordCount)%nat && nonempty
      then currentChunk :: chunk_groups rest [sentence] wordCount targetWordCount
      else chunk_groups rest (currentChunk ++ [sentence]) (currentWordCount + wordCount)%nat
                        targetWordCount
  end.

Definition counted_words (group : list string) : nat :=
  list_sum (map (fun sentence => List.length (split_ws sentence)) group).

Lemma chunk_loop_groups (sentences : list string) :
  forall cur cnt target,
    chunk_loop sentences cur cnt target =
    map (join " ") (chunk_groups sentences cur cnt target).
Proof.
  induction sentences as [|s rest IH]; intros cur cnt target; simpl.
  - destruct cur; reflexivity.
  - destruct (_ && _); simpl; rewrite IH; reflexivity.
Qed.

Lemma chunk_groups_concat (sentences : list string) :
  forall cur cnt target,
    List.concat (chunk_groups sentences cur cnt target) = cur ++ sentences.
Proof.
  induction sentences as [|s rest IH]; intros cur cnt target; simpl.
  - destruct cur; simpl; rewrite ?app_nil_r; reflexivity.
  - destruct (_ && _); simpl; rewrite IH; [reflexivity|].
    rewrite <- app_assoc. reflexivity.
Qed.

Definition well_sized (target : nat) (group : list string) : Prop :=
  group <> [] /\ (List.length group = 1%nat \/ (counted_words group <= target)%nat).

Lemma counted_words_app (g1 g2 : list string) :
  counted_words (g1 ++ g2) = (counted_words g1 + counted_words g2)%nat.
Proof.
  unfold counted_words. rewrite map_app, list_sum_app. reflexivity.
Qed.

Lemma chunk_groups_sized (sentences : list string) :
  forall cur cnt target,
    cnt = counted_words cur ->
    (cur = [] \/ well_sized target cur) ->
    Forall (well_sized target) (chunk_groups sentences cur cnt target).
Proof.
  induction sentences as [|s rest IH]; intros cur cnt target Hcnt Hcur; simpl.
  - destruct cur; [constructor|]. destruct Hcur as [H|H]; [discriminate|].
    constructor; [exact H|constructor].
  - destruct cur as [|c cs].
    + rewrite andb_false_r. apply IH.
      * subst cnt. unfold counted_words. simpl. lia.
      * right. split; [discriminate|left; reflexivity].
    + rewrite andb_true_r.
      destruct (Nat.ltb_spec target (cnt + List.length (split_ws s))) as [Hlt|Hge].
      * constructor.
        -- destruct Hcur as [H|H]; [discriminate|exact H].
        -- apply IH; [unfold counted_words; simpl; lia|].
           right. split; [discriminate|left; reflexivity].
      * apply IH.
        -- rewrite counted_words_app. subst cnt. unfold counted_words at 3. simpl. lia.
        -- right. split; [destruct cs; discriminate|]. right.
           rewrite counted_words_app. subst cnt. unfold counted_words at 2. simpl. lia.
Qed.

Lemma split_sentences_go_nonempty (s : string) :
  forall piece a b, split_sentences_go s piece a b <> [].
Proof.
  induction s as [|c r IH]; intros piece a b; simpl; [discriminate|].
  destruct (b && is_space c); [apply IH|].
  destruct (a && is_space c); [discriminate|apply IH].
Qed.

Lemma join_groups (groups : list (list string)) :
  Forall (fun g => g <> []) groups ->
  join " " (map (join " ") groups) = join " " (List.concat groups).
Proof.
  induction groups as [|g gs IH]; intros H; [reflexivity|].
  inversion H as [|? ? Hg Hgs]; subst. cbn [map List.concat].
  destruct gs as [|g2 gs'].
  - simpl. rewrite app_nil_r. reflexivity.
  - rewrite join_cons by discriminate. rewrite IH by assumption.
    rewrite join_app; [reflexivity|assumption|].
    inversion Hgs; subst. cbn [List.concat]. destruct g2; [congruence|discriminate].
Qed.

Lemma chunkText_nonempty (text : string) (targetWordCount : nat) :
  exists c r, chunkText text targetWordCount = c :: r.
Proof.
  unfold chunkText. rewrite chunk_loop_groups.
  pose proof (chunk_groups_concat (split_sentences text) [] 0 targetWordCount) as Hc.
  destruct (chunk_groups (split_sentences text) [] 0 targetWordCount) as [|g gs].
  - simpl in Hc. symmetry in Hc. exfalso. revert Hc. apply split_sentences_go_nonempty.
  - simpl. eauto.
Qed.

(** X14.  [chunkText] loses no sentence and invents none: the chunks are the
    sentences of the text, in order, grouped and joined with one blank;
    there is always at least one chunk (the empty text gives one empty
    chunk); and a chunk that holds more than one sentence never counts
    more words than the target. *)
Theorem chunkText_keeps_every_sentence :
  forall (text : string) (targetWordCount : nat),
    exists groups,
      chunkText text targetWordCount = map (join " ") groups /\
      List.concat groups = split_sentences text /\
      Forall (well_sized targetWordCount) groups /\
      chunkText text targetWordCount <> [] /\
      join " " (chunkText text targetWordCount) = join " " (split_sentences text).
Proof.
  intros text target. unfold chunkText.
  exists (chunk_groups (split_sentences text) [] 0 target).
  assert (Hc : List.concat (chunk_groups (split_sentences text) [] 0 target)
               = split_sentences text) by apply chunk_groups_concat.
  assert (Hs : Forall (well_sized target) (chunk_groups (split_sentences text) [] 0 target)).
  { apply chunk_groups_sized; [reflexivity|left; reflexivity]. }
  rewrite chunk_loop_groups.
  split; [reflexivity|]. split; [exact Hc|]. split; [exact Hs|]. split.
  - intros Hnil. apply map_eq_nil in Hnil. rewrite Hnil in Hc. simpl in Hc.
    symmetry in Hc. revert Hc. apply split_sentences_go_nonempty.
  - rewrite join_groups, Hc; [reflexivity|].
    eapply Forall_impl; [|exact Hs]. intros g [Hg _]. exact Hg.
Qed.

(** *** The cache of [GravitationalMemory] *)

Lemma append_inj_l (s a b : string) : (s ++ a = s ++ b)%string -> a = b.
Proof.
  induction s as [|c r IH]; simpl; intros H; [exact H|].
  injection H as H. apply IH. exact H.
Qed.

Lemma decimal_inj (i j : nat) : decimal i = decimal j -> i = j.
Proof.
  unfold decimal. intros H.
  apply (f_equal DecimalString.NilEmpty.uint_of_string) in H.
  rewrite !DecimalString.NilEmpty.usu in H. injection H as H.
  apply DecimalNat.Unsigned.to_uint_inj. exact H.
Qed.

Section MemoryMore.

Variable sha256 : list byte -> list byte.

(** The key [store] gives to chunk [i] of document [docId]. *)
Definition chunk_key (docId : string) (i : nat) : string :=
  (docId ++ "_chunk_" ++ decimal i)%string.

(** [cache.get(key)] *)
Fixpoint cache_get (cache : list (string * ChunkData)) (k : string) : option ChunkData :=
  match cache with
  | [] => None
  | (k', v) :: r => if String.eqb k' k then Some v else cache_get r k
  end.

(** [GravitationalMemory.verify(key)].  [retrieveFn] is the look-up in the
    backing store that the constructor may have been given; it is asked
    only when the cache has no chunk under [key]. *)
Definition memory_verify (cache : list (string * ChunkData))
  (retrieveFn : option (string -> option ChunkData)) (k : string) : bool :=
  let chunk :=
    match cache_get cache k with
    | Some c => Some c
    | None => match retrieveFn with Some f => f k | None => None end
    end in
  match chunk with
  | None => false
  | Some c => verify_chunk sha256 c
  end.

Lemma chunk_key_inj (docId : string) (i j : nat) :
  chunk_key docId i = chunk_key docId j -> i = j.
Proof.
  unfold chunk_key. intros H.
  apply append_inj_l in H. apply (append_inj_l "_chunk_") in H.
  apply decimal_inj. exact H.
Qed.

Lemma store_loop_keys (docId : string) (chunks : list string) :
  forall i, map key (store_loop sha256 docId i chunks)
            = map (chunk_key docId) (seq i (List.length chunks)).
Proof.
  induction chunks as [|c r IH]; intros i; simpl; [reflexivity|].
  rewrite IH. reflexivity.
Qed.

Lemma store_loop_texts (docId : string) (chunks : list string) :
  forall i, map text (store_loop sha256 docId i chunks) = chunks.
Proof.
  induction chunks as [|c r IH]; intros i; simpl; [reflexivity|].
  rewrite IH. reflexivity.
Qed.

Lemma store_loop_keys_NoDup (docId : string) (chunks : list string) (i : nat) :
  NoDup (map key (store_loop sha256 docId i chunks)).
Proof.
  rewrite store_loop_keys.
  generalize (seq_NoDup (List.length chunks) i).
  generalize (seq i (List.length chunks)) as l.
  induction l as [|a l IH]; intros Hnd; simpl; [constructor|].
  inversion Hnd as [|? ? Ha Hl]; subst. constructor; [|apply IH; exact Hl].
  intros Hin. apply in_map_iff in Hin. destruct Hin as (b & Hb & Hin).
  apply chunk_key_inj in Hb. subst b. contradiction.
Qed.

Lemma cache_get_set (cache : list (string * ChunkData)) (k k' : string) (v : ChunkData) :
  cache_get (cache_set cache k v) k' =
  if String.eqb k k' then Some v else cache_get cache k'.
Proof.
  induction cache as [|[k0 v0] r IH]; simpl.
  - reflexivity.
  - destruct (String.eqb k0 k) eqn:E0; simpl.
    + apply String.eqb_eq in E0. subst k0.
      destruct (String.eqb k k'); reflexivity.
    + destruct (String.eqb k0 k') eqn:E1.
      * apply String.eqb_eq in E1. subst k0.
        rewrite String.eqb_sym, E0. reflexivity.
      * exact IH.
Qed.

Lemma cache_after_writes (written : list ChunkData) :
  forall cache,
    NoDup (map key written) ->
    (forall c, In c written ->
       cache_get (fold_left (fun c d => cache_set c (key d) d) written cache) (key c)
       = Some c) /\
    (forall k, ~ In k (map key written) ->
       cache_get (fold_left (fun c d => cache_set c (key d) d) written cache) k
       = cache_get cache k).
Proof.
  induction written as [|d l IH]; intros cache Hnd; simpl.
  - split; [intros c []|reflexivity].
  - inversion Hnd as [|? ? Hd Hl]; subst.
    destruct (IH (cache_set cache (key d) d) Hl) as [IH1 IH2].
    split.
    + intros c [->|Hc]; [|apply IH1; exact Hc].
      rewrite IH2 by exact Hd. rewrite cache_get_set, String.eqb_refl. reflexivity.
    + intros k Hk. rewrite IH2 by tauto. rewrite cache_get_set.
      destruct (String.eqb (key d) k) eqn:E; [|reflexivity].
      apply String.eqb_eq in E. tauto.
Qed.

(** X15.  What [store] leaves in the cache.  The chunks written are those of
    [chunkText], in order, under the keys [docId_chunk_0], [docId_chunk_1],
    ...; there is at least one.  Each of them is afterwards found in the
    cache under its key and passes [verify(key)], whatever the backing
    store would answer.  Entries under any other key are left as they
    were: [store] replaces the chunks it writes and removes nothing, so a
    document stored again with fewer chunks keeps the old chunks of
    higher index. *)
Theorem stored_chunks_are_found_and_verified :
  forall (cache : list (string * ChunkData)) (docId t : string)
         (retrieveFn : option (string -> option ChunkData)),
    let written := fst (store sha256 cache docId t) in
    let cache' := snd (store sha256 cache docId t) in
    written <> [] /\
    map text written = chunkText t 300 /\
    map key written = map (chunk_key docId) (seq 0 (List.length (chunkText t 300))) /\
    (forall c, In c written ->
       cache_get cache' (key c) = Some c /\
       memory_verify cache' retrieveFn (key c) = true) /\
    (forall k, ~ In k (map key written) -> cache_get cache' k = cache_get cache k).
Proof.
  intros cache docId t retrieveFn. unfold store. cbn [fst snd]. cbv zeta.
  pose proof (cache_after_writes (store_loop sha256 docId 0 (chunkText t 300)) cache
                (store_loop_keys_NoDup docId (chunkText t 300) 0)) as [Hget Hother].
  split; [|split; [apply store_loop_texts|split; [apply store_loop_keys|split]]].
  - destruct (chunkText_nonempty t 300) as [c [r Hc]].
    rewrite Hc. simpl. discriminate.
  - intros c Hc. split; [apply Hget; exact Hc|].
    unfold memory_verify. rewrite (Hget c Hc).
    destruct (store_loop_chunks _ _ _ _ _ Hc) as [k Hk].
    unfold verify_chunk. apply Z.eqb_eq. rewrite Hk at 1.
    rewrite chunkData_verified. rewrite Hk. reflexivity.
  - exact Hother.
Qed.

End MemoryMore.

End GravityMore.

(* ------------------------------------------------------------------ *)
(** ** Ranking

    [arr.sort((a, b) => b.score - a.score)]: the sort is stable, and an
    element goes before another one only if its score is strictly higher.
    [leb x y] says that [x] does not rank above [y]. *)

Module Ranking.
Local Open Scope list_scope.

Section Sort.

Context {A : Type}.
Variable leb : A -> A -> bool.

Fixpoint insert_desc (x : A) (sorted : list A) : list A :=
  match sorted with
  | [] => [x]
  | y :: r => if leb x y then y :: insert_desc x r else x :: sorted
  end.

Definition sort_desc (l : list A) : list A :=
  fold_left (fun acc x => insert_desc x acc) l [].

Definition descending : list A -> Prop :=
  StronglySorted (fun a b => leb b a = true).

Lemma insert_desc_perm (x : A) (l : list A) : Permutation (x :: l) (insert_desc x l).
Proof.
  induction l as [|y r IH]; simpl; [reflexivity|].
  destruct (leb x y); [|reflexivity].
  rewrite perm_swap. apply perm_skip. exact IH.
Qed.

Lemma fold_insert_perm (l : list A) :
  forall acc, Permutation (acc ++ l) (fold_left (fun acc x => insert_desc x acc) l acc).
Proof.
  induction l as [|x r IH]; intros acc; simpl.
  - rewrite app_nil_r. reflexivity.
  - rewrite <- IH. transitivity ((x :: acc) ++ r).
    + symmetry. apply Permutation_middle.
    + apply Permutation_app_tail, insert_desc_perm.
Qed.

Lemma sort_desc_perm (l : list A) : Permutation l (sort_desc l).
Proof. apply (fold_insert_perm l []). Qed.

Lemma sort_desc_length (l : list A) : List.length (sort_desc l) = List.length l.
Proof. symmetry. apply Permutation_length, sort_desc_perm. Qed.

Hypothesis leb_total : forall x y, leb x y = true \/ leb y x = true.
Hypothesis leb_trans : forall x y z, leb x y = true -> leb y z = true -> leb x z = true.

Lemma insert_desc_sorted (x : A) (l : list A) :
  descending l -> descending (insert_desc x l).
Proof.
  unfold descending. induction l as [|y r IH]; intros Hs; simpl.
  - constructor; constructor.
  - inversion Hs as [|? ? Hr Hy]; subst.
    destruct (leb x y) eqn:E.
    + constructor; [apply IH; exact Hr|].
      eapply Permutation_Forall; [apply insert_desc_perm|].
      constructor; assumption.
    + assert (Hyx : leb y x = true) by (destruct (leb_total x y); congruence).
      constructor; [exact Hs|].
      constructor; [exact Hyx|].
      eapply Forall_impl; [|exact Hy]. intros z Hz. cbv beta in *.
      eapply leb_trans; eassumption.
Qed.

Lemma sort_desc_sorted (l : list A) : descending (sort_desc l).
Proof.
  unfold sort_desc.
  assert (H : forall acc, descending acc ->
                descending (fold_left (fun acc x => insert_desc x acc) l acc)).
  { induction l as [|x r IH]; intros acc Hacc; simpl; [exact Hacc|].
    apply IH, insert_desc_sorted, Hacc. }
  apply H. constructor.
Qed.

End Sort.

(** The order of [b.score - a.score] on records paired with their score. *)
Definition by_score {A : Type} (x y : A * R) : bool :=
  if Rle_dec (snd x) (snd y) then true else false.

Lemma by_score_total {A : Type} (x y : A * R) :
  by_score x y = true \/ by_score y x = true.
Proof.
  unfold by_score.
  destruct (Rle_dec (snd x) (snd y)); [left; reflexivity|].
  destruct (Rle_dec (snd y) (snd x)); [right; reflexivity|]. lra.
Qed.

Lemma by_score_trans {A : Type} (x y z : A * R) :
  by_score x y = true -> by_score y z = true -> by_score x z = true.
Proof.
  unfold by_score.
  destruct (Rle_dec (snd x) (snd y)); [|discriminate].
  destruct (Rle_dec (snd y) (snd z)); [|discriminate].
  destruct (Rle_dec (snd x) (snd z)); [reflexivity|]. lra.
Qed.

(** Records ranked by a score of their own: the list sorted with
    [by_score], read without the scores. *)
Lemma ranked_by_score {A : Type} (score : A -> R) (l : list A) :
  let sorted := sort_desc by_score (map (fun a => (a, score a)) l) in
  Permutation (map fst sorted) l /\
  StronglySorted (fun a b => (score b <= score a)%R) (map fst sorted) /\
  Forall (fun s => snd s = score (fst s)) sorted.
Proof.
  intros sorted.
  pose proof (sort_desc_perm by_score (map (fun a => (a, score a)) l)) as Hp.
  fold sorted in Hp.
  assert (Hall : Forall (fun s => snd s = score (fst s)) sorted).
  { eapply Permutation_Forall; [exact Hp|].
    apply Forall_forall. intros s Hs. apply in_map_iff in Hs.
    destruct Hs as (a & <- & _). reflexivity. }
  split; [|split; [|exact Hall]].
  - rewrite <- Hp. rewrite map_map. simpl. rewrite map_id. reflexivity.
  - pose proof (sort_desc_sorted by_score by_score_total by_score_trans
                  (map (fun a => (a, score a)) l)) as Hs.
    fold sorted in Hs. unfold descending in Hs. clear Hp.
    induction Hs as [|s r Hr IH Hs]; simpl; [constructor|].
    inversion Hall as [|? ? Hs0 Hr0]; subst.
    constructor; [apply IH; exact Hr0|].
    apply Forall_forall. intros b Hb. apply in_map_iff in Hb.
    destruct Hb as (t & <- & Ht).
    rewrite Forall_forall in Hs, Hr0.
    specialize (Hs t Ht). specialize (Hr0 t Ht). unfold by_score in Hs.
    destruct (Rle_dec (snd t) (snd s)); [|discriminate]. rewrite <- Hs0, <- Hr0. assumption.
Qed.

(** *** Sorted lists cut in two and turned round *)

Lemma sorted_app {A : Type} (R : A -> A -> Prop) (l1 l2 : list A) :
  StronglySorted R (l1 ++ l2) ->
  StronglySorted R l1 /\ StronglySorted R l2 /\
  (forall a b, In a l1 -> In b l2 -> R a b).
Proof.
  induction l1 as [|x r IH]; simpl; intros H.
  - split; [constructor|]. split; [exact H|]. intros a b [].
  - inversion H as [|? ? Hr Hx]; subst.
    destruct (IH Hr) as (H1 & H2 & H12).
    rewrite Forall_app in Hx. destruct Hx as [Hx1 Hx2].
    split; [constructor; assumption|]. split; [exact H2|].
    intros a b [<-|Ha] Hb.
    + rewrite Forall_forall in Hx2. apply Hx2. exact Hb.
    + apply H12; assumption.
Qed.

Lemma sorted_snoc {A : Type} (R : A -> A -> Prop) (l : list A) (x : A) :
  StronglySorted R l -> Forall (fun a => R a x) l -> StronglySorted R (l ++ [x]).
Proof.
  induction l as [|y r IH]; simpl; intros Hs Hx.
  - constructor; constructor.
  - inversion Hs as [|? ? Hr Hy]; subst. inversion Hx as [|? ? Hyx Hrx]; subst.
    constructor; [apply IH; assumption|].
    rewrite Forall_app. split; [exact Hy|]. constructor; [exact Hyx|constructor].
Qed.

Lemma sorted_rev {A : Type} (R : A -> A -> Prop) (l : list A) :
  StronglySorted R l -> StronglySorted (fun a b => R b a) (rev l).
Proof.
  induction 1 as [|x r Hr IH Hx]; simpl; [constructor|].
  apply sorted_snoc; [exact IH|].
  apply Forall_forall. intros a Ha. apply in_rev in Ha.
  rewrite Forall_forall in Hx. apply Hx. exact Ha.
Qed.

Lemma sorted_impl {A : Type} (R R' : A -> A -> Prop) (l : list A) :
  (forall a b, R a b -> R' a b) -> StronglySorted R l -> StronglySorted R' l.
Proof.
  intros Himp. induction 1 as [|x r Hr IH Hx]; constructor; [exact IH|].
  eapply Forall_impl; [|exact Hx]. intros b. apply Himp.
Qed.

End Ranking.

(* ------------------------------------------------------------------ *)
(** ** Retrieval ([GravitationalMemory.retrieve] in
    [src/memory/gravitational-bit.js]; [RAGBooster.retrieve] and
    [assembleContext] in [src/memory/rag-booster.js])

    As in [Rag], scores are doubles in the source and real numbers here
    ([Math.sqrt] is [sqrt]). *)

Module Retrieval.
Import Js JsText Gravity Ranking.
Local Open Scope string_scope.
Local Open Scope list_scope.

(** [new Set(words)]: the words in the order of their first occurrence. *)
Definition set_add (set : list string) (w : string) : list string :=
  if existsb (String.eqb w) set then set else set ++ [w].

Definition set_of (words : list string) : list string := fold_left set_add words [].

(** The score [retrieve] gives to a chunk: one point for every word of
    the query that the chunk has, five more for each of them when the
    chunk contains the whole query, the sum divided by the square root of
    the number of different words of the chunk. *)
Definition retrieve_score (query : string) (chunk : ChunkData) : R :=
  let queryWords := set_of (split_ws (toLowerCase query)) in
  let chunkWords := set_of (split_ws (toLowerCase (text chunk))) in
  let score :=
    fold_left
      (fun score word =>
         if existsb (String.eqb word) chunkWords then
           let score := (score + 1)%R in
           if includes (toLowerCase (text chunk)) (toLowerCase query)
           then (score + 5)%R else score
         else score)
      queryWords 0%R in
  (score / sqrt (INR (List.length chunkWords)))%R.

(** The chunks [retrieve] ranks: the values of the cache, or what
    [retrieveFn()] answers when there is such a function and the cache is
    empty. *)
Definition allChunks (cache : list (string * ChunkData))
  (retrieveFn : option (list ChunkData)) : list ChunkData :=
  match map snd cache, retrieveFn with
  | [], Some stored => stored
  | values, _ => values
  end.

(** [GravitationalMemory.retrieve(query, topK)] *)
Definition retrieve (cache : list (string * ChunkData))
  (retrieveFn : option (list ChunkData)) (query : string) (topK : nat) : list string :=
  match allChunks cache retrieveFn with
  | [] => []
  | chunks =>
      let scored := map (fun chunk => (chunk, retrieve_score query chunk)) chunks in
      let sorted := sort_desc by_score scored in
      map (fun s => text (fst s)) (firstn topK sorted)
  end.

(** An initialised [RAGBooster]: its [topK], the cache of its memory and
    the chunks held in the database. *)
Record RAGBooster : Type := mkRAGBooster {
  topK : nat;
  cache : list (string * ChunkData);
  db : list ChunkData
}.

(** [this.topK = options.topK || 8] *)
Definition new_topK (options_topK : option nat) : nat :=
  match options_topK with
  | Some (S k) => S k
  | _ => 8%nat
  end.

(** [RAGBooster.retrieve(query, topK = null)] *)
Definition booster_retrieve (b : RAGBooster) (query : string) (k : option nat)
  : list string :=
  let k := match k with Some (S k') => S k' | _ => topK b end in
  retrieve (cache b) (Some (db b)) query k.

Definition nl : string := String (ascii_of_nat 10) EmptyString.

(** [assembleContext(query, userMessage)] *)
Definition assembleContext (b : RAGBooster) (query userMessage : string) : string :=
  match booster_retrieve b query None with
  | [] => userMessage
  | chunks =>
      let context := join (nl ++ nl ++ "---" ++ nl ++ nl) chunks in
      "--- MEMORY CONTEXT ---" ++ nl ++ context ++ nl ++
      "--- END MEMORY CONTEXT ---" ++ nl ++ nl ++
      "Current request: " ++ userMessage ++ nl ++ nl ++
      "Answer based on the context above and your knowledge."
  end.

Lemma retrieve_ranked (cache : list (string * ChunkData))
      (retrieveFn : option (list ChunkData)) (query : string) (k : nat) :
  exists ranked : list ChunkData,
    Permutation ranked (allChunks cache retrieveFn) /\
    StronglySorted (fun a b => (retrieve_score query b <= retrieve_score query a)%R)
                   ranked /\
    retrieve cache retrieveFn query k = map text (firstn k ranked).
Proof.
  unfold retrieve.
  destruct (allChunks cache retrieveFn) as [|c r] eqn:E.
  - exists []. split; [reflexivity|]. split; [constructor|].
    destruct k; reflexivity.
  - destruct (ranked_by_score (retrieve_score query) (c :: r)) as (Hp & Hs & _).
    cbv zeta in *.
    exists (map fst (sort_desc by_score
                       (map (fun a => (a, retrieve_score query a)) (c :: r)))).
    split; [exact Hp|]. split; [exact Hs|].
    rewrite firstn_map, map_map. reflexivity.
Qed.

(** X16.  [retrieve] has no relevance threshold.  It ranks every chunk it
    consults, best score first, and returns the texts of the first [topK]
    of them: as many texts as there are chunks, up to [topK], whether or
    not a chunk shares a word with the query. *)
Theorem retrieve_ranks_every_chunk :
  forall (cache : list (string * ChunkData)) (retrieveFn : option (list ChunkData))
         (query : string) (k : nat),
    exists ranked : list ChunkData,
      Permutation ranked (allChunks cache retrieveFn) /\
      StronglySorted (fun a b => (retrieve_score query b <= retrieve_score query a)%R)
                     ranked /\
      retrieve cache retrieveFn query k = map text (firstn k ranked) /\
      List.length (retrieve cache retrieveFn query k)
      = Nat.min k (List.length (allChunks cache retrieveFn)).
Proof.
  intros cache0 retrieveFn query k.
  destruct (retrieve_ranked cache0 retrieveFn query k) as (ranked & Hp & Hs & Hr).
  exists ranked. split; [exact Hp|]. split; [exact Hs|]. split; [exact Hr|].
  rewrite Hr, length_map, length_firstn, (Permutation_length Hp). reflexivity.
Qed.

(** X17.  [assembleContext] hands the user's message back unchanged exactly
    when the memory holds no chunk at all, neither in the cache nor in
    the database.  As soon as one chunk is stored the message is wrapped
    in a memory context, whatever the query. *)
Theorem assembleContext_is_bare_only_for_an_empty_memory :
  forall (options_topK : option nat) (cache0 : list (string * ChunkData))
         (stored : list ChunkData) (query userMessage : string),
    assembleContext (mkRAGBooster (new_topK options_topK) cache0 stored)
                    query userMessage = userMessage
    <-> cache0 = [] /\ stored = [].
Proof.
  intros o cache0 stored query m. unfold assembleContext, booster_retrieve.
  cbn [topK cache db].
  destruct (retrieve_ranked cache0 (Some stored) query (new_topK o))
    as (ranked & Hp & _ & Hr).
  rewrite Hr.
  assert (Hk : exists k', new_topK o = S k').
  { unfold new_topK. destruct o as [[|k']|]; eauto. }
  destruct Hk as [k' Hk]. rewrite Hk.
  assert (Hall : allChunks cache0 (Some stored) = [] <-> cache0 = [] /\ stored = []).
  { unfold allChunks. destruct cache0 as [|e r]; simpl.
    - split; [intros ->; auto|intros [_ ->]; reflexivity].
    - split; [discriminate|intros [H _]; discriminate]. }
  destruct ranked as [|c r].
  - simpl. apply Permutation_nil in Hp. split; [intros _; apply Hall; exact Hp|reflexivity].
  - cbn [firstn map]. split.
    + intros H. apply (f_equal String.length) in H.
      rewrite !JsFacts.length_append in H. cbn [String.length nl] in H. lia.
    + intros H. apply Hall in H. rewrite H in Hp.
      apply Permutation_sym, Permutation_nil in Hp. discriminate.
Qed.

End Retrieval.

(* ------------------------------------------------------------------ *)
(** ** More on [RAGBooster.search] *)

Module RagMore.
Import Js JsText Rag Ranking.
Local Open Scope string_scope.
Local Open Scope list_scope.
Local Open Scope R_scope.

(** [s.score >= minScore] for the score of a chunk. *)
Definition reaches (allChunks : list Chunk) (query : string) (minScore : R)
  (chunk : Chunk) : bool :=
  reaches_score (score allChunks query chunk) minScore.

(** The real number a score is, for the scores that are numbers. *)
Definition number (s : Num) : R :=
  match s with
  | Finite r => r
  | NaN => 0
  end.

Definition as_num (s : Chunk * R) : Chunk * Num := (fst s, Finite (snd s)).

Lemma reaches_matches (allChunks : list Chunk) (query : string) (minScore : R)
      (chunk : Chunk) :
  reaches allChunks query minScore chunk = true <-> matches allChunks query minScore chunk.
Proof.
  unfold reaches, reaches_score, matches.
  destruct (score allChunks query chunk) as [r|].
  - destruct (Rle_dec minScore r); split; auto; discriminate.
  - split; [discriminate|contradiction].
Qed.

Lemma reaches_finite (allChunks : list Chunk) (query : string) (minScore : R)
      (chunk : Chunk) :
  reaches allChunks query minScore chunk = true ->
  score allChunks query chunk = Finite (number (score allChunks query chunk)).
Proof.
  unfold reaches, reaches_score.
  destruct (score allChunks query chunk); [reflexivity|discriminate].
Qed.

Lemma insert_by_score_desc (x : Chunk * R) (sorted : list (Chunk * R)) :
  insert_by_score (as_num x) (map as_num sorted)
  = map as_num (insert_desc by_score x sorted).
Proof.
  induction sorted as [|y r IH]; simpl; [reflexivity|].
  unfold by_score at 1.
  destruct (Rlt_dec (snd y) (snd x)) as [Hlt|Hge];
    destruct (Rle_dec (snd x) (snd y)) as [Hle|Hgt]; try lra.
  - reflexivity.
  - rewrite IH. reflexivity.
Qed.

Lemma fold_insert_by_score (l : list (Chunk * R)) :
  forall acc,
    fold_left (fun acc x => insert_by_score x acc) (map as_num l) (map as_num acc)
    = map as_num (fold_left (fun acc x => insert_desc by_score x acc) l acc).
Proof.
  induction l as [|x r IH]; intros acc; simpl; [reflexivity|].
  rewrite insert_by_score_desc. apply IH.
Qed.

Lemma filter_scored (allChunks : list Chunk) (query : string) (minScore : R) :
  forall l,
    filter (fun s : Chunk * Num => reaches_score (snd s) minScore)
           (map (fun chunk => (chunk, score allChunks query chunk)) l)
    = map as_num
          (map (fun chunk => (chunk, number (score allChunks query chunk)))
               (filter (reaches allChunks query minScore) l)).
Proof.
  induction l as [|c r IH]; simpl; [reflexivity|].
  destruct (reaches allChunks query minScore c) eqn:E.
  - unfold reaches in E. rewrite E. simpl. rewrite IH. unfold as_num at 2. simpl.
    rewrite <- (reaches_finite allChunks query minScore c E). reflexivity.
  - unfold reaches in E. rewrite E. exact IH.
Qed.

Lemma sorted_numbers (allChunks : list Chunk) (query : string) (minScore : R)
      (l : list Chunk) :
  Forall (fun c => reaches allChunks query minScore c = true) l ->
  StronglySorted (fun a b => number (score allChunks query b)
                             <= number (score allChunks query a)) l ->
  StronglySorted (fun a b => le_num (score allChunks query b) (score allChunks query a)) l.
Proof.
  intros Hfin Hs. induction Hs as [|c r Hr IH Hc]; [constructor|].
  inversion Hfin as [|? ? Hc1 Hr1]; subst.
  constructor; [apply IH; exact Hr1|].
  rewrite Forall_forall in Hc, Hr1 |- *. intros b Hb.
  rewrite (reaches_finite _ _ _ _ Hc1), (reaches_finite _ _ _ _ (Hr1 b Hb)).
  exact (Hc b Hb).
Qed.

Lemma search_ranked (allChunks : list Chunk) (query : string) (topK : nat) (minScore : R) :
  exists ranked : list Chunk,
    Permutation ranked (filter (reaches allChunks query minScore) allChunks) /\
    StronglySorted (fun a b => le_num (score allChunks query b) (score allChunks query a))
                   ranked /\
    search allChunks query topK minScore = map text (firstn topK ranked).
Proof.
  unfold search, scored. rewrite filter_scored.
  change (@nil (Chunk * Num)) with (map as_num []). rewrite fold_insert_by_score.
  destruct (ranked_by_score (fun c => number (score allChunks query c))
              (filter (reaches allChunks query minScore) allChunks)) as (Hp & Hs & _).
  cbv zeta in *. eexists. split; [exact Hp|]. split.
  - apply (sorted_numbers allChunks query minScore); [|exact Hs].
    eapply Permutation_Forall; [symmetry; exact Hp|].
    apply Forall_forall. intros c Hc. apply filter_In in Hc. apply Hc.
  - rewrite firstn_map, !map_map. rewrite firstn_map, map_map. reflexivity.
Qed.

(** X18.  What [search] returns: the chunks that reach [minScore], ranked by
    falling score, cut after [topK], as texts.  So there are never more
    than [topK] results, every result is the text of a stored chunk whose
    score reaches [minScore] (a chunk whose score is [NaN] never does),
    and when no more than [topK] chunks reach it none of them is left
    out. *)
Theorem search_returns_the_best_matches :
  forall (allChunks : list Chunk) (query : string) (topK : nat) (minScore : R),
    exists ranked : list Chunk,
      Permutation ranked (filter (reaches allChunks query minScore) allChunks) /\
      (forall chunk, In chunk ranked <->
                     In chunk allChunks /\ matches allChunks query minScore chunk) /\
      StronglySorted
        (fun a b => le_num (score allChunks query b) (score allChunks query a))
        ranked /\
      search allChunks query topK minScore = map text (firstn topK ranked) /\
      List.length (search allChunks query topK minScore)
      = Nat.min topK (List.length ranked).
Proof.
  intros allChunks query topK minScore.
  destruct (search_ranked allChunks query topK minScore) as (ranked & Hp & Hs & Hr).
  exists ranked. split; [exact Hp|]. split; [|split; [exact Hs|split; [exact Hr|]]].
  - intros chunk. split.
    + intros Hin. apply (Permutation_in _ Hp) in Hin. apply filter_In in Hin.
      destruct Hin as [Hin Hk]. split; [exact Hin|].
      apply reaches_matches. exact Hk.
    + intros [Hin Hm]. apply (Permutation_in _ (Permutation_sym Hp)).
      apply filter_In. split; [exact Hin|]. apply reaches_matches. exact Hm.
  - rewrite Hr, length_map, length_firstn. reflexivity.
Qed.

(** In a store that holds a chunk with the word 'constructor', the query
    'constructor' finds nothing: the score of that chunk is [NaN]. *)
Lemma constructor_query_finds_nothing :
  score [mkChunk "constructor" None; mkChunk "zzz" None; mkChunk "yyy" None]
        "constructor" (mkChunk "constructor" None) = NaN /\
  search [mkChunk "constructor" None; mkChunk "zzz" None; mkChunk "yyy" None]
         "constructor" 8 (1 / 10) = [].
Proof.
  assert (Hs : forall c, In c [mkChunk "zzz" None; mkChunk "yyy" None] ->
                 score [mkChunk "constructor" None; mkChunk "zzz" None; mkChunk "yyy" None]
                       "constructor" c = Finite 0).
  { intros c [<-|[<-|[]]]; reflexivity. }
  assert (Hn : score [mkChunk "constructor" None; mkChunk "zzz" None; mkChunk "yyy" None]
                     "constructor" (mkChunk "constructor" None) = NaN) by reflexivity.
  split; [exact Hn|].
  unfold search, scored. cbn [map]. rewrite Hn.
  rewrite (Hs (mkChunk "zzz" None)) by (left; reflexivity).
  rewrite (Hs (mkChunk "yyy" None)) by (right; left; reflexivity).
  cbn [filter snd reaches_score].
  destruct (Rle_dec (1 / 10) 0) as [H|_]; [lra|]. reflexivity.
Qed.

(** *** Words of a text are parts of it *)

Lemma string_of_list_ascii_app (l1 l2 : list ascii) :
  string_of_list_ascii (l1 ++ l2)
  = (string_of_list_ascii l1 ++ string_of_list_ascii l2)%string.
Proof.
  induction l1 as [|c r IH]; simpl; [reflexivity|]. rewrite IH. reflexivity.
Qed.

Lemma string_of_rev_cons (c : ascii) (piece : list ascii) :
  string_of_rev (c :: piece) = (string_of_rev piece ++ String c "")%string.
Proof.
  unfold string_of_rev. simpl. rewrite string_of_list_ascii_app. reflexivity.
Qed.

Lemma prefix_self_append (w b : string) : prefix w (w ++ b) = true.
Proof.
  induction w as [|c r IH]; simpl.
  - destruct b; reflexivity.
  - destruct (ascii_dec c c); [exact IH|congruence].
Qed.

Lemma includes_middle (a w b : string) : includes (a ++ w ++ b) w = true.
Proof.
  induction a as [|c r IH].
  - simpl append. destruct (w ++ b)%string eqn:E.
    + destruct w; [reflexivity|discriminate].
    + cbn [includes]. rewrite <- E. rewrite prefix_self_append. reflexivity.
  - change ((String c r ++ w ++ b)%string) with (String c (r ++ w ++ b)).
    cbn [includes]. rewrite IH. apply orb_true_r.
Qed.

Lemma split_ws_go_parts (s : string) :
  forall (piece : list ascii) (in_sep : bool) (w : string),
    (in_sep = true -> piece = []) ->
    In w (split_ws_go s piece in_sep) ->
    exists a b, (string_of_rev piece ++ s = a ++ w ++ b)%string.
Proof.
  induction s as [|c r IH]; intros piece in_sep w Hsep Hin; simpl in Hin.
  - destruct Hin as [<-|[]]. exists "", "". simpl.
    rewrite !JsFacts.append_empty_r. reflexivity.
  - destruct (is_space c) eqn:Ec.
    + destruct in_sep.
      * rewrite (Hsep eq_refl) in *. destruct (IH [] true w (fun _ => eq_refl) Hin)
          as (a & b & Hab).
        exists (String c a), b. simpl in *. rewrite Hab. reflexivity.
      * destruct Hin as [<-|Hin].
        -- exists "", (String c r). reflexivity.
        -- destruct (IH [] true w (fun _ => eq_refl) Hin) as (a & b & Hab).
           exists (string_of_rev piece ++ String c a)%string, b.
           simpl in Hab. rewrite Hab, JsFacts.append_assoc. reflexivity.
    + destruct (IH (c :: piece) false w (fun H => ltac:(discriminate)) Hin)
        as (a & b & Hab).
      exists a, b. rewrite <- Hab, string_of_rev_cons, JsFacts.append_assoc.
      reflexivity.
Qed.

Lemma long_word_included (s w : string) :
  In w (long_words s) -> includes s w = true.
Proof.
  unfold long_words, split_ws. intros Hin. apply filter_In in Hin.
  destruct Hin as [Hin _].
  destruct (split_ws_go_parts s [] false w ltac:(discriminate) Hin) as (a & b & Hab).
  simpl in Hab. rewrite Hab. apply includes_middle.
Qed.

(** *** Scores that cannot be positive *)

Lemma bump_words (freq : list (string * Freq)) (w : string) :
  forall e, In e (bump freq w) -> fst e = w \/ In (fst e) (map fst freq).
Proof.
  induction freq as [|[k c] r IH]; simpl; intros e He.
  - destruct He as [<-|[]]. left. reflexivity.
  - destruct (String.eqb k w) eqn:E.
    + destruct He as [<-|He]; simpl.
      * right. left. reflexivity.
      * right. right. apply in_map. exact He.
    + destruct He as [<-|He]; simpl.
      * right. left. reflexivity.
      * destruct (IH _ He) as [H|H]; [left; exact H|right; right; exact H].
Qed.

Lemma queryWordFreq_words (query : string) :
  forall e, In e (queryWordFreq query) -> In (fst e) (long_words (toLowerCase query)).
Proof.
  unfold queryWordFreq.
  assert (H : forall words acc e,
             In e (fold_left count_word words acc) ->
             In (fst e) words \/ In (fst e) (map fst acc)).
  { induction words as [|w r IH]; simpl; intros acc e He.
    - right. apply in_map. exact He.
    - destruct (IH _ _ He) as [Hr|Hb]; [left; right; exact Hr|].
      unfold count_word in Hb. destruct (String.eqb w "__proto__"); [right; exact Hb|].
      apply in_map_iff in Hb. destruct Hb as (e' & Heq & He').
      destruct (bump_words _ _ _ He') as [Hw|Hacc].
      + left. left. congruence.
      + right. congruence. }
  intros e He. destruct (H _ _ _ He) as [Hw|[]]. exact Hw.
Qed.

Lemma chunkFreq_positive (chunkWords : list string) (word : string) :
  (0 <? chunkFreq chunkWords word)%nat = true -> In word chunkWords.
Proof.
  unfold chunkFreq. intros H. apply Nat.ltb_lt in H.
  destruct (filter (fun w => String.eqb w word) chunkWords) as [|w r] eqn:E;
    [simpl in H; lia|].
  assert (Hin : In w (filter (fun w => String.eqb w word) chunkWords))
    by (rewrite E; left; reflexivity).
  apply filter_In in Hin. destruct Hin as [Hin Heq].
  apply String.eqb_eq in Heq. subst w. exact Hin.
Qed.

Lemma docFreq_positive (allChunks : list Chunk) (chunk : Chunk) (word : string) :
  In chunk allChunks ->
  includes (toLowerCase (text chunk)) word = true ->
  (1 <= docFreq allChunks word)%nat.
Proof.
  intros Hin Hinc. unfold docFreq.
  assert (H : In chunk (filter (fun c => includes (toLowerCase (text c)) word) allChunks))
    by (apply filter_In; split; assumption).
  destruct (filter _ allChunks); [contradiction|]. simpl. lia.
Qed.

(** The score is [NaN] or a number that is not positive. *)
Definition not_positive (s : Num) : Prop :=
  match s with
  | Finite r => r <= 0
  | NaN => True
  end.

Lemma bonuses_keep_sign (allChunks : list Chunk) (query : string) (chunk : Chunk) :
  let base := fold_left (add_term allChunks (long_words (toLowerCase (text chunk))))
                        (queryWordFreq query) (Finite 0) in
  (not_positive base -> not_positive (score allChunks query chunk)) /\
  (base = Finite 0 -> score allChunks query chunk = Finite 0).
Proof.
  intros base. unfold score. fold base.
  destruct (includes (toLowerCase (text chunk)) (toLowerCase query));
    destruct (title chunk) as [t|];
    try destruct (includes (toLowerCase t) (toLowerCase query));
    (split; [destruct base as [r|]; cbn [times not_positive]; intros H; try exact I; lra
            |intros ->; cbn [times]; f_equal; lra]).
Qed.

(** X19.  The inverse document frequency has [1 +] the number of chunks that
    contain the word under the fraction, so a word that a chunk has
    counts for something only when at least two stored chunks lack it.
    While the store holds one or two chunks no score is positive (each
    is a number that is at most 0, or [NaN]), and a search with a
    positive [minScore] (the default is 0.1) returns nothing, whatever
    the query. *)
Theorem small_store_search_is_empty :
  forall (allChunks : list Chunk) (query : string) (topK : nat) (minScore : R),
    (List.length allChunks <= 2)%nat ->
    0 < minScore ->
    (forall chunk, In chunk allChunks -> not_positive (score allChunks query chunk)) /\
    search allChunks query topK minScore = [].
Proof.
  intros allChunks query topK minScore Hlen Hmin.
  assert (Hscore : forall chunk, In chunk allChunks ->
                                 not_positive (score allChunks query chunk)).
  { intros chunk Hin. apply (proj1 (bonuses_keep_sign allChunks query chunk)).
    set (chunkWords := long_words (toLowerCase (text chunk))).
    assert (Hfold : forall entries s, not_positive s ->
               not_positive (fold_left (add_term allChunks chunkWords) entries s)).
    { induction entries as [|[word queryFreq] r IH]; intros s Hs; simpl; [exact Hs|].
      apply IH. destruct (0 <? chunkFreq chunkWords word)%nat eqn:E; [|exact Hs].
      destruct s as [s|]; [|exact I]. destruct queryFreq as [queryFreq|]; [|exact I].
      cbn [not_positive] in *.
      pose proof (chunkFreq_positive _ _ E) as Hw.
      pose proof (docFreq_positive allChunks chunk word Hin
                    (long_word_included _ _ Hw)) as Hdf.
      assert (HN : 1 <= INR (List.length allChunks) <= 2).
      { destruct allChunks as [|c1 [|c2 [|c3 r3]]]; simpl in *; try lia; try contradiction;
          lra. }
      assert (Hd : 1 <= INR (docFreq allChunks word)).
      { change 1 with (INR 1). apply le_INR. exact Hdf. }
      assert (Htf : 0 <= INR (chunkFreq chunkWords word) / INR (List.length chunkWords)).
      { unfold Rdiv. apply Rmult_le_pos; [apply pos_INR|].
        destruct chunkWords as [|w0 r0]; [contradiction|].
        left. apply Rinv_0_lt_compat. apply lt_0_INR. simpl. lia. }
      assert (Hq : 0 <= INR queryFreq) by apply pos_INR.
      assert (Hidf : ln (INR (List.length allChunks) / (1 + INR (docFreq allChunks word)))
                     <= 0).
      { set (N := INR (List.length allChunks)) in *.
        set (df := INR (docFreq allChunks word)) in *.
        assert (Hinv : 0 < / (1 + df)) by (apply Rinv_0_lt_compat; lra).
        assert (Hx : 0 < N / (1 + df)) by (unfold Rdiv; apply Rmult_lt_0_compat; lra).
        assert (Hx1 : N / (1 + df) <= 1).
        { apply (Rmult_le_reg_r (1 + df)); [lra|].
          unfold Rdiv. rewrite Rmult_assoc, Rinv_l by lra. lra. }
        pose proof (ln_le_minus_1 _ Hx). lra. }
      set (tf := INR (chunkFreq chunkWords word) / INR (List.length chunkWords)) in *.
      set (idf := ln (INR (List.length allChunks) / (1 + INR (docFreq allChunks word))))
        in *.
      set (qf := INR queryFreq) in *.
      assert (H1 : tf * idf <= 0) by nra.
      assert (H2 : tf * idf * qf <= 0) by nra.
      lra. }
    apply Hfold. cbn [not_positive]. lra. }
  split; [exact Hscore|].
  destruct (search_ranked allChunks query topK minScore) as (ranked & Hp & _ & Hr).
  rewrite Hr.
  assert (Hnone : filter (reaches allChunks query minScore) allChunks = []).
  { assert (H : forall l, (forall c, In c l -> In c allChunks) ->
                          filter (reaches allChunks query minScore) l = []).
    { induction l as [|c r IH]; intros Hl; simpl; [reflexivity|].
      destruct (reaches allChunks query minScore c) eqn:E.
      - apply reaches_matches in E. unfold matches in E.
        pose proof (Hscore c (Hl c (or_introl eq_refl))) as Hc.
        destruct (score allChunks query c); cbn [not_positive] in Hc; [lra|contradiction].
      - apply IH. intros c' Hc'. apply Hl. right. exact Hc'. }
    apply H. auto. }
  rewrite Hnone in Hp. apply Permutation_sym, Permutation_nil in Hp. subst ranked.
  destruct topK; reflexivity.
Qed.

Lemma small_store_search_is_empty_witness :
  search [mkChunk "apple pie recipe" None; mkChunk "apple tart" (Some "apple")]
         "apple" 8 (1 / 10) = [].
Proof.
  apply (proj2 (small_store_search_is_empty
                  [mkChunk "apple pie recipe" None; mkChunk "apple tart" (Some "apple")]
                  "apple" 8 (1 / 10) ltac:(simpl; lia) ltac:(lra))).
Defined.

(** X20.  A chunk that has none of the query's words of three letters or more
    scores exactly zero, whatever else is stored, and so is no result of
    a search with a positive [minScore]. *)
Theorem chunk_without_query_words_scores_zero :
  forall (allChunks : list Chunk) (query : string) (chunk : Chunk),
    (forall w, In w (long_words (toLowerCase query)) ->
               ~ In w (long_words (toLowerCase (text chunk)))) ->
    score allChunks query chunk = Finite 0 /\
    (forall minScore, 0 < minScore -> ~ matches allChunks query minScore chunk).
Proof.
  intros allChunks query chunk Hnone.
  assert (Hz : score allChunks query chunk = Finite 0).
  { apply (proj2 (bonuses_keep_sign allChunks query chunk)).
    set (chunkWords := long_words (toLowerCase (text chunk))) in *.
    assert (Hfold : forall entries s,
               (forall e, In e entries -> In (fst e) (long_words (toLowerCase query))) ->
               fold_left (add_term allChunks chunkWords) entries s = s).
    { induction entries as [|[word queryFreq] r IH]; intros s He; simpl; [reflexivity|].
      destruct (0 <? chunkFreq chunkWords word)%nat eqn:E.
      - exfalso. apply (Hnone word).
        + apply (He (word, queryFreq)). left. reflexivity.
        + apply chunkFreq_positive. exact E.
      - apply IH. intros e Hin. apply He. right. exact Hin. }
    apply Hfold. apply queryWordFreq_words. }
  split; [exact Hz|].
  intros minScore Hmin. unfold matches. rewrite Hz. lra.
Qed.

Lemma chunk_without_query_words_scores_zero_witness :
  score fruit_store "apple crumble" (mkChunk "banana bread with nuts" None) = Finite 0.
Proof.
  apply (proj1 (chunk_without_query_words_scores_zero
                  fruit_store "apple crumble" (mkChunk "banana bread with nuts" None)
                  ltac:(intros w Hq Hc; vm_compute in Hq; vm_compute in Hc;
                        repeat (destruct Hq as [Hq|Hq]; [subst w|]); try contradiction;
                        repeat (destruct Hc as [Hc|Hc]; [discriminate Hc|]);
                        contradiction))).
Defined.

End RagMore.

(* ------------------------------------------------------------------ *)
(** ** Conversation turns ([storeConversationTurn] and
    [getConversationHistory] in [src/memory/rag-booster.js]) *)

Module History.
Import Js Ranking.
Local Open Scope string_scope.
Local Open Scope list_scope.
Local Open Scope Z_scope.

(** A record of the sessions store. *)
Record Turn : Type := mkTurn {
  key : string;
  channelId : string;
  userId : string;
  role : string;
  content : string;
  timestamp : Z
}.

(** [results.sort((a, b) => b.timestamp - a.timestamp)] *)
Definition by_timestamp (a b : Turn) : bool := timestamp a <=? timestamp b.

(** [index.getAll(channelId)] on the index over [channelId]; [sessions]
    lists the records of the store in the order in which the index
    yields them. *)
Definition getAll (sessions : list Turn) (channel : string) : list Turn :=
  filter (fun r => String.eqb (channelId r) channel) sessions.

(** [getConversationHistory(channelId, userId, limit = 20)] *)
Definition getConversationHistory (sessions : list Turn) (channel user : string)
  (limit : option nat) : list Turn :=
  let limit := match limit with Some n => n | None => 20%nat end in
  let results := filter (fun r => String.eqb (userId r) user) (getAll sessions channel) in
  let results := sort_desc by_timestamp results in
  let results := firstn limit results in
  rev results.

(** The turns of one user in one channel. *)
Definition turns_of (sessions : list Turn) (channel user : string) : list Turn :=
  filter (fun r => String.eqb (channelId r) channel && String.eqb (userId r) user)
         sessions.

Lemma by_timestamp_total (a b : Turn) :
  by_timestamp a b = true \/ by_timestamp b a = true.
Proof. unfold by_timestamp. lia. Qed.

Lemma by_timestamp_trans (a b c : Turn) :
  by_timestamp a b = true -> by_timestamp b c = true -> by_timestamp a c = true.
Proof. unfold by_timestamp. lia. Qed.

Lemma filter_twice {A : Type} (f g : A -> bool) (l : list A) :
  filter g (filter f l) = filter (fun x => f x && g x) l.
Proof.
  induction l as [|x r IH]; simpl; [reflexivity|].
  destruct (f x); simpl; [destruct (g x)|]; rewrite IH; reflexivity.
Qed.

Lemma history_shape (sessions : list Turn) (channel user : string) (n : nat) :
  let sorted := sort_desc by_timestamp (turns_of sessions channel user) in
  getConversationHistory sessions channel user (Some n) = rev (firstn n sorted) /\
  Permutation sorted (turns_of sessions channel user) /\
  StronglySorted (fun a b => timestamp b <= timestamp a) sorted.
Proof.
  intros sorted. unfold getConversationHistory, getAll. rewrite filter_twice.
  fold (turns_of sessions channel user). fold sorted.
  split; [reflexivity|]. split.
  - symmetry. apply sort_desc_perm.
  - pose proof (sort_desc_sorted by_timestamp by_timestamp_total by_timestamp_trans
                  (turns_of sessions channel user)) as Hs.
    fold sorted in Hs. unfold descending in Hs.
    eapply sorted_impl; [|exact Hs].
    intros a b H. unfold by_timestamp in H. lia.
Qed.

(** X21.  The history is made of the latest turns of the user in the channel,
    oldest first: it holds [limit] of them (20 when no limit is given),
    or all of them if there are fewer; its time stamps never fall; and
    every turn of the user in the channel that is left out is at most as
    recent as every turn that is kept. *)
Theorem history_is_the_latest_turns_oldest_first :
  forall (sessions : list Turn) (channel user : string) (limit : option nat),
    let n := match limit with Some n => n | None => 20%nat end in
    let history := getConversationHistory sessions channel user limit in
    List.length history = Nat.min n (List.length (turns_of sessions channel user)) /\
    StronglySorted (fun a b => timestamp a <= timestamp b) history /\
    exists older,
      Permutation (older ++ history) (turns_of sessions channel user) /\
      (forall o h, In o older -> In h history -> timestamp o <= timestamp h).
Proof.
  intros sessions channel user limit n history.
  assert (Hh : history = getConversationHistory sessions channel user (Some n)).
  { unfold history, n. destruct limit; reflexivity. }
  destruct (history_shape sessions channel user n) as (Hr & Hp & Hs).
  cbv zeta in Hr, Hp, Hs.
  set (sorted := sort_desc by_timestamp (turns_of sessions channel user)) in *.
  rewrite Hr in Hh. clearbody history. subst history.
  rewrite <- (firstn_skipn n sorted) in Hs.
  apply sorted_app in Hs. destruct Hs as (Hs1 & _ & Hs12).
  split; [|split].
  - rewrite length_rev, length_firstn, (Permutation_length Hp). reflexivity.
  - apply (sorted_rev _ _ Hs1).
  - exists (skipn n sorted). split.
    + rewrite <- Hp. rewrite <- (firstn_skipn n sorted) at 3.
      rewrite Permutation_app_comm. apply Permutation_app_tail.
      symmetry. apply Permutation_rev.
    + intros o h Ho Hh. apply in_rev in Hh. apply Hs12; assumption.
Qed.

(** [store.put(record)]: the record takes the place of the one that has
    its key, if there is one, and is added otherwise. *)
Fixpoint put (sessions : list Turn) (record : Turn) : list Turn :=
  match sessions with
  | [] => [record]
  | r :: rest =>
      if String.eqb (key r) (key record) then record :: rest
      else r :: put rest record
  end.

(** [storeConversationTurn(channelId, userId, role, content)].  The clock
    is read twice, for the key and for the time stamp. *)
Definition storeConversationTurn (sessions : list Turn)
  (channel user role0 content0 : string) (now_key now_stamp : Z) : list Turn :=
  let key :=
    (channel ++ "_" ++ user ++ "_" ++ Gravity.decimal (Z.to_nat now_key))%string in
  let sessionData := mkTurn key channel user role0 content0 now_stamp in
  put sessions sessionData.

Lemma put_has (sessions : list Turn) (record : Turn) : In record (put sessions record).
Proof.
  induction sessions as [|r rest IH]; simpl; [left; reflexivity|].
  destruct (String.eqb (key r) (key record)); [left; reflexivity|right; exact IH].
Qed.

Lemma put_others (sessions : list Turn) (record : Turn) :
  forall r, In r (put sessions record) -> r = record \/ In r sessions.
Proof.
  induction sessions as [|r0 rest IH]; simpl; intros r Hr.
  - destruct Hr as [<-|[]]. left. reflexivity.
  - destruct (String.eqb (key r0) (key record)).
    + destruct Hr as [<-|Hr]; [left; reflexivity|right; right; exact Hr].
    + destruct Hr as [<-|Hr]; [right; left; reflexivity|].
      destruct (IH _ Hr) as [H|H]; [left; exact H|right; right; exact H].
Qed.

(** X22.  A turn stored later than every turn on record is the last entry of
    the history of its user and channel, whatever the limit, unless the
    limit is zero. *)
Theorem stored_turn_closes_the_history :
  forall (sessions : list Turn) (channel user role0 content0 : string)
         (now_key now_stamp : Z) (limit : option nat),
    (forall r, In r sessions -> timestamp r < now_stamp) ->
    limit <> Some 0%nat ->
    exists earlier : list Turn,
      getConversationHistory
        (storeConversationTurn sessions channel user role0 content0 now_key now_stamp)
        channel user limit
      = earlier ++
        [mkTurn (channel ++ "_" ++ user ++ "_" ++ Gravity.decimal (Z.to_nat now_key))%string
                channel user role0 content0 now_stamp].
Proof.
  intros sessions channel user role0 content0 now_key now_stamp limit Hlate Hlimit.
  unfold storeConversationTurn. cbv zeta.
  set (k := (channel ++ "_" ++ user ++ "_" ++ Gravity.decimal (Z.to_nat now_key))%string).
  set (turn := mkTurn k channel user role0 content0 now_stamp).
  set (n := match limit with Some n => n | None => 20%nat end).
  assert (Hn : exists n', n = S n').
  { unfold n. destruct limit as [[|n']|]; [congruence|eauto|eauto]. }
  destruct Hn as [n' Hn].
  assert (Hh : getConversationHistory (put sessions turn) channel user limit
               = getConversationHistory (put sessions turn) channel user (Some n)).
  { unfold n. destruct limit; reflexivity. }
  rewrite Hh. clear Hh.
  destruct (history_shape (put sessions turn) channel user n) as (Hr & Hp & Hs).
  cbv zeta in Hr, Hp, Hs. rewrite Hr. clear Hr.
  set (sorted := sort_desc by_timestamp (turns_of (put sessions turn) channel user)) in *.
  assert (Hin : In turn sorted).
  { apply (Permutation_in _ (Permutation_sym Hp)). unfold turns_of.
    apply filter_In. split; [apply put_has|].
    unfold turn. cbn [channelId userId]. rewrite !String.eqb_refl. reflexivity. }
  destruct sorted as [|h t] eqn:Es; [contradiction|].
  assert (Hhead : h = turn).
  { destruct Hin as [Hin|Hin]; [exact Hin|].
    inversion Hs as [|? ? _ Hall]; subst.
    rewrite Forall_forall in Hall. specialize (Hall _ Hin).
    assert (Hh : In h (turns_of (put sessions turn) channel user)).
    { apply (Permutation_in _ Hp). left. reflexivity. }
    unfold turns_of in Hh. apply filter_In in Hh. destruct Hh as [Hh _].
    destruct (put_others _ _ _ Hh) as [Heq|Hold]; [exact Heq|].
    specialize (Hlate _ Hold). unfold turn in Hall. cbn [timestamp] in Hall. lia. }
  exists (rev (firstn n' t)). rewrite Hn. cbn [firstn rev]. rewrite Hhead.
  reflexivity.
Qed.

Lemma stored_turn_closes_the_history_witness :
  exists earlier : list Turn,
    getConversationHistory
      (storeConversationTurn
         [mkTurn "web_ann_5" "web" "ann" "user" "hello" 5;
          mkTurn "web_bob_6" "web" "bob" "user" "hi" 6]
         "web" "ann" "assistant" "good morning" 7 8)
      "web" "ann" None
    = earlier ++ [mkTurn "web_ann_7" "web" "ann" "assistant" "good morning" 8].
Proof.
  apply (stored_turn_closes_the_history
           [mkTurn "web_ann_5" "web" "ann" "user" "hello" 5;
            mkTurn "web_bob_6" "web" "bob" "user" "hi" 6]
           "web" "ann" "assistant" "good morning" 7 8 None).
  - intros r [<-|[<-|[]]]; simpl; lia.
  - discriminate.
Defined.

End History.

(* ------------------------------------------------------------------ *)
(** ** Integrity report ([RAGBooster.verifyAll] in
    [src/memory/rag-booster.js]) *)

Module Integrity.
Import Gravity GravityMore.
Local Open Scope string_scope.
Local Open Scope list_scope.

Section VerifyAll.

Variable sha256 : list byte -> list byte.

(** How a call of [memory.verify(key)] ends. *)
Inductive Verdict : Type :=
| Returned (isValid : bool)
| Thrown.

(** [this.memory.verify(key)] for the memory of a [RAGBooster].  Its
    [retrieveFn] is [retrieveFromIndexedDB], which answers an array; an
    array is truthy and has no [bit], so that when the cache has no chunk
    under [key] the call ends in the exception that
    [deserialize(undefined)] raises. *)
Definition booster_verify (cache : list (string * ChunkData)) (k : string) : Verdict :=
  match cache_get cache k with
  | Some chunk => Returned (verify_chunk sha256 chunk)
  | None => Thrown
  end.

Inductive Error : Type :=
| Hash_mismatch
| Exception.

Record Report : Type := mkReport {
  total : nat;
  valid : nat;
  invalid : nat;
  errors : list (string * Error)
}.

(** The body of the loop of [verifyAll]. *)
Definition check (cache : list (string * ChunkData)) (results : Report)
  (chunk : ChunkData) : Report :=
  match booster_verify cache (key chunk) with
  | Returned true =>
      mkReport (total results) (S (valid results)) (invalid results) (errors results)
  | Returned false =>
      mkReport (total results) (valid results) (S (invalid results))
               (errors results ++ [(key chunk, Hash_mismatch)])
  | Thrown =>
      mkReport (total results) (valid results) (S (invalid results))
               (errors results ++ [(key chunk, Exception)])
  end.

(** [verifyAll()]; [chunks] is what the database holds. *)
Definition verifyAll (chunks : list ChunkData) (cache : list (string * ChunkData))
  : Report :=
  fold_left (check cache) chunks (mkReport (List.length chunks) 0 0 []).

(** The chunk is counted as valid. *)
Definition passes (cache : list (string * ChunkData)) (chunk : ChunkData) : bool :=
  match cache_get cache (key chunk) with
  | Some cached => verify_chunk sha256 cached
  | None => false
  end.

Lemma check_all (cache : list (string * ChunkData)) (chunks : list ChunkData) :
  forall results,
    let final := fold_left (check cache) chunks results in
    total final = total results /\
    valid final = (valid results + List.length (filter (passes cache) chunks))%nat /\
    invalid final
    = (invalid results
       + List.length (filter (fun c => negb (passes cache c)) chunks))%nat /\
    map fst (errors final)
    = map fst (errors results) ++ map key (filter (fun c => negb (passes cache c)) chunks).
Proof.
  induction chunks as [|c r IH]; intros results; simpl.
  - rewrite !Nat.add_0_r, app_nil_r. auto.
  - destruct (IH (check cache results c)) as (Ht & Hv & Hi & He).
    cbv zeta in *. rewrite Ht, Hv, Hi, He. clear Ht Hv Hi He IH.
    unfold check, booster_verify, passes.
    destruct (cache_get cache (key c)) as [cached|];
      [destruct (verify_chunk sha256 cached)|];
      cbn [total valid invalid errors negb filter List.length map];
      rewrite ?map_app; cbn [map fst]; rewrite <- ?app_assoc;
      repeat split; try reflexivity; try lia.
Qed.

(** X23.  The report of [verifyAll] adds up: every chunk of the database is
    counted once, as valid or as invalid, and there is one error entry,
    under the chunk's key and in the order of the database, for each
    invalid one.  A chunk counts as valid exactly when the cache holds a
    chunk under its key and the fingerprint of that chunk matches its
    text; a chunk of the database that is not in the cache is reported
    invalid. *)
Theorem verifyAll_report_adds_up :
  forall (chunks : list ChunkData) (cache : list (string * ChunkData)),
    let report := verifyAll chunks cache in
    total report = List.length chunks /\
    (valid report + invalid report)%nat = total report /\
    List.length (errors report) = invalid report /\
    valid report = List.length (filter (passes cache) chunks) /\
    map fst (errors report) = map key (filter (fun c => negb (passes cache c)) chunks) /\
    (forall c, In c chunks -> cache_get cache (key c) = None ->
               In (key c) (map fst (errors report))).
Proof.
  intros chunks cache report.
  destruct (check_all cache chunks (mkReport (List.length chunks) 0 0 []))
    as (Ht & Hv & Hi & He).
  cbv zeta in *. fold (verifyAll chunks cache) in Ht, Hv, Hi, He. fold report in Ht, Hv, Hi, He.
  cbn [total valid invalid errors map app] in Ht, Hv, Hi, He.
  assert (Hsplit : forall l : list ChunkData,
             (List.length (filter (passes cache) l)
              + List.length (filter (fun c => negb (passes cache c)) l))%nat
             = List.length l).
  { induction l as [|c r IH]; simpl; [reflexivity|].
    destruct (passes cache c); simpl; lia. }
  split; [exact Ht|]. split; [rewrite Ht, Hv, Hi; apply Hsplit|].
  split; [rewrite <- (length_map fst), He, length_map, Hi; reflexivity|].
  split; [exact Hv|]. split; [exact He|].
  intros c Hin Hmiss. rewrite He. apply in_map. apply filter_In.
  split; [exact Hin|]. unfold passes. rewrite Hmiss. reflexivity.
Qed.

End VerifyAll.

End Integrity.

(* ------------------------------------------------------------------ *)
(** ** The agent's soul ([src/core/soul.js])

    [getConfig] hands out a fresh copy of what the database holds, and
    [DEFAULT_SOUL] itself, the object shared by the whole module, while
    nothing is stored.  The model keeps that object beside the stored
    value, so that a change made in place to what [getSoul] returned
    shows where the source makes it show. *)

Module AgentSoul.
Local Open Scope string_scope.
Local Open Scope list_scope.

Section SoulOps.

(** [soul.relationships], which the functions below pass on untouched. *)
Variable Relationships : Type.

Record Soul : Type := mkSoul {
  name : string;
  personality : string;
  language : string;
  goals : list string;
  skills : list string;
  relationships : Relationships;
  values : list string
}.

Definition set_goals (g : list string) (s : Soul) : Soul :=
  mkSoul (name s) (personality s) (language s) g (skills s) (relationships s) (values s).

Definition set_skills (k : list string) (s : Soul) : Soul :=
  mkSoul (name s) (personality s) (language s) (goals s) k (relationships s) (values s).

(** The module's [DEFAULT_SOUL] object and the ['soul'] entry of the
    config store. *)
Record Db : Type := mkDb {
  DEFAULT_SOUL : Soul;
  stored : option Soul
}.

Definition AVAILABLE_SKILLS : list string :=
  ["code"; "research"; "scheduling"; "memory"; "writing"; "analysis"; "math";
   "translation"; "summarization"; "creative"; "planning"; "debugging"].

(** [arr.includes(x)] *)
Definition array_includes (arr : list string) (x : string) : bool :=
  existsb (String.eqb x) arr.

(** [arr.filter(g => g !== x)] *)
Definition without (arr : list string) (x : string) : list string :=
  filter (fun g => negb (String.eqb g x)) arr.

(** [getSoul()] *)
Definition getSoul (db : Db) : Soul :=
  match stored db with
  | Some soul => soul
  | None => DEFAULT_SOUL db
  end.

(** A change made in place to the object [getSoul()] returned: it
    reaches [DEFAULT_SOUL] when that is the object returned, and is made
    to a copy otherwise. *)
Definition in_place (change : Soul -> Soul) (db : Db) : Db :=
  match stored db with
  | Some _ => db
  | None => mkDb (change (DEFAULT_SOUL db)) None
  end.

(** [updateSoul(updates)]: [{ ...current, ...updates }] is stored and
    returned. *)
Definition updateSoul (updates : Soul -> Soul) (db : Db) : Db * Soul :=
  let updated := updates (getSoul db) in
  (mkDb (DEFAULT_SOUL db) (Some updated), updated).

(** [addGoal(goal)] *)
Definition addGoal (db : Db) (goal : string) : Db * Soul :=
  let soul := getSoul db in
  if negb (array_includes (goals soul) goal) then
    let pushed := goals soul ++ [goal] in
    updateSoul (set_goals pushed) (in_place (set_goals pushed) db)
  else (db, soul).

(** [removeGoal(goal)] *)
Definition removeGoal (db : Db) (goal : string) : Db * Soul :=
  let soul := getSoul db in
  let kept := without (goals soul) goal in
  updateSoul (set_goals kept) (in_place (set_goals kept) db).

Inductive Outcome (A : Type) : Type :=
| Returned (value : A)
| Thrown (message : string).
Arguments Returned {A} value.
Arguments Thrown {A} message.

(** [addSkill(skill)] *)
Definition addSkill (db : Db) (skill : string) : Db * Outcome Soul :=
  if negb (array_includes AVAILABLE_SKILLS skill) then
    (db, Thrown ("Unknown skill: " ++ skill))
  else
    let soul := getSoul db in
    if negb (array_includes (skills soul) skill) then
      let pushed := skills soul ++ [skill] in
      let '(db', updated) := updateSoul (set_skills pushed) (in_place (set_skills pushed) db) in
      (db', Returned updated)
    else (db, Returned soul).

(** [removeSkill(skill)] *)
Definition removeSkill (db : Db) (skill : string) : Db * Soul :=
  let soul := getSoul db in
  let kept := without (skills soul) skill in
  updateSoul (set_skills kept) (in_place (set_skills kept) db).

(** [resetSoul()] *)
Definition resetSoul (db : Db) : Db * Soul :=
  (mkDb (DEFAULT_SOUL db) (Some (DEFAULT_SOUL db)), DEFAULT_SOUL db).

Lemma array_includes_In (arr : list string) (x : string) :
  array_includes arr x = true <-> In x arr.
Proof.
  unfold array_includes. rewrite existsb_exists. split.
  - intros (y & Hy & Heq). apply String.eqb_eq in Heq. subst y. exact Hy.
  - intros H. exists x. split; [exact H|apply String.eqb_refl].
Qed.

Lemma without_absent (arr : list string) (x : string) :
  ~ In x arr -> without arr x = arr.
Proof.
  induction arr as [|y r IH]; simpl; intros H; [reflexivity|].
  destruct (String.eqb y x) eqn:E.
  - apply String.eqb_eq in E. subst y. exfalso. apply H. left. reflexivity.
  - simpl. rewrite IH; [reflexivity|]. intros Hin. apply H. right. exact Hin.
Qed.

Lemma without_pushed (arr : list string) (x : string) :
  ~ In x arr -> without (arr ++ [x]) x = arr.
Proof.
  intros H. unfold without. rewrite filter_app. simpl.
  rewrite String.eqb_refl. simpl. rewrite app_nil_r. apply without_absent. exact H.
Qed.

(** X24.  [addGoal] adds a goal once.  Afterwards the goal is among the goals
    of the soul returned, which is the soul on record; a goal that was
    there already is not added again, so that a list of goals without
    repetition stays so; asking a second time changes nothing; and
    [removeGoal] takes a goal that was new out again, leaving the goals
    as they were. *)
Theorem addGoal_adds_the_goal_once :
  forall (db : Db) (goal : string),
    let db' := fst (addGoal db goal) in
    let soul' := snd (addGoal db goal) in
    In goal (goals soul') /\
    getSoul db' = soul' /\
    (In goal (goals (getSoul db)) -> goals soul' = goals (getSoul db)) /\
    (~ In goal (goals (getSoul db)) -> goals soul' = goals (getSoul db) ++ [goal]) /\
    (NoDup (goals (getSoul db)) -> NoDup (goals soul')) /\
    addGoal db' goal = (db', soul') /\
    (~ In goal (goals (getSoul db)) ->
     goals (snd (removeGoal db' goal)) = goals (getSoul db)).
Proof.
  intros db goal. cbv zeta. unfold addGoal.
  destruct (array_includes (goals (getSoul db)) goal) eqn:E; cbn [negb fst snd].
  - pose proof (proj1 (array_includes_In _ _) E) as Hin.
    split; [exact Hin|]. split; [reflexivity|]. split; [reflexivity|].
    split; [contradiction|]. split; [auto|]. split; [|contradiction].
    rewrite E. reflexivity.
  - assert (Hnot : ~ In goal (goals (getSoul db))).
    { intros H. apply array_includes_In in H. congruence. }
    assert (Hgoals : goals (snd (updateSoul (set_goals (goals (getSoul db) ++ [goal]))
                                   (in_place (set_goals (goals (getSoul db) ++ [goal])) db)))
                     = goals (getSoul db) ++ [goal]) by reflexivity.
    split; [rewrite Hgoals; apply in_or_app; right; left; reflexivity|].
    split; [reflexivity|]. split; [contradiction|]. split; [intros _; exact Hgoals|].
    split; [|split].
    + intros Hnd. rewrite Hgoals. apply NoDup_app; [exact Hnd|repeat constructor; auto|].
      intros x Hx [<-|[]]. contradiction.
    + cbn [updateSoul fst snd getSoul stored goals set_goals].
      unfold getSoul at 1. cbn [stored goals set_goals].
      assert (Hinc : array_includes (goals (getSoul db) ++ [goal]) goal = true).
      { apply array_includes_In, in_or_app. right. left. reflexivity. }
      fold (getSoul db). rewrite Hinc. reflexivity.
    + intros _. unfold removeGoal, updateSoul. cbn [fst snd getSoul stored in_place].
      cbn [goals set_goals]. apply without_pushed. exact Hnot.
Qed.

(** X25.  [resetSoul] brings back the default goals only if a soul had been
    stored before the goal was added.  On a database that holds no soul
    yet, [addGoal] pushes the goal on to the list of [DEFAULT_SOUL]
    itself, and that changed object is what [resetSoul] stores and
    returns. *)
Theorem resetSoul_after_addGoal :
  forall (db : Db) (goal : string),
    ~ In goal (goals (getSoul db)) ->
    let soul := snd (resetSoul (fst (addGoal db goal))) in
    (stored db = None -> goals soul = goals (DEFAULT_SOUL db) ++ [goal]) /\
    (stored db <> None -> soul = DEFAULT_SOUL db).
Proof.
  intros db goal Hnot. cbv zeta. unfold addGoal.
  assert (E : array_includes (goals (getSoul db)) goal = false).
  { destruct (array_includes (goals (getSoul db)) goal) eqn:E; [|reflexivity].
    apply array_includes_In in E. contradiction. }
  rewrite E. cbn [negb]. unfold getSoul, in_place, updateSoul, resetSoul.
  destruct (stored db) as [s|]; cbn [fst snd DEFAULT_SOUL stored goals set_goals].
  - split; [discriminate|reflexivity].
  - split; [reflexivity|congruence].
Qed.

(** X26.  [addSkill] refuses a skill that is not in [AVAILABLE_SKILLS] with an
    exception and changes nothing; a known skill is among the soul's
    skills afterwards, and skills that were all known before are all
    known afterwards. *)
Theorem addSkill_admits_known_skills_only :
  forall (db : Db) (skill : string),
    let db' := fst (addSkill db skill) in
    (~ In skill AVAILABLE_SKILLS ->
     addSkill db skill = (db, Thrown ("Unknown skill: " ++ skill))) /\
    (In skill AVAILABLE_SKILLS ->
     exists soul', snd (addSkill db skill) = Returned soul' /\
                   getSoul db' = soul' /\
                   In skill (skills soul') /\
                   (forall k, In k (skills soul') -> k = skill \/ In k (skills (getSoul db)))) /\
    (incl (skills (getSoul db)) AVAILABLE_SKILLS ->
     incl (skills (getSoul db')) AVAILABLE_SKILLS).
Proof.
  intros db skill. cbv zeta. unfold addSkill.
  destruct (array_includes AVAILABLE_SKILLS skill) eqn:Ea; cbn [negb].
  - pose proof (proj1 (array_includes_In _ _) Ea) as Hav.
    destruct (array_includes (skills (getSoul db)) skill) eqn:Es; cbn [negb].
    + pose proof (proj1 (array_includes_In _ _) Es) as Hin.
      split; [contradiction|]. split; [|auto].
      intros _. exists (getSoul db). cbn [fst snd]. auto.
    + cbn [updateSoul fst snd]. split; [contradiction|]. split.
      * intros _. eexists. split; [reflexivity|]. split; [reflexivity|].
        cbn [skills set_skills]. split.
        -- apply in_or_app. right. left. reflexivity.
        -- intros k Hk. apply in_app_or in Hk.
           destruct Hk as [Hk|[<-|[]]]; [right|left; reflexivity].
           revert Hk. unfold getSoul, in_place.
           destruct (stored db); cbn [stored DEFAULT_SOUL skills set_skills]; auto.
      * intros Hincl k Hk. unfold getSoul in Hk. cbn [stored skills set_skills] in Hk.
        apply in_app_or in Hk. destruct Hk as [Hk|[<-|[]]]; [|exact Hav].
        apply Hincl. revert Hk. unfold getSoul, in_place.
        destruct (stored db); cbn [stored DEFAULT_SOUL skills set_skills]; auto.
  - assert (Hnot : ~ In skill AVAILABLE_SKILLS).
    { intros H. apply array_includes_In in H. congruence. }
    split; [reflexivity|]. split; [contradiction|]. auto.
Qed.

End SoulOps.

Arguments mkSoul {Relationships}.
Arguments mkDb {Relationships}.

Lemma resetSoul_after_addGoal_witness :
  goals unit
    (snd (resetSoul unit
            (fst (addGoal unit
                    (mkDb (mkSoul "Atlas" "Helpful" "fr" ["Learn"] ["code"] tt []) None)
                    "Travel"))))
  = ["Learn"; "Travel"].
Proof.
  apply (proj1 (resetSoul_after_addGoal unit
                  (mkDb (mkSoul "Atlas" "Helpful" "fr" ["Learn"] ["code"] tt []) None)
                  "Travel"
                  ltac:(simpl; intros [H|[]]; discriminate H))).
  reflexivity.
Defined.

End AgentSoul.

(* ------------------------------------------------------------------ *)
(** ** The inference worker ([inference.js], in [src/ui/app.tsx]) *)

Module Inference.
Import Js JsText.
Local Open Scope list_scope.
Local Open Scope string_scope.

(** The part of the worker's state that [runInference] reads and
    writes: whether a session is loaded, and [isGenerating]. *)
Record State : Type := mkState {
  session : bool;
  isGenerating : bool
}.

Inductive Event : Type :=
| ERROR (taskId error : string)
| STREAM (taskId token : string)
| COMPLETE (taskId response : string).

Definition responses : list string :=
  ["I understand your request. ";
   "Let me help you with that. ";
   "Based on my analysis, ";
   "Here's what I found: ";
   "I can assist you with this. "].

(** The answer [generateTokens] makes up; [pick] is
    [Math.floor(Math.random() * responses.length)]. *)
Definition select_response (message : string) (pick : nat) : string :=
  let response := nth pick responses "" in
  let lower := toLowerCase message in
  if includes lower "hello" || includes lower "hi" then
    "Hello! I'm your local AI assistant. How can I help you today?"
  else if includes lower "help" then
    "I'm here to help! I can answer questions, assist with coding, help with research, and more. What do you need?"
  else if includes lower "code" then
    "I can help you with coding! I understand multiple programming languages and can assist with debugging, writing functions, or explaining concepts."
  else
    response ++
    "I'm running locally in your browser, so your data stays private. What would you like to know?".

(** [s.split(' ')] *)
Fixpoint split_space_go (s : string) (piece : list ascii) : list string :=
  match s with
  | EmptyString => [string_of_rev piece]
  | String c r =>
      if (code c =? 32)%N then string_of_rev piece :: split_space_go r []
      else split_space_go r (c :: piece)
  end.

Definition split_space (s : string) : list string := split_space_go s [].

(** The tokens [generateTokens(message)] yields. *)
Definition generateTokens (message : string) (pick : nat) : list string :=
  map (fun word => word ++ " ") (split_space (select_response message pick)).

Definition reverse (s : string) : string :=
  string_of_list_ascii (rev (list_ascii_of_string s)).

(** [s.trim()] *)
Definition trim (s : string) : string :=
  reverse (skip is_space (reverse (skip is_space s))).

(** One round of the loop over the tokens. *)
Definition take_token (taskId : string) (stream : bool) (acc : string * list Event)
  (token : string) : string * list Event :=
  let '(fullResponse, posted) := acc in
  (fullResponse ++ token, if stream then (posted ++ [STREAM taskId token])%list else posted).

(** [runInference(taskId, message, stream = true)], with the state after
    it and the messages it posts.  [abort_at] is the number of tokens
    taken before the abort signal is seen, if it is seen. *)
Definition runInference (st : State) (taskId message : string) (stream : option bool)
  (pick : nat) (abort_at : option nat) : State * list Event :=
  if negb (session st) then (st, [ERROR taskId "No model loaded"])
  else if isGenerating st then (st, [ERROR taskId "Already generating"])
  else
    let stream := match stream with Some b => b | None => true end in
    let generated := generateTokens message pick in
    let taken := match abort_at with Some k => firstn k generated | None => generated end in
    let '(fullResponse, posted) := fold_left (take_token taskId stream) taken ("", []) in
    (mkState (session st) false, (posted ++ [COMPLETE taskId (trim fullResponse)])%list).

(** The tokens one after the other. *)
Definition flatten (tokens : list string) : string := fold_right append "" tokens.

Lemma take_tokens (taskId : string) (stream : bool) (taken : list string) :
  forall fullResponse posted,
    fold_left (take_token taskId stream) taken (fullResponse, posted)
    = (fullResponse ++ flatten taken,
       (posted ++ (if stream then map (STREAM taskId) taken else []))%list).
Proof.
  induction taken as [|t r IH]; intros full posted; simpl.
  - rewrite JsFacts.append_empty_r. destruct stream; rewrite app_nil_r; reflexivity.
  - rewrite IH. rewrite JsFacts.append_assoc.
    destruct stream; [rewrite <- app_assoc|]; reflexivity.
Qed.

Lemma split_space_go_flatten (s : string) :
  forall piece,
    flatten (map (fun word => word ++ " ") (split_space_go s piece))
    = string_of_rev piece ++ s ++ " ".
Proof.
  induction s as [|c r IH]; intros piece; simpl.
  - rewrite JsFacts.append_empty_r. reflexivity.
  - destruct (code c =? 32)%N eqn:E.
    + simpl. rewrite IH. simpl.
      apply N.eqb_eq in E. unfold code in E.
      assert (Hc : c = " "%char).
      { rewrite <- (ascii_N_embedding c), E. reflexivity. }
      subst c. rewrite JsFacts.append_assoc. reflexivity.
    + rewrite IH, RagMore.string_of_rev_cons, JsFacts.append_assoc. reflexivity.
Qed.

Lemma generateTokens_flatten (message : string) (pick : nat) :
  flatten (generateTokens message pick) = select_response message pick ++ " ".
Proof. unfold generateTokens, split_space. apply split_space_go_flatten. Qed.

Lemma trim_response (message : string) (pick : nat) :
  (pick < 5)%nat ->
  trim (select_response message pick ++ " ") = select_response message pick.
Proof.
  intros Hp. unfold select_response.
  destruct (includes (toLowerCase message) "hello" || includes (toLowerCase message) "hi");
    [vm_compute; reflexivity|].
  destruct (includes (toLowerCase message) "help"); [vm_compute; reflexivity|].
  destruct (includes (toLowerCase message) "code"); [vm_compute; reflexivity|].
  do 5 (destruct pick as [|pick]; [vm_compute; reflexivity|]). lia.
Qed.

(** X27.  [runInference] completes with what it streamed.  Without a session,
    or while a generation is under way, it posts one error and changes
    nothing.  Otherwise it posts the tokens it took, in order, as stream
    messages (none if streaming is off) and then one completion whose
    response is these tokens put together and trimmed, and it leaves
    [isGenerating] off.  If no abort is seen, the tokens put together are
    the answer followed by one blank, and the response is the answer. *)
Theorem runInference_completes_what_it_streamed :
  forall (st : State) (taskId message : string) (stream : option bool)
         (pick : nat) (abort_at : option nat),
    (pick < 5)%nat ->
    let st' := fst (runInference st taskId message stream pick abort_at) in
    let posted := snd (runInference st taskId message stream pick abort_at) in
    (session st = false -> st' = st /\ posted = [ERROR taskId "No model loaded"]) /\
    (session st = true -> isGenerating st = true ->
     st' = st /\ posted = [ERROR taskId "Already generating"]) /\
    (session st = true -> isGenerating st = false ->
     st' = mkState true false /\
     exists taken : list string,
       posted = ((if match stream with Some b => b | None => true end
                  then map (STREAM taskId) taken else [])
                 ++ [COMPLETE taskId (trim (flatten taken))])%list /\
       (forall k, abort_at = Some k -> taken = firstn k (generateTokens message pick)) /\
       (abort_at = None ->
        flatten taken = select_response message pick ++ " " /\
        trim (flatten taken) = select_response message pick)).
Proof.
  intros st taskId message stream pick abort_at Hp. cbv zeta. unfold runInference.
  destruct (session st) eqn:Es; cbn [negb].
  - destruct (isGenerating st) eqn:Eg.
    + split; [discriminate|]. split; [auto|discriminate].
    + split; [discriminate|]. split; [discriminate|]. intros _ _.
      rewrite take_tokens. cbn [fst snd app append]. split; [reflexivity|].
      exists (match abort_at with
              | Some k => firstn k (generateTokens message pick)
              | None => generateTokens message pick
              end).
      split; [reflexivity|]. split.
      * intros k ->. reflexivity.
      * intros ->. rewrite generateTokens_flatten. split; [reflexivity|].
        apply trim_response. exact Hp.
  - split; [auto|]. split; discriminate.
Qed.

Lemma runInference_completes_what_it_streamed_witness :
  snd (runInference (mkState true false) "t1" "which one" None 0 (Some 2))
  = [STREAM "t1" "Hello! "; STREAM "t1" "I'm "; COMPLETE "t1" "Hello! I'm"].
Proof.
  destruct (runInference_completes_what_it_streamed
              (mkState true false) "t1" "which one" None 0 (Some 2) ltac:(lia))
    as (_ & _ & H).
  destruct (H eq_refl eq_refl) as (_ & taken & Hposted & Hk & _).
  rewrite Hposted, (Hk 2%nat eq_refl). vm_compute. reflexivity.
Defined.

End Inference.
